(** * Atlas travel journal: location tracking and photo curation

    A shallow embedding of the algorithmic core of the Atlas sources:

    - [utils/helpers.ts]: [generateUUID], [calculateDuration],
      [calculateDistance], [calculateSpeed], [inferActivityFromSpeed],
      [truncate], [clamp], [percentage], [groupBy], [unique], [shuffle],
      [isValidCoordinate], [retryWithBackoff];
    - [utils/constants.ts]: [TRACKING_CONFIG], [CURATION_CONFIG];
    - [utils/storage.ts]: [tripStorage], [locationStorage];
    - [services/TrackerService.ts]: the tracker life cycle;
    - [services/TripService.ts]: the life cycle of a trip, over the
      storage and the tracker;
    - [services/CurationService.ts]: [curateTripPhotos],
      [selectFeaturedPhotos], [clusterPhotos], [finalizeCluster].

    Conventions of the embedding.

    - A JavaScript [number] that holds a measured quantity (degrees, metres,
      metres per second, a quality score) is an exact real number: the
      development speaks about the formulas of the code, not about their
      binary64 rounding. The one exception is the module [Binary64], which
      reads [calculateDistance], [calculateSpeed] and [clamp] again in
      binary64, where a [NaN] can be seen.
    - A [Date] is its time value [getTime()], an integral number of
      milliseconds, in [Z]. Millisecond intervals and counters are in [Z]
      or [nat].
    - An exception is a value: fallible code returns [option] or a sum.
    - Each [async] method is taken as one atomic step: the tracker is driven
      by a single timer loop. A call made without [await] runs once its
      caller is through. What holds only as long as calls do not overlap
      is said to; where an overlap matters, the parts of a method before
      and after an [await] are given on their own.
    - The native stubs of the tracker (the permission check, the location
      of the device) are answered by a device, given with each call.
    - [Math.random()] is a sequence of reals, read by the number of draws
      made so far; that each is at least 0 and less than 1 is a hypothesis
      where it is used.
    - What is kept in the local storage goes through JSON: a [Date] that
      was saved is read back as a text, without the methods of a
      [Date]. *)

From Stdlib Require Import ZArith List Bool String Reals Lra Lia.
From Stdlib Require Import Sorted Permutation.
From Stdlib Require Floats.
From Stdlib Require Uint63.
From Stdlib Require HexadecimalString.
Import ListNotations.

Set Implicit Arguments.

(* ================================================================== *)
(** * Data model ([models/index.ts]) *)
(* ================================================================== *)

Inductive ActivityType : Type :=
  | stationary
  | walking
  | driving
  | flying
  | train
  | cycling.

Record GeoPoint : Type := mkGeoPoint {
  latitude : R;
  longitude : R
}.

(** A [Date], by its time value in milliseconds. *)
Definition Date := Z.

(* ================================================================== *)
(** * Constants ([utils/constants.ts]) *)
(* ================================================================== *)

Module TRACKING_CONFIG.
Definition HIGH_ACCURACY : R := 10.
Definition MEDIUM_ACCURACY : R := 100.
Definition LOW_ACCURACY : R := 1000.
Definition ACTIVE_INTERVAL : Z := 30000.
Definition IDLE_INTERVAL : Z := 300000.
Definition STATIONARY_INTERVAL : Z := 600000.
Definition MIN_DISPLACEMENT : R := 10.
Definition STATIONARY_RADIUS : R := 50.
Definition WALKING_SPEED : R := 2.
Definition DRIVING_SPEED : R := 20.
Definition FLYING_SPEED : R := 55.
Definition MIN_DWELL_TIME : Z := 1800000.
Definition SHORT_STOP_TIME : Z := 300000.
Definition BATTERY_SAVER_THRESHOLD : R := 2 / 10.
End TRACKING_CONFIG.

Module CURATION_CONFIG.
Definition MIN_QUALITY_SCORE : R := 5 / 10.
Definition FEATURED_QUALITY_THRESHOLD : R := 8 / 10.
Definition JUNK_THRESHOLD : R := 7 / 10.
Definition MAX_PHOTOS_PER_STEP : Z := 10.
Definition FEATURED_PHOTOS_PER_STEP : Z := 3.
Definition TIME_CLUSTER_WINDOW : Z := 3600000.
Definition LOCATION_CLUSTER_RADIUS : R := 200.
Definition SUPPORTED_FORMATS : list string :=
  ["jpg"; "jpeg"; "png"; "heic"; "heif"]%string.
End CURATION_CONFIG.

(* ================================================================== *)
(** * Geolocation helpers ([utils/helpers.ts]) *)
(* ================================================================== *)

Local Open Scope R_scope.

(** The comparisons of the code, as booleans. *)
Definition Rltb (x y : R) : bool := if Rlt_dec x y then true else false.
Definition Rleb (x y : R) : bool := if Rle_dec x y then true else false.

(** [Math.atan2(y, x)] on exact reals: the angle of the point [(x, y)],
    in [(-PI, PI]]. *)
Definition Math_atan2 (y x : R) : R :=
  if Rltb 0 x then atan (y / x)
  else if Rltb x 0 then
    (if Rleb 0 y then atan (y / x) + PI else atan (y / x) - PI)
  else if Rltb 0 y then PI / 2
  else if Rltb y 0 then - (PI / 2)
  else 0.

(** [calculateDistance]: the great-circle distance in metres, by the
    haversine formula. The two square roots are taken of [a] and of [1 - a]
    as they are. *)
Definition calculateDistance (point1 point2 : GeoPoint) : R :=
  let R_earth := 6371000 in
  let phi1 := latitude point1 * PI / 180 in
  let phi2 := latitude point2 * PI / 180 in
  let dphi := (latitude point2 - latitude point1) * PI / 180 in
  let dlambda := (longitude point2 - longitude point1) * PI / 180 in
  let a :=
    sin (dphi / 2) * sin (dphi / 2) +
    cos phi1 * cos phi2 * sin (dlambda / 2) * sin (dlambda / 2) in
  let c := 2 * Math_atan2 (sqrt a) (sqrt (1 - a)) in
  R_earth * c.

(** The term [a] of [calculateDistance], on its own. *)
Definition haversine (point1 point2 : GeoPoint) : R :=
  sin ((latitude point2 - latitude point1) * PI / 180 / 2)
  * sin ((latitude point2 - latitude point1) * PI / 180 / 2)
  + cos (latitude point1 * PI / 180) * cos (latitude point2 * PI / 180)
    * sin ((longitude point2 - longitude point1) * PI / 180 / 2)
    * sin ((longitude point2 - longitude point1) * PI / 180 / 2).

(** [calculateSpeed], in metres per second. *)
Definition calculateSpeed (point1 point2 : GeoPoint) (time1 time2 : Date) : R :=
  let distance := calculateDistance point1 point2 in
  let timeDiff := IZR (time2 - time1) / 1000 in
  if Rltb 0 timeDiff then distance / timeDiff else 0.

(** [inferActivityFromSpeed]. *)
Definition inferActivityFromSpeed (speedMs : R) : ActivityType :=
  if Rltb speedMs 1 then stationary
  else if Rltb speedMs 2 then walking
  else if Rltb speedMs 20 then driving
  else if Rltb speedMs 55 then train
  else flying.

(** The speed bands as the specification lists them. *)
Inductive speed_band (s : R) : ActivityType -> Prop :=
  | band_stationary : s < 1 -> speed_band s stationary
  | band_walking : 1 <= s < 2 -> speed_band s walking
  | band_driving : 2 <= s < 20 -> speed_band s driving
  | band_train : 20 <= s < 55 -> speed_band s train
  | band_flying : 55 <= s -> speed_band s flying.

(** [isValidCoordinate]. *)
Definition isValidCoordinate (point : GeoPoint) : bool :=
  Rleb (-90) (latitude point) && Rleb (latitude point) 90 &&
  Rleb (-180) (longitude point) && Rleb (longitude point) 180.

(* ================================================================== *)
(** * Photo curation ([services/CurationService.ts]) *)
(* ================================================================== *)

Local Open Scope Z_scope.

Inductive TripStatus : Type :=
  | trip_active
  | trip_completed
  | trip_paused.

Module Trip.
Record t : Type := mk {
  id : string;
  ownerUid : string;
  name : string;
  startDate : Date;
  endDate : option Date;
  status : TripStatus;
  coverPhotoUrl : option string;
  countries : option (list string);
  totalSteps : option Z;
  createdAt : Date;
  updatedAt : Date
}.
End Trip.

Module PhotoAnalysis.
Record t : Type := mk {
  nativeId : string;
  isJunk : bool;
  junkScore : R;
  qualityScore : R;
  timestamp : Date;
  location : option GeoPoint;
  width : Z;
  height : Z
}.
End PhotoAnalysis.

Module PhotoMetadata.
Record t : Type := mk {
  nativeId : string;
  timestamp : Date;
  location : option GeoPoint;
  isJunk : bool;
  qualityScore : R;
  width : Z;
  height : Z;
  fileName : option string
}.
End PhotoMetadata.

Module PhotoCluster.
Record t : Type := mk {
  id : string;
  tripId : string;
  photos : list PhotoMetadata.t;
  centerLocation : GeoPoint;
  startTime : Date;
  endTime : Date;
  assignedStepId : option string
}.
End PhotoCluster.

(** [generateUUID] draws from [Math.random]. The random source is a
    sequence of identifiers, and the state is the number of draws made. *)
Definition Entropy := nat -> string.

Definition generateUUID (rng : Entropy) (drawn : nat) : string * nat :=
  (rng drawn, S drawn).

(** [Array.prototype.sort] with a comparator: a stable sort; [x] goes
    before [y] when [compare x y <= 0]. *)
Section ArraySort.
Variable A : Type.
Variable compare : A -> A -> Z.

Fixpoint sort_insert (x : A) (l : list A) : list A :=
  match l with
  | [] => [x]
  | y :: l' => if compare x y <=? 0 then x :: y :: l' else y :: sort_insert x l'
  end.

Fixpoint Array_sort (l : list A) : list A :=
  match l with
  | [] => []
  | x :: l' => sort_insert x (Array_sort l')
  end.
End ArraySort.

(** [arr[arr.length - 1]], [undefined] on the empty array. *)
Fixpoint last_opt (A : Type) (l : list A) : option A :=
  match l with
  | [] => None
  | [x] => Some x
  | _ :: l' => last_opt l'
  end.

(** The record built by the [photos.map] of [finalizeCluster]. *)
Definition toMetadata (p : PhotoAnalysis.t) : PhotoMetadata.t :=
  {| PhotoMetadata.nativeId := PhotoAnalysis.nativeId p;
     PhotoMetadata.timestamp := PhotoAnalysis.timestamp p;
     PhotoMetadata.location := PhotoAnalysis.location p;
     PhotoMetadata.isJunk := PhotoAnalysis.isJunk p;
     PhotoMetadata.qualityScore := PhotoAnalysis.qualityScore p;
     PhotoMetadata.width := PhotoAnalysis.width p;
     PhotoMetadata.height := PhotoAnalysis.height p;
     PhotoMetadata.fileName := None |}.

(** [photos.filter(p => p.location)], as the locations found. *)
Fixpoint photosWithLocation (photos : list PhotoAnalysis.t) : list GeoPoint :=
  match photos with
  | [] => []
  | p :: photos' =>
      match PhotoAnalysis.location p with
      | Some l => l :: photosWithLocation photos'
      | None => photosWithLocation photos'
      end
  end.

(** [finalizeCluster]. [None] is the [TypeError] of [photos[0].timestamp]
    on an empty group. *)
Definition finalizeCluster (rng : Entropy) (photos : list PhotoAnalysis.t)
    (tripId : string) (drawn : nat) : option (PhotoCluster.t * nat) :=
  match hd_error photos, last_opt photos with
  | Some first, Some final =>
      let startTime := PhotoAnalysis.timestamp first in
      let endTime := PhotoAnalysis.timestamp final in
      let located := photosWithLocation photos in
      let centerLocation :=
        if (0 <? Z.of_nat (List.length located))%Z then
          let avgLat :=
            (fold_left (fun sum l => sum + latitude l) located 0
             / INR (List.length located))%R in
          let avgLng :=
            (fold_left (fun sum l => sum + longitude l) located 0
             / INR (List.length located))%R in
          {| latitude := avgLat; longitude := avgLng |}
        else {| latitude := 0; longitude := 0 |} in
      let metadata := map toMetadata photos in
      let (id, drawn') := generateUUID rng drawn in
      Some ({| PhotoCluster.id := id;
               PhotoCluster.tripId := tripId;
               PhotoCluster.photos := metadata;
               PhotoCluster.centerLocation := centerLocation;
               PhotoCluster.startTime := startTime;
               PhotoCluster.endTime := endTime;
               PhotoCluster.assignedStepId := None |}, drawn')
  | _, _ => None
  end.

(** The test of the loop of [clusterPhotos]: does [photo] belong to the
    cluster whose last photo is [lastPhoto]? *)
Definition belongsToCluster (photo lastPhoto : PhotoAnalysis.t) : bool :=
  let timeDiff := PhotoAnalysis.timestamp photo - PhotoAnalysis.timestamp lastPhoto in
  let withinTimeWindow := timeDiff <=? CURATION_CONFIG.TIME_CLUSTER_WINDOW in
  let withinLocationRadius :=
    match PhotoAnalysis.location photo, PhotoAnalysis.location lastPhoto with
    | Some l, Some l' =>
        Rleb (calculateDistance l l') CURATION_CONFIG.LOCATION_CLUSTER_RADIUS
    | _, _ => true
    end in
  withinTimeWindow && withinLocationRadius.

(** The [for] loop of [clusterPhotos] over [sorted[1..]], with its three
    variables: the current cluster, the clusters pushed so far, and the
    state of the random source. *)
Fixpoint clusterLoop (rng : Entropy) (tripId : string)
    (rest : list PhotoAnalysis.t) (currentCluster : list PhotoAnalysis.t)
    (clusters : list PhotoCluster.t) (drawn : nat)
    : option (list PhotoAnalysis.t * list PhotoCluster.t * nat) :=
  match rest with
  | [] => Some (currentCluster, clusters, drawn)
  | photo :: rest' =>
      match last_opt currentCluster with
      | None => None
      | Some lastPhoto =>
          if belongsToCluster photo lastPhoto then
            clusterLoop rng tripId rest' (currentCluster ++ [photo]) clusters drawn
          else if (0 <? Z.of_nat (List.length currentCluster)) then
            match finalizeCluster rng currentCluster tripId drawn with
            | None => None
            | Some (c, drawn') =>
                clusterLoop rng tripId rest' [photo] (clusters ++ [c]) drawn'
            end
          else clusterLoop rng tripId rest' [photo] clusters drawn
      end
  end.

(** [clusterPhotos]. *)
Definition clusterPhotos (rng : Entropy) (photos : list PhotoAnalysis.t)
    (trip : Trip.t) (drawn : nat) : option (list PhotoCluster.t * nat) :=
  if (Z.of_nat (List.length photos) =? 0) then Some ([], drawn)
  else
    let sorted :=
      Array_sort
        (fun a b => PhotoAnalysis.timestamp a - PhotoAnalysis.timestamp b)
        photos in
    match sorted with
    | [] => None
    | first :: rest =>
        match clusterLoop rng (Trip.id trip) rest [first] [] drawn with
        | None => None
        | Some (currentCluster, clusters, drawn') =>
            if (0 <? Z.of_nat (List.length currentCluster)) then
              match finalizeCluster rng currentCluster (Trip.id trip) drawn' with
              | None => None
              | Some (c, drawn'') => Some (clusters ++ [c], drawn'')
              end
            else Some (clusters, drawn')
        end
    end.

(* ================================================================== *)
(** * Retry with backoff ([utils/helpers.ts]) *)
(* ================================================================== *)

(** The operation [fn] is called for its effect, and may answer differently
    each time: [fn k] is the outcome of its call number [k] (from 0),
    [inl] a value and [inr] a thrown error. [sleep] is recorded in the list
    of the delays waited, in order. *)
Module Retry.
Record state (E : Type) : Type := mk {
  calls : nat;
  slept : list Z;
  lastError : option E
}.
Arguments mk {E}.

Definition initial (E : Type) : state E := mk 0%nat [] None.

Section Loop.
Variables T E : Type.
Variable fn : nat -> T + E.
Variable maxRetries : nat.
Variable baseDelay : Z.

(** The [for] loop from index [i], with [fuel] iterations left
    ([fuel = maxRetries - i]). Falling out of the loop throws
    [lastError]. *)
Fixpoint loop (fuel : nat) (i : nat) (st : state E) : (T + option E) * state E :=
  match fuel with
  | O => (inr (lastError st), st)
  | S fuel' =>
      match fn (calls st) with
      | inl v => (inl v, mk (S (calls st)) (slept st) (lastError st))
      | inr error =>
          let st1 := mk (S (calls st)) (slept st) (Some error) in
          let st2 :=
            if Z.of_nat i <? Z.of_nat maxRetries - 1 then
              let delay := baseDelay * 2 ^ Z.of_nat i in
              mk (calls st1) (slept st1 ++ [delay]) (lastError st1)
            else st1 in
          loop fuel' (S i) st2
      end
  end.
End Loop.
End Retry.

Definition DEFAULT_MAX_RETRIES : nat := 3.
Definition DEFAULT_BASE_DELAY : Z := 1000.

(** [retryWithBackoff]: the value returned, or the error thrown
    ([None]: [undefined], thrown when no attempt was made), and the calls
    made and delays waited. *)
Definition retryWithBackoff (T E : Type) (fn : nat -> T + E)
    (maxRetries : nat) (baseDelay : Z) : (T + option E) * Retry.state E :=
  Retry.loop fn maxRetries baseDelay maxRetries 0 (Retry.initial E).

(** An operation that fails [k] times, with the errors [err 0], ...,
    [err (k - 1)], and then succeeds with [v]. *)
Definition fails_then_succeeds (T E : Type) (k : nat) (err : nat -> E) (v : T)
    : nat -> T + E :=
  fun n => if (n <? k)%nat then inr (err n) else inl v.

(** An operation that fails at every call. *)
Definition always_fails (T E : Type) (err : nat -> E) : nat -> T + E :=
  fun n => inr (err n).

(** The delays [baseDelay * 2^0], ..., [baseDelay * 2^(n - 1)]. *)
Definition backoff_delays (baseDelay : Z) (n : nat) : list Z :=
  map (fun i => baseDelay * 2 ^ Z.of_nat i) (seq 0 n).

(* ================================================================== *)
(** * Location tracking ([services/TrackerService.ts]) *)
(* ================================================================== *)

Inductive TrackerState : Type := stopped | active | paused.

Module LocationUpdate.
Record t : Type := mk {
  location : GeoPoint;
  accuracy : R;
  altitude : option R;
  speed : option R;
  heading : option R;
  timestamp : Date
}.
End LocationUpdate.

Module RawLocation.
Record t : Type := mk {
  id : string;
  ownerUid : string;
  tripId : option string;
  location : GeoPoint;
  timestamp : Date;
  accuracy : option R;
  altitude : option R;
  speed : option R;
  heading : option R;
  activity : ActivityType;
  batteryLevel : option R;
  isProcessed : bool
}.
End RawLocation.

Module TrackerConfig.
Record t : Type := mk {
  isActive : bool;
  currentTripId : option string;
  updateInterval : Z;
  distanceFilter : R;
  stationaryRadius : R;
  stopTimeout : Z
}.
End TrackerConfig.

(** The fields of the [TrackerService] object. A timer handle is the
    period, in milliseconds, of the interval it stands for. *)
Module TrackerService.
Record t : Type := mk {
  state : TrackerState;
  currentTripId : option string;
  lastLocation : option LocationUpdate.t;
  currentActivity : ActivityType;
  config : option TrackerConfig.t;
  trackingInterval : option Z;
  syncInterval : option Z
}.

(** The object as constructed. *)
Definition initial : t := mk stopped None None stationary None None None.
End TrackerService.

(** A line of the console. *)
Inductive LogLine : Type :=
  | Info (message : string)
  | Failure (message context : string).

(** What the tracker works on: its own fields, the two keys of the local
    storage it uses, the console, and the random source. *)
Module World.
Record t : Type := mk {
  service : TrackerService.t;
  pendingLocations : list RawLocation.t;
  trackerConfig : option TrackerConfig.t;
  console : list LogLine;
  drawn : nat
}.
End World.

(** The device: what the native stubs of the tracker stand for. *)
Module Device.
Record t : Type := mk {
  locationPermission : bool;
  currentLocation : option LocationUpdate.t;
  batteryLevel : R
}.

(** The stubs as written: permission granted, no location. *)
Definition mock (batteryLevel : R) : t := mk true None batteryLevel.

(** The same device at another battery level. *)
Definition with_battery (level : R) (dev : t) : t :=
  mk (locationPermission dev) (currentLocation dev) level.
End Device.

Definition with_service (f : TrackerService.t -> TrackerService.t) (w : World.t) : World.t :=
  World.mk (f (World.service w)) (World.pendingLocations w)
    (World.trackerConfig w) (World.console w) (World.drawn w).

Definition log (message : string) (w : World.t) : World.t :=
  World.mk (World.service w) (World.pendingLocations w)
    (World.trackerConfig w) (World.console w ++ [Info message]) (World.drawn w).

Definition logError (message context : string) (w : World.t) : World.t :=
  World.mk (World.service w) (World.pendingLocations w)
    (World.trackerConfig w) (World.console w ++ [Failure message context])
    (World.drawn w).

Definition set_state (s : TrackerState) (t : TrackerService.t) : TrackerService.t :=
  TrackerService.mk s (TrackerService.currentTripId t)
    (TrackerService.lastLocation t) (TrackerService.currentActivity t)
    (TrackerService.config t) (TrackerService.trackingInterval t)
    (TrackerService.syncInterval t).

Definition set_currentTripId (id : option string) (t : TrackerService.t) : TrackerService.t :=
  TrackerService.mk (TrackerService.state t) id
    (TrackerService.lastLocation t) (TrackerService.currentActivity t)
    (TrackerService.config t) (TrackerService.trackingInterval t)
    (TrackerService.syncInterval t).

Definition set_lastLocation (l : option LocationUpdate.t) (t : TrackerService.t) : TrackerService.t :=
  TrackerService.mk (TrackerService.state t) (TrackerService.currentTripId t)
    l (TrackerService.currentActivity t)
    (TrackerService.config t) (TrackerService.trackingInterval t)
    (TrackerService.syncInterval t).

Definition set_currentActivity (a : ActivityType) (t : TrackerService.t) : TrackerService.t :=
  TrackerService.mk (TrackerService.state t) (TrackerService.currentTripId t)
    (TrackerService.lastLocation t) a
    (TrackerService.config t) (TrackerService.trackingInterval t)
    (TrackerService.syncInterval t).

Definition set_config (c : option TrackerConfig.t) (t : TrackerService.t) : TrackerService.t :=
  TrackerService.mk (TrackerService.state t) (TrackerService.currentTripId t)
    (TrackerService.lastLocation t) (TrackerService.currentActivity t)
    c (TrackerService.trackingInterval t)
    (TrackerService.syncInterval t).

Definition set_trackingInterval (i : option Z) (t : TrackerService.t) : TrackerService.t :=
  TrackerService.mk (TrackerService.state t) (TrackerService.currentTripId t)
    (TrackerService.lastLocation t) (TrackerService.currentActivity t)
    (TrackerService.config t) i
    (TrackerService.syncInterval t).

Definition set_syncInterval (i : option Z) (t : TrackerService.t) : TrackerService.t :=
  TrackerService.mk (TrackerService.state t) (TrackerService.currentTripId t)
    (TrackerService.lastLocation t) (TrackerService.currentActivity t)
    (TrackerService.config t) (TrackerService.trackingInterval t)
    i.

(** [locationStorage.savePendingLocation]. *)
Definition savePendingLocation (l : RawLocation.t) (w : World.t) : World.t :=
  World.mk (World.service w) (World.pendingLocations w ++ [l])
    (World.trackerConfig w) (World.console w) (World.drawn w).

(** [settingsStorage.saveTrackerConfig]. *)
Definition saveTrackerConfig (c : TrackerConfig.t) (w : World.t) : World.t :=
  World.mk (World.service w) (World.pendingLocations w)
    (Some c) (World.console w) (World.drawn w).

(** [getUpdateInterval]. *)
Definition getUpdateInterval (t : TrackerService.t) : Z :=
  match TrackerService.currentActivity t with
  | stationary => TRACKING_CONFIG.STATIONARY_INTERVAL
  | walking => TRACKING_CONFIG.ACTIVE_INTERVAL
  | driving | flying | train => TRACKING_CONFIG.ACTIVE_INTERVAL
  | cycling => TRACKING_CONFIG.IDLE_INTERVAL
  end.

(** The truth value of a string that may be [null] or [undefined]: the
    empty string is false as well. *)
Definition truthy (s : option string) : bool :=
  match s with
  | None => false
  | Some s' => negb (String.eqb s' "")
  end.

(** The outcome of a method that may throw. *)
Inductive Outcome : Type :=
  | Returned
  | Thrown (message : string).

(** [checkLocationPermission] and [getCurrentLocation]: the native stubs,
    answered by the device. *)
Definition checkLocationPermission (dev : Device.t) : bool :=
  Device.locationPermission dev.

Definition getCurrentLocation (dev : Device.t) : option LocationUpdate.t :=
  Device.currentLocation dev.

(** [captureLocation]. *)
Definition captureLocation (rng : Entropy) (dev : Device.t) (w : World.t) : World.t :=
  match getCurrentLocation dev with
  | None => log "TrackerService: Unable to get location" w
  | Some locationUpdate =>
      let w1 :=
        match TrackerService.lastLocation (World.service w) with
        | Some lastLocation =>
            let speed :=
              calculateSpeed
                (LocationUpdate.location lastLocation)
                (LocationUpdate.location locationUpdate)
                (LocationUpdate.timestamp lastLocation)
                (LocationUpdate.timestamp locationUpdate) in
            with_service (set_currentActivity (inferActivityFromSpeed speed)) w
        | None => w
        end in
      let (id, drawn') := generateUUID rng (World.drawn w1) in
      let rawLocation :=
        {| RawLocation.id := id;
           RawLocation.ownerUid := "local_user";
           RawLocation.tripId := TrackerService.currentTripId (World.service w1);
           RawLocation.location := LocationUpdate.location locationUpdate;
           RawLocation.timestamp := LocationUpdate.timestamp locationUpdate;
           RawLocation.accuracy := Some (LocationUpdate.accuracy locationUpdate);
           RawLocation.altitude := LocationUpdate.altitude locationUpdate;
           RawLocation.speed := LocationUpdate.speed locationUpdate;
           RawLocation.heading := LocationUpdate.heading locationUpdate;
           RawLocation.activity := TrackerService.currentActivity (World.service w1);
           RawLocation.batteryLevel := None;
           RawLocation.isProcessed := false |} in
      let w2 :=
        World.mk (World.service w1) (World.pendingLocations w1)
          (World.trackerConfig w1) (World.console w1) drawn' in
      let w3 := savePendingLocation rawLocation w2 in
      let w4 := with_service (set_lastLocation (Some locationUpdate)) w3 in
      log "TrackerService: Location captured" w4
  end.

(** What is left to run of a call that was made without [await]. *)
Definition Task := World.t -> World.t.

(** [startTrackingLoop]: the timer is set with the interval of the current
    activity, and a first capture is started and not awaited: it runs once
    the caller is through. *)
Definition startTrackingLoop (rng : Entropy) (dev : Device.t) (w : World.t)
    : World.t * Task :=
  let interval := getUpdateInterval (World.service w) in
  let w1 := with_service (set_trackingInterval (Some interval)) w in
  (w1, captureLocation rng dev).

(** The callback of the tracking timer. *)
Definition trackingTick (rng : Entropy) (dev : Device.t) (w : World.t) : World.t :=
  match TrackerService.state (World.service w) with
  | active => captureLocation rng dev w
  | _ => w
  end.

(** [syncPendingLocations]: the pending locations are read and counted;
    nothing is sent and nothing is removed. *)
Definition syncPendingLocations (w : World.t) : World.t :=
  let pending := World.pendingLocations w in
  if (Z.of_nat (List.length pending) =? 0) then w
  else
    let w1 := log "TrackerService: Syncing locations" w in
    log "TrackerService: Locations synced (mock)" w1.

(** [startSyncLoop]: a sync every 5 minutes. *)
Definition startSyncLoop (w : World.t) : World.t :=
  with_service (set_syncInterval (Some 300000)) w.

(** [startTracking]. *)
Definition startTracking (rng : Entropy) (dev : Device.t) (tripId : string)
    (w : World.t) : Outcome * World.t :=
  let w0 := log "TrackerService: Starting tracking for trip" w in
  let hasPermission := checkLocationPermission dev in
  if negb hasPermission then
    (Thrown "Location permission not granted",
     logError "Location permission not granted" "TrackerService.startTracking" w0)
  else
    let w1 := with_service (set_currentTripId (Some tripId)) w0 in
    let w2 := with_service (set_state active) w1 in
    let w3 := with_service (set_currentActivity stationary) w2 in
    let w4 :=
      match TrackerService.config (World.service w3) with
      | Some c =>
          let c' :=
            TrackerConfig.mk true (Some tripId)
              (TrackerConfig.updateInterval c) (TrackerConfig.distanceFilter c)
              (TrackerConfig.stationaryRadius c) (TrackerConfig.stopTimeout c) in
          saveTrackerConfig c' (with_service (set_config (Some c')) w3)
      | None => w3
      end in
    let (w5, firstCapture) := startTrackingLoop rng dev w4 in
    let w6 := startSyncLoop w5 in
    let w7 := log "TrackerService: Tracking started" w6 in
    (Returned, firstCapture w7).

(** [stopTracking], up to its final sync: the state and the trip are
    written first, then both timers are cleared. *)
Definition stopTracking_before_sync (w : World.t) : World.t :=
  let w0 := log "TrackerService: Stopping tracking" w in
  let w1 := with_service (set_state stopped) w0 in
  let w2 := with_service (set_currentTripId None) w1 in
  let w3 := with_service (set_trackingInterval None) w2 in
  with_service (set_syncInterval None) w3.

(** [stopTracking], after its final sync: the configuration is updated. *)
Definition stopTracking_after_sync (w : World.t) : World.t :=
  let w1 :=
    match TrackerService.config (World.service w) with
    | Some c =>
        let c' :=
          TrackerConfig.mk false None
            (TrackerConfig.updateInterval c) (TrackerConfig.distanceFilter c)
            (TrackerConfig.stationaryRadius c) (TrackerConfig.stopTimeout c) in
        saveTrackerConfig c' (with_service (set_config (Some c')) w)
    | None => w
    end in
  log "TrackerService: Tracking stopped" w1.

(** [stopTracking]. *)
Definition stopTracking (w : World.t) : World.t :=
  stopTracking_after_sync (syncPendingLocations (stopTracking_before_sync w)).

(** [pauseTracking]. *)
Definition pauseTracking (w : World.t) : World.t :=
  let w0 := log "TrackerService: Pausing tracking" w in
  let w1 := with_service (set_state paused) w0 in
  with_service (set_trackingInterval None) w1.

(** [resumeTracking]. *)
Definition resumeTracking (rng : Entropy) (dev : Device.t) (w : World.t)
    : Outcome * World.t :=
  if negb (truthy (TrackerService.currentTripId (World.service w))) then
    (Thrown "No active trip to resume", w)
  else
    let w0 := log "TrackerService: Resuming tracking" w in
    let w1 := with_service (set_state active) w0 in
    let (w2, firstCapture) := startTrackingLoop rng dev w1 in
    (Returned, firstCapture w2).

(** [getDefaultConfig]. *)
Definition getDefaultConfig : TrackerConfig.t :=
  TrackerConfig.mk false None TRACKING_CONFIG.ACTIVE_INTERVAL
    TRACKING_CONFIG.MIN_DISPLACEMENT TRACKING_CONFIG.STATIONARY_RADIUS
    TRACKING_CONFIG.MIN_DWELL_TIME.

(** [initialize]: the saved configuration is loaded, or the default one
    is created and saved. *)
Definition initialize (w : World.t) : World.t :=
  let w0 := log "TrackerService: Initializing..." w in
  let w1 :=
    match World.trackerConfig w0 with
    | Some c => with_service (set_config (Some c)) w0
    | None =>
        saveTrackerConfig getDefaultConfig
          (with_service (set_config (Some getDefaultConfig)) w0)
    end in
  let w2 :=
    match TrackerService.config (World.service w1) with
    | Some c =>
        if TrackerConfig.isActive c && truthy (TrackerConfig.currentTripId c)
        then log "TrackerService: Restoring active trip" w1
        else w1
    | None => w1
    end in
  log "TrackerService: Initialized successfully" w2.

(** [getState] and [getCurrentTripId]. *)
Definition getState (w : World.t) : TrackerState :=
  TrackerService.state (World.service w).

Definition getCurrentTripId (w : World.t) : option string :=
  TrackerService.currentTripId (World.service w).

(** The methods a caller may invoke, and the callbacks of the two
    timers, which run only while their timer is set. *)
Inductive Call : Type :=
  | CallInitialize
  | CallStart (tripId : string)
  | CallStop
  | CallPause
  | CallResume
  | CallTick
  | CallSyncTick.

Definition perform (rng : Entropy) (dev : Device.t) (c : Call) (w : World.t) : World.t :=
  match c with
  | CallInitialize => initialize w
  | CallStart tripId => snd (startTracking rng dev tripId w)
  | CallStop => stopTracking w
  | CallPause => pauseTracking w
  | CallResume => snd (resumeTracking rng dev w)
  | CallTick =>
      match TrackerService.trackingInterval (World.service w) with
      | Some _ => trackingTick rng dev w
      | None => w
      end
  | CallSyncTick =>
      match TrackerService.syncInterval (World.service w) with
      | Some _ => syncPendingLocations w
      | None => w
      end
  end.

(** The world before any call. *)
Definition World_initial : World.t :=
  World.mk TrackerService.initial [] None [] 0.

(** The worlds the tracker can be in: those reached from the initial one
    by calls, each made with the device as it is at that time. *)
Inductive reachable (rng : Entropy) : World.t -> Prop :=
  | reachable_initial : reachable rng World_initial
  | reachable_step (dev : Device.t) (c : Call) (w : World.t) :
      reachable rng w -> reachable rng (perform rng dev c w).

(** The interval of each activity, in milliseconds: 30 s when moving,
    10 min when stationary, and the idle 5 min of the [default] branch for
    the one activity the [switch] does not name. *)
Definition interval_of_activity (a : ActivityType) : Z :=
  match a with
  | stationary => 600000
  | walking | driving | train | flying => 30000
  | cycling => 300000
  end.

(** The configuration written by [stopTracking]. *)
Definition deactivated (c : TrackerConfig.t) : TrackerConfig.t :=
  TrackerConfig.mk false None
    (TrackerConfig.updateInterval c) (TrackerConfig.distanceFilter c)
    (TrackerConfig.stationaryRadius c) (TrackerConfig.stopTimeout c).

(* ================================================================== *)
(** * The clustering, as the specification words it *)
(* ================================================================== *)

(** [all_adjacent R l]: every element of [l] is related to the next. *)
Fixpoint all_adjacent (A : Type) (R : A -> A -> Prop) (l : list A) : Prop :=
  match l with
  | x :: (y :: _) as l' => R x y /\ all_adjacent R l'
  | _ => True
  end.

(** A photo joins the cluster that ends with [previous] when it is at most
    an hour later and, if both carry a location, at most 200 metres away. *)
Definition joins (previous photo : PhotoMetadata.t) : Prop :=
  PhotoMetadata.timestamp photo - PhotoMetadata.timestamp previous <= 3600000 /\
  (forall l l' : GeoPoint,
      PhotoMetadata.location photo = Some l ->
      PhotoMetadata.location previous = Some l' ->
      (calculateDistance l l' <= 200)%R).

(** Two clusters in a row: the first photo of the second did not join the
    last photo of the first. *)
Definition split_between (c c' : PhotoCluster.t) : Prop :=
  exists previous photo : PhotoMetadata.t,
    last_opt (PhotoCluster.photos c) = Some previous /\
    hd_error (PhotoCluster.photos c') = Some photo /\
    ~ joins previous photo.

(** The test of the loop, on two photos that follow each other in the
    sorted sequence, and on two groups that follow each other. *)
Definition joined (previous photo : PhotoAnalysis.t) : Prop :=
  belongsToCluster photo previous = true.

Definition separated (g g' : list PhotoAnalysis.t) : Prop :=
  exists previous photo : PhotoAnalysis.t,
    last_opt g = Some previous /\ hd_error g' = Some photo /\
    belongsToCluster photo previous = false.

(** The walk over the sorted photos: the groups closed so far and the
    current group, from a current group [current] that ends with
    [lastPhoto]. *)
Fixpoint chain_walk (current : list PhotoAnalysis.t) (lastPhoto : PhotoAnalysis.t)
    (rest : list PhotoAnalysis.t)
    : list (list PhotoAnalysis.t) * list PhotoAnalysis.t :=
  match rest with
  | [] => ([], current)
  | photo :: rest' =>
      if belongsToCluster photo lastPhoto then
        chain_walk (current ++ [photo]) photo rest'
      else
        let (closed, final) := chain_walk [photo] photo rest' in
        (current :: closed, final)
  end.

(** The groups of a sorted sequence of photos. *)
Definition chain_groups (sorted : list PhotoAnalysis.t) : list (list PhotoAnalysis.t) :=
  match sorted with
  | [] => []
  | first :: rest =>
      let (closed, final) := chain_walk [first] first rest in
      closed ++ [final]
  end.

(** The groups made into clusters, in order. *)
Fixpoint finalizeAll (rng : Entropy) (tripId : string)
    (groups : list (list PhotoAnalysis.t)) (drawn : nat)
    : option (list PhotoCluster.t * nat) :=
  match groups with
  | [] => Some ([], drawn)
  | g :: groups' =>
      match finalizeCluster rng g tripId drawn with
      | None => None
      | Some (c, drawn') =>
          match finalizeAll rng tripId groups' drawn' with
          | None => None
          | Some (cs, drawn'') => Some (c :: cs, drawn'')
          end
      end
  end.

(** The arithmetic mean of a list of reals. *)
Fixpoint Rsum (l : list R) : R :=
  match l with
  | [] => 0%R
  | x :: l' => (x + Rsum l')%R
  end.

Definition arithmetic_mean (l : list R) : R := (Rsum l / INR (List.length l))%R.

(** The locations carried by the photos of a cluster. *)
Fixpoint locations (photos : list PhotoMetadata.t) : list GeoPoint :=
  match photos with
  | [] => []
  | p :: photos' =>
      match PhotoMetadata.location p with
      | Some l => l :: locations photos'
      | None => locations photos'
      end
  end.

(** The centre of a cluster, as the specification words it. *)
Definition mean_location (photos : list PhotoMetadata.t) : GeoPoint :=
  match locations photos with
  | [] => {| latitude := 0; longitude := 0 |}
  | located =>
      {| latitude := arithmetic_mean (map latitude located);
         longitude := arithmetic_mean (map longitude located) |}
  end.

(** The invariant of a cluster. *)
Definition cluster_invariant (c : PhotoCluster.t) : Prop :=
  option_map PhotoMetadata.timestamp (hd_error (PhotoCluster.photos c))
    = Some (PhotoCluster.startTime c) /\
  option_map PhotoMetadata.timestamp (last_opt (PhotoCluster.photos c))
    = Some (PhotoCluster.endTime c) /\
  PhotoCluster.centerLocation c = mean_location (PhotoCluster.photos c).

(** A cluster made of a group: it holds the photos of the group, in order,
    and satisfies the invariant. *)
Definition made_of (g : list PhotoAnalysis.t) (c : PhotoCluster.t) : Prop :=
  PhotoCluster.photos c = map toMetadata g /\ cluster_invariant c.

(** The comparator of [clusterPhotos]. *)
Definition byTimestamp (a b : PhotoAnalysis.t) : Z :=
  PhotoAnalysis.timestamp a - PhotoAnalysis.timestamp b.

(* ================================================================== *)
(** * [calculateDistance] in binary64 *)
(* ================================================================== *)

(** The numbers are the binary64 floating-point numbers of the language,
    with their [+], [-], [*], [/] and [Math.sqrt]. The results of
    [Math.sin], [Math.cos] and [Math.atan2] are left to the implementation
    by ECMAScript: they are those of a host. *)
Module Binary64.
Import Floats.
Local Open Scope float_scope.

Record Host : Type := mkHost {
  Math_sin : float -> float;
  Math_cos : float -> float;
  Math_atan2 : float -> float -> float
}.

(** [Math.PI]: 3.141592653589793. *)
Definition Math_PI : float := 0x1.921fb54442d18p+1.

Definition isNaN (x : float) : bool := negb (x =? x).

(** [Math.max] and [Math.min] of two numbers: [NaN] if one of them is,
    and [+0] above [-0]. *)
Definition Math_max (x y : float) : float :=
  if isNaN x || isNaN y then nan
  else if x <? y then y
  else if y <? x then x
  else if get_sign x then y else x.

Definition Math_min (x y : float) : float :=
  if isNaN x || isNaN y then nan
  else if x <? y then x
  else if y <? x then y
  else if get_sign x then x else y.

(** [clamp], of [utils/helpers.ts]. *)
Definition clamp (value min max : float) : float :=
  Math_min (Math_max value min) max.

Record GeoPoint : Type := mkGeoPoint {
  latitude : float;
  longitude : float
}.

(** [isValidCoordinate]. *)
Definition isValidCoordinate (point : GeoPoint) : bool :=
  (-90 <=? latitude point) && (latitude point <=? 90) &&
  (-180 <=? longitude point) && (longitude point <=? 180).

(** The term [a] of [calculateDistance], on its own. *)
Definition haversine (M : Host) (point1 point2 : GeoPoint) : float :=
  let phi1 := (latitude point1 * Math_PI) / 180 in
  let phi2 := (latitude point2 * Math_PI) / 180 in
  let dphi := ((latitude point2 - latitude point1) * Math_PI) / 180 in
  let dlambda := ((longitude point2 - longitude point1) * Math_PI) / 180 in
  Math_sin M (dphi / 2) * Math_sin M (dphi / 2) +
  Math_cos M phi1 * Math_cos M phi2
  * Math_sin M (dlambda / 2) * Math_sin M (dlambda / 2).

(** [calculateDistance]. *)
Definition calculateDistance (M : Host) (point1 point2 : GeoPoint) : float :=
  let R_earth := 6371e3 in
  let phi1 := (latitude point1 * Math_PI) / 180 in
  let phi2 := (latitude point2 * Math_PI) / 180 in
  let dphi := ((latitude point2 - latitude point1) * Math_PI) / 180 in
  let dlambda := ((longitude point2 - longitude point1) * Math_PI) / 180 in
  let a :=
    Math_sin M (dphi / 2) * Math_sin M (dphi / 2) +
    Math_cos M phi1 * Math_cos M phi2
    * Math_sin M (dlambda / 2) * Math_sin M (dlambda / 2) in
  let c := 2 * Math_atan2 M (sqrt a) (sqrt (1 - a)) in
  R_earth * c.

(** [date.getTime()]: the time value of a date, a whole number of
    milliseconds, as the binary64 number that it is. *)
Definition getTime (date : Date) : float :=
  match date with
  | Z0 => 0
  | Zpos _ => of_uint63 (Uint63.of_Z date)
  | Zneg _ => - of_uint63 (Uint63.of_Z (Z.opp date))
  end.

(** [calculateSpeed]. *)
Definition calculateSpeed (M : Host) (point1 point2 : GeoPoint)
    (time1 time2 : Date) : float :=
  let distance := calculateDistance M point1 point2 in
  let timeDiff := (getTime time2 - getTime time1) / 1000 in
  if 0 <? timeDiff then distance / timeDiff else 0.

(** The distance as the specification words it: the term [a] is clamped
    to [0, 1] before the square roots are taken. *)
Definition distanceMeters_clamped (M : Host) (point1 point2 : GeoPoint) : float :=
  let R_earth := 6371e3 in
  let a := clamp (haversine M point1 point2) 0 1 in
  let c := 2 * Math_atan2 M (sqrt a) (sqrt (1 - a)) in
  R_earth * c.

(** Two antipodal points: 8 N 0 E, and 8 S 180 E. *)
Definition north : GeoPoint := mkGeoPoint 8 0.
Definition south : GeoPoint := mkGeoPoint (-8) 180.

(** A host, by a table: at the arguments that occur for these two points
    it answers the binary64 numbers nearest to the sine and to the cosine,
    sin(-0.13962634015954636) = -0.13917310096006544,
    cos(0.13962634015954636) = 0.9902680687415704 and
    sin(1.5707963267948966) = 1; its [Math.atan2] answers [NaN] on a
    [NaN], as ECMAScript requires, and is not consulted otherwise. *)
Definition table : Host :=
  mkHost
    (fun x =>
       if x =? -0x1.1df46a2529d39p-3 then -0x1.1d06c968d9e19p-3
       else if x =? 0x1.921fb54442d18p+0 then 1
       else nan)
    (fun x =>
       if abs x =? 0x1.1df46a2529d39p-3 then 0x1.fb046a930947ap-1 else nan)
    (fun y x => if isNaN x || isNaN y then nan else 0).

(** The real number that a finite binary64 number stands for. *)
Definition toR (x : float) : R :=
  match Prim2SF x with
  | S754_finite s m e =>
      ((if s then -1 else 1) * IZR (Z.pos m) * powerRZ 2 e)%R
  | _ => 0%R
  end.

(** Factorials in [Z], for the partial sums of the series of the sine and
    of the cosine. *)
Fixpoint factZ (n : nat) : Z :=
  match n with
  | O => 1
  | S m => Z.of_nat (S m) * factZ m
  end.
End Binary64.

(* ================================================================== *)
(** * Sample inputs *)
(* ================================================================== *)

Module Sample.
Local Open Scope string_scope.

(** A random source: the identifiers "0", "1", ... *)
Definition rng : Entropy :=
  fun n => String (Ascii.ascii_of_nat (48 + n)) EmptyString.

Definition trip : Trip.t :=
  Trip.mk "trip-1" "local_user" "Lisbon" 0 None trip_active None None None 0 0.

(** A good photo taken [minutes] after the start of the trip. *)
Definition photo (nativeId : string) (minutes : Z) (location : option GeoPoint)
    : PhotoAnalysis.t :=
  PhotoAnalysis.mk nativeId false (1 / 10) (85 / 100) (minutes * 60000)
    location 1920 1080.

(** Four photos without location, out of order: minutes 200, 30, 0, 65. *)
Definition album : list PhotoAnalysis.t :=
  [photo "d" 200 None; photo "b" 30 None; photo "a" 0 None; photo "c" 65 None].

(** Two points of the equator, about 500 m apart, and a third about
    44 m from the first. *)
Definition here : GeoPoint := mkGeoPoint 0 0.
Definition there : GeoPoint := mkGeoPoint 0 (45 / 10000).
Definition nearby : GeoPoint := mkGeoPoint 0 (4 / 10000).

(** Two photos ten minutes and about 500 m apart. *)
Definition located_album : list PhotoAnalysis.t :=
  [photo "x" 0 (Some here); photo "y" 10 (Some there)].

(** Two photos one minute and about 44 m apart. *)
Definition near_album : list PhotoAnalysis.t :=
  [photo "x" 0 (Some here); photo "z" 1 (Some nearby)].

(** Two fixes 30 s apart, and the devices that report them, with a
    battery at 10 %. *)
Definition fix0 : LocationUpdate.t := LocationUpdate.mk here 5 None None None 0.
Definition fix1 : LocationUpdate.t := LocationUpdate.mk nearby 5 None None None 30000.
Definition device0 : Device.t := Device.mk true (Some fix0) (1 / 10).
Definition device1 : Device.t := Device.mk true (Some fix1) (1 / 10).

(** A device that denies the location permission. *)
Definition denied : Device.t := Device.mk false None 1.

(** The tracker started on [device0], and after one tick on [device1]. *)
Definition started : World.t :=
  perform rng device0 (CallStart "trip-1") World_initial.
Definition walking_world : World.t := perform rng device1 CallTick started.

(** A third fix, 30 s and about 44 m further, and its device; the tracker
    paused, and resumed on that device. Every call was made on a device
    with a battery at 10 %. *)
Definition farther : GeoPoint := mkGeoPoint 0 (8 / 10000).
Definition fix2 : LocationUpdate.t := LocationUpdate.mk farther 5 None None None 60000.
Definition device2 : Device.t := Device.mk true (Some fix2) (1 / 10).
Definition resumed_world : World.t :=
  perform rng device2 CallResume (perform rng device1 CallPause walking_world).

(** The two locations pending in [walking_world]. *)
Definition raw0 : RawLocation.t :=
  RawLocation.mk "0" "local_user" (Some "trip-1") here 0 (Some 5%R)
    None None None stationary None false.
Definition raw1 : RawLocation.t :=
  RawLocation.mk "1" "local_user" (Some "trip-1") nearby 30000 (Some 5%R)
    None None None walking None false.

(** An operation that fails three times, with the errors 0, 1 and 2, and
    then succeeds. *)
Definition flaky3 : nat -> string + nat :=
  fails_then_succeeds 3 (fun n => n) "done".
Definition flaky2 : nat -> string + nat :=
  fails_then_succeeds 2 (fun n => n) "done".

(** An operation that fails at every call, with the errors 0, 1, ... *)
Definition broken : nat -> string + nat := always_fails string (fun n => n).
End Sample.

(* ================================================================== *)
(** * More of [utils/helpers.ts] *)
(* ================================================================== *)

(** ** Date and time *)

Module Duration.
Record t : Type := mk {
  days : Z;
  hours : Z;
  minutes : Z
}.
End Duration.

(** [calculateDuration]. The difference of two dates is an integral
    number of milliseconds; [Math.floor] of its quotient by a positive
    integer is the quotient rounded down, and [%] is the remainder that
    has the sign of the dividend. *)
Definition calculateDuration (start end' : Date) : Duration.t :=
  let diff := end' - start in
  let days := diff / (1000 * 60 * 60 * 24) in
  let hours := Z.rem diff (1000 * 60 * 60 * 24) / (1000 * 60 * 60) in
  let minutes := Z.rem diff (1000 * 60 * 60) / (1000 * 60) in
  Duration.mk days hours minutes.

(** ** Numbers *)

(** [percentage]. *)
Definition percentage (value total : R) : R :=
  if Req_dec_T total 0 then 0%R else (value / total * 100)%R.

(** [Math.floor]. *)
Definition Math_floor (x : R) : Z := Int_part x.

(** ** Strings *)

(** [truncate]. [str.substring(0, n)] is the first [n] characters: none
    for a negative [n], the whole string for an [n] beyond its end. *)
Definition truncate (str : string) (maxLength : Z) : string :=
  if Z.of_nat (String.length str) <=? maxLength then str
  else (substring 0 (Z.to_nat (maxLength - 3)) str ++ "...")%string.

(** ** Arrays *)

Section Arrays.
Variable T : Type.

(** [array[i] = x], for an index [i] of the array. *)
Fixpoint Array_set (i : nat) (x : T) (array : list T) : list T :=
  match array, i with
  | [], _ => []
  | _ :: array', O => x :: array'
  | y :: array', S i' => y :: Array_set i' x array'
  end.

(** [[array[i], array[j]] = [array[j], array[i]]]: both elements are
    read, then [array[i]] and [array[j]] are written, in this order.
    [None]: an index outside the array, where JavaScript would read
    [undefined]. *)
Definition swap (i j : nat) (array : list T) : option (list T) :=
  match nth_error array i, nth_error array j with
  | Some x, Some y => Some (Array_set j x (Array_set i y array))
  | _, _ => None
  end.

(** The loop of [shuffle], from index [i] down to 1. [random k] is the
    answer of the call number [k] of [Math.random]. *)
Fixpoint shuffle_loop (random : nat -> R) (i : nat) (shuffled : list T)
    (drawn : nat) : option (list T * nat) :=
  match i with
  | O => Some (shuffled, drawn)
  | S i' =>
      let j := Math_floor (random drawn * IZR (Z.of_nat i + 1)) in
      if j <? 0 then None
      else
        match swap i (Z.to_nat j) shuffled with
        | Some shuffled' => shuffle_loop random i' shuffled' (S drawn)
        | None => None
        end
  end.

(** [shuffle]: a copy of the array, shuffled, and the number of calls of
    [Math.random] made so far. *)
Definition shuffle (random : nat -> R) (array : list T) (drawn : nat)
    : option (list T * nat) :=
  shuffle_loop random (List.length array - 1) array drawn.

(** Equality of two elements as a [Set] sees it. *)
Variable same : forall x y : T, {x = y} + {x <> y}.

(** [new Set(array)] added to [set]: the elements in the order in which
    they were first added. *)
Fixpoint Set_of (set : list T) (array : list T) : list T :=
  match array with
  | [] => set
  | x :: array' => Set_of (if in_dec same x set then set else set ++ [x]) array'
  end.

(** [unique]: [Array.from(new Set(array))]. *)
Definition unique (array : list T) : list T := Set_of [] array.
End Arrays.

(** The names that every object inherits from [Object.prototype]; each
    of them names a function, or the prototype itself. *)
Definition Object_prototype_names : list string :=
  ["constructor"; "__defineGetter__"; "__defineSetter__"; "hasOwnProperty";
   "__lookupGetter__"; "__lookupSetter__"; "isPrototypeOf";
   "propertyIsEnumerable"; "toString"; "valueOf"; "__proto__";
   "toLocaleString"]%string.

(** Is [key] one of these names? *)
Definition inherited (key : string) : bool :=
  existsb (String.eqb key) Object_prototype_names.

Section GroupBy.
Variable T : Type.
Variable keyFn : T -> string.

(** A [Record<string, T[]>] that started as [{}]: its own properties,
    in the order of their creation. *)
Definition Groups := list (string * list T).

(** [result[key]], among the own properties. *)
Fixpoint own_property (key : string) (result : Groups) : option (list T) :=
  match result with
  | [] => None
  | (k, items) :: result' =>
      if String.eqb k key then Some items else own_property key result'
  end.

(** [result[key].push(item)], for an own property [key]. *)
Fixpoint push_to (key : string) (item : T) (result : Groups) : Groups :=
  match result with
  | [] => []
  | (k, items) :: result' =>
      if String.eqb k key then (k, items ++ [item]) :: result'
      else (k, items) :: push_to key item result'
  end.

(** The [reduce] of [groupBy]. When [key] is no own property of
    [result], [result[key]] is what the object inherits: a function or
    an object for one of the inherited names, which is truthy, is not
    replaced by [[]], and has no [push], a [TypeError] ([None]); and
    [undefined] for any other name. *)
Fixpoint groupBy_reduce (array : list T) (result : Groups) : option Groups :=
  match array with
  | [] => Some result
  | item :: array' =>
      let key := keyFn item in
      match own_property key result with
      | Some _ => groupBy_reduce array' (push_to key item result)
      | None =>
          if inherited key then None
          else groupBy_reduce array' (result ++ [(key, [item])])
      end
  end.

(** [groupBy]. *)
Definition groupBy (array : list T) : option Groups := groupBy_reduce array [].
End GroupBy.

(** The ways of moving that [inferActivityFromSpeed] tells apart, from
    the slowest to the fastest. *)
Definition activity_rank (a : ActivityType) : nat :=
  match a with
  | stationary => 0
  | walking => 1
  | driving => 2
  | train => 3
  | flying => 4
  | cycling => 5
  end.

(** ** Identifiers *)

(** [generateUUID], character by character. (Where an identifier is
    only carried around, it is drawn whole from an [Entropy], above.) *)
Module UUID.
Import Ascii.
Local Open Scope string_scope.

(** [x | 0]: the number cut to an integer, towards 0, and wrapped to 32
    bits. *)
Definition Math_trunc (x : R) : Z :=
  if Rleb 0 x then Int_part x else - Int_part (- x).

Definition ToInt32 (x : R) : Z := (Math_trunc x + 2 ^ 31) mod 2 ^ 32 - 2 ^ 31.

(** [v.toString(16)], of an integer. *)
Definition toString16 (v : Z) : string :=
  HexadecimalString.NilZero.string_of_int (Z.to_hex_int v).

Definition template : string := "xxxxxxxx-xxxx-4xxx-yxxx-xxxxxxxxxxxx".

(** The function that replaces a character [c], with [random] for the
    answer of its call of [Math.random]. *)
Definition replacement (random : R) (c : Ascii.ascii) : string :=
  let r := ToInt32 (random * 16) in
  let v := if Ascii.eqb c "x"%char then r else Z.lor (Z.land r 3) 8 in
  toString16 v.

(** [text.replace(/[xy]/g, ...)]: each [x] and [y] is replaced, from left
    to right; [random k] is the answer of the call number [k] of
    [Math.random]. *)
Fixpoint replace_xy (random : nat -> R) (text : string) (drawn : nat)
    : string * nat :=
  match text with
  | EmptyString => (EmptyString, drawn)
  | String c text' =>
      if Ascii.eqb c "x"%char || Ascii.eqb c "y"%char then
        let (rest, drawn') := replace_xy random text' (S drawn) in
        (replacement (random drawn) c ++ rest, drawn')
      else
        let (rest, drawn') := replace_xy random text' drawn in
        (String c rest, drawn')
  end.

(** [generateUUID]: the identifier, and the number of calls of
    [Math.random] made so far. *)
Definition generateUUID (random : nat -> R) (drawn : nat) : string * nat :=
  replace_xy random template drawn.

(** A hexadecimal digit, in lower case. *)
Definition hex_digit (c : Ascii.ascii) : bool :=
  existsb (Ascii.eqb c)
    ["0"; "1"; "2"; "3"; "4"; "5"; "6"; "7"; "8"; "9";
     "a"; "b"; "c"; "d"; "e"; "f"]%char.

(** A character [c] in the place of the character [t] of the template:
    a hexadecimal digit for an [x], one of 8, 9, a, b for the [y], and
    the character itself otherwise. *)
Definition fits (t c : Ascii.ascii) : bool :=
  if Ascii.eqb t "x"%char then hex_digit c
  else if Ascii.eqb t "y"%char then existsb (Ascii.eqb c) ["8"; "9"; "a"; "b"]%char
  else Ascii.eqb t c.

Fixpoint fits_template (text s : string) : bool :=
  match text, s with
  | EmptyString, EmptyString => true
  | String t text', String c s' => fits t c && fits_template text' s'
  | _, _ => false
  end.
End UUID.

(* ================================================================== *)
(** * Dates and trips, as values *)
(* ================================================================== *)

(** What is kept in the local storage is a JSON text. [JSON.stringify] writes
    a [Date] as a text, and [JSON.parse] gives that text back as a
    string, not as a [Date]: a date read from the storage has no
    [getTime]. So a date, as a value, is here a [Date] object or such a
    text, each with its time value. *)
Inductive DateValue : Type :=
  | DateObject (time : Z)
  | DateText (time : Z).

(** [d.getTime()]: a [TypeError] ([None]) on a text. *)
Definition getTime (d : DateValue) : option Z :=
  match d with
  | DateObject time => Some time
  | DateText _ => None
  end.

(** [JSON.parse(JSON.stringify(d))]. *)
Definition DateValue_revived (d : DateValue) : DateValue :=
  match d with
  | DateObject time | DateText time => DateText time
  end.

(** A [Trip], as a value. *)
Module TripValue.
Record t : Type := mk {
  id : string;
  ownerUid : string;
  name : string;
  startDate : DateValue;
  endDate : option DateValue;
  status : TripStatus;
  coverPhotoUrl : option string;
  countries : option (list string);
  totalSteps : option Z;
  createdAt : DateValue;
  updatedAt : DateValue
}.
End TripValue.

(** [JSON.parse(JSON.stringify(trip))]: the same trip, its dates as
    texts. *)
Definition Trip_revived (trip : TripValue.t) : TripValue.t :=
  TripValue.mk (TripValue.id trip) (TripValue.ownerUid trip) (TripValue.name trip)
    (DateValue_revived (TripValue.startDate trip))
    (option_map DateValue_revived (TripValue.endDate trip))
    (TripValue.status trip) (TripValue.coverPhotoUrl trip)
    (TripValue.countries trip) (TripValue.totalSteps trip)
    (DateValue_revived (TripValue.createdAt trip))
    (DateValue_revived (TripValue.updatedAt trip)).

(** [d.toISOString()]: a [TypeError] ([None]) on a text, which has no
    such method. The text made of a [Date] is only logged: it is here by
    the time value it is made of. *)
Definition toISOString (d : DateValue) : option Date :=
  match d with
  | DateObject time => Some time
  | DateText _ => None
  end.

(** The time value a date was made of. *)
Definition time_of (d : DateValue) : Date :=
  match d with
  | DateObject time | DateText time => time
  end.

(** The trip as [clusterPhotos] takes it; of the trip it reads the [id]
    only. *)
Definition Trip_of_value (trip : TripValue.t) : Trip.t :=
  Trip.mk (TripValue.id trip) (TripValue.ownerUid trip) (TripValue.name trip)
    (time_of (TripValue.startDate trip))
    (option_map time_of (TripValue.endDate trip))
    (TripValue.status trip) (TripValue.coverPhotoUrl trip)
    (TripValue.countries trip) (TripValue.totalSteps trip)
    (time_of (TripValue.createdAt trip)) (time_of (TripValue.updatedAt trip)).

(* ================================================================== *)
(** * More of [services/CurationService.ts] *)
(* ================================================================== *)

(** [Array.prototype.sort] with a comparator whose result is a number of
    any kind: a stable sort; [x] goes before [y] when [compare x y <= 0]. *)
Section ArraySortBy.
Variable A : Type.
Variable compare : A -> A -> R.

Fixpoint sort_insert_by (x : A) (l : list A) : list A :=
  match l with
  | [] => [x]
  | y :: l' =>
      if Rleb (compare x y) 0 then x :: y :: l' else y :: sort_insert_by x l'
  end.

Fixpoint Array_sort_by (l : list A) : list A :=
  match l with
  | [] => []
  | x :: l' => sort_insert_by x (Array_sort_by l')
  end.
End ArraySortBy.

(** [array.slice(start, end)]: a negative index counts from the end of
    the array, and both are kept within the array. *)
Definition Array_slice (A : Type) (start finish : Z) (array : list A) : list A :=
  let len := Z.of_nat (List.length array) in
  let k := if start <? 0 then Z.max (len + start) 0 else Z.min start len in
  let final := if finish <? 0 then Z.max (len + finish) 0 else Z.min finish len in
  firstn (Z.to_nat (final - k)) (skipn (Z.to_nat k) array).

(** [selectFeaturedPhotos]; [count] is 3 when it is not given. *)
Definition selectFeaturedPhotos (photos : list PhotoMetadata.t) (count : Z)
    : list PhotoMetadata.t :=
  let sorted :=
    Array_sort_by
      (fun a b => (PhotoMetadata.qualityScore b - PhotoMetadata.qualityScore a)%R)
      photos in
  Array_slice 0 count sorted.

Module CurationResult.
Record t : Type := mk {
  photosProcessed : Z;
  photosAdded : Z;
  photosFiltered : Z;
  clustersCreated : Z
}.
End CurationResult.

(** The fields of the [CurationService] object. *)
Module CurationService.
Record t : Type := mk {
  isRunning : bool;
  lastScanTimestamp : option Date
}.

(** The object as constructed. *)
Definition initial : t := mk false None.
End CurationService.

(** The photo library and the models of the device, which the stubs
    [getNewPhotosSince] and [analyzePhoto] stand for, and its clock. *)
Module Library.
Record t : Type := mk {
  newPhotosSince : Date -> list string;
  analysis : string -> PhotoAnalysis.t;
  now : Date
}.

(** The stubs as written: no new photo, and the same analysis for every
    photo. *)
Definition mock (now : Date) : t :=
  mk (fun _ => [])
     (fun photoNativeId =>
        PhotoAnalysis.mk photoNativeId false (1 / 10) (85 / 100) now None
          1920 1080)
     now.
End Library.

(** What the curation works on: its own fields, the console, and the
    random source. *)
Module Studio.
Record t : Type := mk {
  service : CurationService.t;
  console : list LogLine;
  drawn : nat
}.

Definition initial : t := mk CurationService.initial [] 0.

Definition log (message : string) (w : t) : t :=
  mk (service w) (console w ++ [Info message]) (drawn w).

Definition logError (message context : string) (w : t) : t :=
  mk (service w) (console w ++ [Failure message context]) (drawn w).

Definition set_isRunning (b : bool) (w : t) : t :=
  mk (CurationService.mk b (CurationService.lastScanTimestamp (service w)))
     (console w) (drawn w).

Definition set_lastScanTimestamp (d : option Date) (w : t) : t :=
  mk (CurationService.mk (CurationService.isRunning (service w)) d)
     (console w) (drawn w).

Definition set_drawn (n : nat) (w : t) : t := mk (service w) (console w) n.
End Studio.

(** The filter of [curateTripPhotos]: not junk, and of a quality of at
    least [MIN_QUALITY_SCORE]. *)
Definition isGood (p : PhotoAnalysis.t) : bool :=
  negb (PhotoAnalysis.isJunk p)
  && Rleb CURATION_CONFIG.MIN_QUALITY_SCORE (PhotoAnalysis.qualityScore p).

(** [curateTripPhotos]: the result returned ([inl]) or the message of
    the error thrown ([inr]). The check of [isRunning] comes before the
    [try]: its error is neither logged as an error nor followed by the
    [finally] that resets [isRunning]. [getNewPhotosSince] logs
    [since.toISOString()], which throws for a start date that is a text,
    as the start date of a trip read back from the storage is. *)
Definition curateTripPhotos (rng : Entropy) (lib : Library.t) (trip : TripValue.t)
    (w : Studio.t) : (CurationResult.t + string) * Studio.t :=
  if CurationService.isRunning (Studio.service w) then
    (inr "Curation already in progress"%string,
     Studio.log "CurationService: Already running" w)
  else
    let w1 := Studio.set_isRunning true w in
    let w2 := Studio.log "CurationService: Starting curation for trip" w1 in
    match toISOString (TripValue.startDate trip) with
    | None =>
        let w3 := Studio.logError "TypeError" "CurationService.curateTripPhotos" w2 in
        (inr "TypeError"%string, Studio.set_isRunning false w3)
    | Some since =>
        let w3 := Studio.log "CurationService: Fetching photos since" w2 in
        let newPhotos := Library.newPhotosSince lib since in
        let photosProcessed := Z.of_nat (List.length newPhotos) in
        if photosProcessed =? 0 then
          let w4 := Studio.log "CurationService: No new photos found" w3 in
          (inl (CurationResult.mk photosProcessed 0 0 0),
           Studio.set_isRunning false w4)
        else
          let w4 :=
            fold_left
              (fun w' _ => Studio.log "CurationService: Analyzing photo" w')
              newPhotos w3 in
          let analyzedPhotos := map (Library.analysis lib) newPhotos in
          let goodPhotos := filter isGood analyzedPhotos in
          let photosFiltered :=
            Z.of_nat (List.length analyzedPhotos)
            - Z.of_nat (List.length goodPhotos) in
          let photosAdded := Z.of_nat (List.length goodPhotos) in
          match clusterPhotos rng goodPhotos (Trip_of_value trip) (Studio.drawn w4) with
          | Some (clusters, drawn') =>
              let clustersCreated := Z.of_nat (List.length clusters) in
              let w5 := Studio.set_drawn drawn' w4 in
              let w6 := Studio.set_lastScanTimestamp (Some (Library.now lib)) w5 in
              let w7 := Studio.log "CurationService: Curation complete" w6 in
              (inl (CurationResult.mk photosProcessed photosAdded photosFiltered
                      clustersCreated),
               Studio.set_isRunning false w7)
          | None =>
              let w5 :=
                Studio.logError "TypeError" "CurationService.curateTripPhotos" w4 in
              (inr "TypeError"%string, Studio.set_isRunning false w5)
          end
    end.

(** A library of three new photos, of which the second is junk, and two
    trips: one as [createTrip] makes it, with dates that are [Date]
    objects, and the same trip as read back from the storage. *)
Module Roll.
Definition library : Library.t :=
  Library.mk
    (fun _ => ["a"; "b"; "c"]%string)
    (fun photoNativeId =>
       PhotoAnalysis.mk photoNativeId (String.eqb photoNativeId "b") (1 / 10)
         (85 / 100) 60000 None 1920 1080)
    120000.

Definition trip : TripValue.t :=
  TripValue.mk "trip-1" "local_user" "Lisbon" (DateObject 0) None trip_active
    None (Some []) (Some 0) (DateObject 0) (DateObject 0).

Definition stored : TripValue.t := Trip_revived trip.
End Roll.

(* ================================================================== *)
(** * The tracker, between calls *)
(* ================================================================== *)

(** What holds of the fields of the tracker between two calls. *)
Definition tracker_invariant (t : TrackerService.t) : Prop :=
  (TrackerService.state t = stopped ->
     TrackerService.currentTripId t = None /\
     TrackerService.trackingInterval t = None /\
     TrackerService.syncInterval t = None) /\
  (TrackerService.state t = active ->
     TrackerService.currentTripId t <> None /\
     TrackerService.trackingInterval t <> None) /\
  (TrackerService.state t = paused -> TrackerService.trackingInterval t = None) /\
  (TrackerService.currentTripId t <> None ->
     TrackerService.syncInterval t = Some 300000) /\
  TrackerService.currentActivity t <> cycling /\
  (forall period, TrackerService.trackingInterval t = Some period ->
     period = 30000 \/ period = 600000).

(** What holds of a location saved by the tracker. *)
Definition captured (l : RawLocation.t) : Prop :=
  RawLocation.tripId l <> None /\
  RawLocation.ownerUid l = "local_user"%string /\
  RawLocation.isProcessed l = false /\
  RawLocation.batteryLevel l = None /\
  RawLocation.activity l <> cycling.

(** [captureLocation], from its [await] of [getCurrentLocation] on:
    what it does with the answer, on the tracker as it is by then. *)
Definition captureLocation_resumed (rng : Entropy)
    (answer : option LocationUpdate.t) (w : World.t) : World.t :=
  match answer with
  | None => log "TrackerService: Unable to get location" w
  | Some locationUpdate =>
      let w1 :=
        match TrackerService.lastLocation (World.service w) with
        | Some lastLocation =>
            let speed :=
              calculateSpeed
                (LocationUpdate.location lastLocation)
                (LocationUpdate.location locationUpdate)
                (LocationUpdate.timestamp lastLocation)
                (LocationUpdate.timestamp locationUpdate) in
            with_service (set_currentActivity (inferActivityFromSpeed speed)) w
        | None => w
        end in
      let (id, drawn') := generateUUID rng (World.drawn w1) in
      let rawLocation :=
        {| RawLocation.id := id;
           RawLocation.ownerUid := "local_user";
           RawLocation.tripId := TrackerService.currentTripId (World.service w1);
           RawLocation.location := LocationUpdate.location locationUpdate;
           RawLocation.timestamp := LocationUpdate.timestamp locationUpdate;
           RawLocation.accuracy := Some (LocationUpdate.accuracy locationUpdate);
           RawLocation.altitude := LocationUpdate.altitude locationUpdate;
           RawLocation.speed := LocationUpdate.speed locationUpdate;
           RawLocation.heading := LocationUpdate.heading locationUpdate;
           RawLocation.activity := TrackerService.currentActivity (World.service w1);
           RawLocation.batteryLevel := None;
           RawLocation.isProcessed := false |} in
      let w2 :=
        World.mk (World.service w1) (World.pendingLocations w1)
          (World.trackerConfig w1) (World.console w1) drawn' in
      let w3 := savePendingLocation rawLocation w2 in
      let w4 := with_service (set_lastLocation (Some locationUpdate)) w3 in
      log "TrackerService: Location captured" w4
  end.

(** [startTracking] with the permission granted, in two parts: up to
    its [await] of [saveTrackerConfig], with the fields written and the
    configuration handed to the storage, and from there on. (Without a
    configuration there is no such [await].) *)
Definition startTracking_until_save (tripId : string) (w : World.t) : World.t :=
  let w0 := log "TrackerService: Starting tracking for trip" w in
  let w1 := with_service (set_currentTripId (Some tripId)) w0 in
  let w2 := with_service (set_state active) w1 in
  let w3 := with_service (set_currentActivity stationary) w2 in
  match TrackerService.config (World.service w3) with
  | Some c =>
      let c' :=
        TrackerConfig.mk true (Some tripId)
          (TrackerConfig.updateInterval c) (TrackerConfig.distanceFilter c)
          (TrackerConfig.stationaryRadius c) (TrackerConfig.stopTimeout c) in
      saveTrackerConfig c' (with_service (set_config (Some c')) w3)
  | None => w3
  end.

Definition startTracking_after_save (rng : Entropy) (dev : Device.t) (w : World.t)
    : World.t :=
  let (w5, firstCapture) := startTrackingLoop rng dev w in
  let w6 := startSyncLoop w5 in
  let w7 := log "TrackerService: Tracking started" w6 in
  firstCapture w7.


(* ================================================================== *)
(** * Local storage ([utils/storage.ts]) *)
(* ================================================================== *)

(** The two keys of [tripStorage]: what [storage.get] gives for each,
    [None] when the key is not set. *)
Module TripStore.
Record t : Type := mk {
  trips : option (list TripValue.t);
  activeTripId : option string
}.

Definition empty : t := mk None None.
End TripStore.

(** [array.findIndex(p)]: [-1] when no element satisfies [p]. *)
Fixpoint Array_findIndex (A : Type) (p : A -> bool) (array : list A) : Z :=
  match array with
  | [] => -1
  | x :: array' =>
      if p x then 0
      else
        let index := Array_findIndex p array' in
        if index <? 0 then -1 else index + 1
  end.

Module tripStorage.
(** [getAllTrips]. *)
Definition getAllTrips (s : TripStore.t) : list TripValue.t :=
  match TripStore.trips s with
  | Some trips => trips
  | None => []
  end.

(** [saveTrip]. *)
Definition saveTrip (trip : TripValue.t) (s : TripStore.t) : TripStore.t :=
  let trips := getAllTrips s in
  let index :=
    Array_findIndex (fun t => String.eqb (TripValue.id t) (TripValue.id trip)) trips in
  let trips' :=
    if 0 <=? index then Array_set (Z.to_nat index) trip trips
    else trips ++ [trip] in
  TripStore.mk (Some (map Trip_revived trips')) (TripStore.activeTripId s).

(** [getTrip]. *)
Definition getTrip (tripId : string) (s : TripStore.t) : option TripValue.t :=
  find (fun t => String.eqb (TripValue.id t) tripId) (getAllTrips s).

(** [deleteTrip]. *)
Definition deleteTrip (tripId : string) (s : TripStore.t) : TripStore.t :=
  let trips := getAllTrips s in
  let filtered :=
    filter (fun t => negb (String.eqb (TripValue.id t) tripId)) trips in
  TripStore.mk (Some (map Trip_revived filtered)) (TripStore.activeTripId s).

(** [getActiveTripId]. *)
Definition getActiveTripId (s : TripStore.t) : option string :=
  TripStore.activeTripId s.

(** [setActiveTripId]: the key is removed for [null], and for the empty
    string, which is falsy too. *)
Definition setActiveTripId (tripId : option string) (s : TripStore.t) : TripStore.t :=
  if truthy tripId then TripStore.mk (TripStore.trips s) tripId
  else TripStore.mk (TripStore.trips s) None.
End tripStorage.

Module locationStorage.
(** [getPendingLocations]. *)
Definition getPendingLocations (w : World.t) : list RawLocation.t :=
  World.pendingLocations w.

Definition set_pendingLocations (pending : list RawLocation.t) (w : World.t) : World.t :=
  World.mk (World.service w) pending (World.trackerConfig w) (World.console w)
    (World.drawn w).

(** [clearPendingLocations]. *)
Definition clearPendingLocations (w : World.t) : World.t :=
  set_pendingLocations [] w.

(** [removeSyncedLocations]. *)
Definition removeSyncedLocations (locationIds : list string) (w : World.t) : World.t :=
  let pending := getPendingLocations w in
  let remaining :=
    filter
      (fun loc => negb (existsb (String.eqb (RawLocation.id loc)) locationIds))
      pending in
  set_pendingLocations remaining w.
End locationStorage.

(* ================================================================== *)
(** * Trips ([services/TripService.ts]) *)
(* ================================================================== *)

(** A [Partial<Trip>]: the fields it has, each with its value, which for
    an optional field may be [undefined]. *)
Module TripUpdates.
Record t : Type := mk {
  id : option string;
  ownerUid : option string;
  name : option string;
  startDate : option DateValue;
  endDate : option (option DateValue);
  status : option TripStatus;
  coverPhotoUrl : option (option string);
  countries : option (option (list string));
  totalSteps : option (option Z);
  createdAt : option DateValue;
  updatedAt : option DateValue
}.

Definition none : t :=
  mk None None None None None None None None None None None.

(** [{status}] and [{status, endDate}]. *)
Definition of_status (status : TripStatus) : t :=
  mk None None None None None (Some status) None None None None None.

Definition of_status_endDate (status : TripStatus) (endDate : DateValue) : t :=
  mk None None None None (Some (Some endDate)) (Some status) None None None
    None None.
End TripUpdates.

(** [{...trip, ...updates, updatedAt}]. *)
Definition spread (trip : TripValue.t) (updates : TripUpdates.t)
    (updatedAt : DateValue) : TripValue.t :=
  let field (A : Type) (update : option A) (old : A) : A :=
    match update with
    | Some new => new
    | None => old
    end in
  TripValue.mk
    (field _ (TripUpdates.id updates) (TripValue.id trip))
    (field _ (TripUpdates.ownerUid updates) (TripValue.ownerUid trip))
    (field _ (TripUpdates.name updates) (TripValue.name trip))
    (field _ (TripUpdates.startDate updates) (TripValue.startDate trip))
    (field _ (TripUpdates.endDate updates) (TripValue.endDate trip))
    (field _ (TripUpdates.status updates) (TripValue.status trip))
    (field _ (TripUpdates.coverPhotoUrl updates) (TripValue.coverPhotoUrl trip))
    (field _ (TripUpdates.countries updates) (TripValue.countries trip))
    (field _ (TripUpdates.totalSteps updates) (TripValue.totalSteps trip))
    (field _ (TripUpdates.createdAt updates) (TripValue.createdAt trip))
    updatedAt.

(** The clock: [clock k] is the time of the call number [k] of
    [new Date()]. *)
Definition Clock := nat -> Date.

(** What the trip service works on: the world of the tracker, with the
    console and the random source, the storage of the trips, and the
    number of readings of the clock made so far. *)
Module App.
Record t : Type := mk {
  tracker : World.t;
  store : TripStore.t;
  ticks : nat
}.

Definition initial : t := mk World_initial TripStore.empty 0.

Definition with_tracker (f : World.t -> World.t) (a : t) : t :=
  mk (f (tracker a)) (store a) (ticks a).

Definition with_store (f : TripStore.t -> TripStore.t) (a : t) : t :=
  mk (tracker a) (f (store a)) (ticks a).

Definition log (message : string) (a : t) : t := with_tracker (log message) a.

Definition logError (message context : string) (a : t) : t :=
  with_tracker (logError message context) a.
End App.

(** [Array.prototype.sort] with a comparator that may throw: the error
    of the first comparison that throws is the error of the sort. *)
Section ArraySortTry.
Variable A : Type.
Variable compare : A -> A -> option Z.

Fixpoint sort_insert_try (x : A) (l : list A) : option (list A) :=
  match l with
  | [] => Some [x]
  | y :: l' =>
      match compare x y with
      | None => None
      | Some order =>
          if order <=? 0 then Some (x :: y :: l')
          else option_map (cons y) (sort_insert_try x l')
      end
  end.

Fixpoint Array_sort_try (l : list A) : option (list A) :=
  match l with
  | [] => Some []
  | x :: l' =>
      match Array_sort_try l' with
      | None => None
      | Some sorted => sort_insert_try x sorted
      end
  end.
End ArraySortTry.

Module TripService.
Local Open Scope string_scope.

(** [getTrip]. *)
Definition getTrip (tripId : string) (a : App.t) : option TripValue.t :=
  tripStorage.getTrip tripId (App.store a).

(** [getActiveTrip]. *)
Definition getActiveTrip (a : App.t) : option TripValue.t :=
  let activeTripId := tripStorage.getActiveTripId (App.store a) in
  if negb (truthy activeTripId) then None
  else
    match activeTripId with
    | Some tripId => tripStorage.getTrip tripId (App.store a)
    | None => None
    end.

(** The comparator of [getAllTrips]: the later start first. *)
Definition byStartDate (a b : TripValue.t) : option Z :=
  match getTime (TripValue.startDate b), getTime (TripValue.startDate a) with
  | Some tb, Some ta => Some (tb - ta)
  | _, _ => None
  end.

(** [getAllTrips]: the trips sorted, or [[]] when the sort throws. *)
Definition getAllTrips (a : App.t) : list TripValue.t * App.t :=
  match Array_sort_try byStartDate (tripStorage.getAllTrips (App.store a)) with
  | Some trips => (trips, a)
  | None => ([], App.logError "TypeError" "TripService.getAllTrips" a)
  end.

(** [getTripsByStatus]. *)
Definition TripStatus_eqb (s s' : TripStatus) : bool :=
  match s, s' with
  | trip_active, trip_active
  | trip_completed, trip_completed
  | trip_paused, trip_paused => true
  | _, _ => false
  end.

Definition getTripsByStatus (status : TripStatus) (a : App.t)
    : list TripValue.t * App.t :=
  let (allTrips, a') := getAllTrips a in
  (filter (fun trip => TripStatus_eqb (TripValue.status trip) status) allTrips, a').

(** [updateTrip]: the trip as updated ([inl]), or the message of the
    error thrown ([inr]). *)
Definition updateTrip (clock : Clock) (tripId : string) (updates : TripUpdates.t)
    (a : App.t) : (TripValue.t + string) * App.t :=
  match tripStorage.getTrip tripId (App.store a) with
  | None =>
      let message := "Trip " ++ tripId ++ " not found" in
      (inr message, App.logError message "TripService.updateTrip" a)
  | Some trip =>
      let updatedTrip := spread trip updates (DateObject (clock (App.ticks a))) in
      let a1 :=
        App.mk (App.tracker a) (tripStorage.saveTrip updatedTrip (App.store a))
          (S (App.ticks a)) in
      (inl updatedTrip, App.log "TripService: Trip updated" a1)
  end.

(** [startTrip]. *)
Definition startTrip (rng : Entropy) (dev : Device.t) (clock : Clock)
    (tripId : string) (a : App.t) : Outcome * App.t :=
  let a0 := App.log "TripService: Starting trip" a in
  match updateTrip clock tripId (TripUpdates.of_status trip_active) a0 with
  | (inr message, a1) =>
      (Thrown message, App.logError message "TripService.startTrip" a1)
  | (inl _, a1) =>
      let a2 := App.with_store (tripStorage.setActiveTripId (Some tripId)) a1 in
      match startTracking rng dev tripId (App.tracker a2) with
      | (Thrown message, w) =>
          (Thrown message,
           App.logError message "TripService.startTrip"
             (App.with_tracker (fun _ => w) a2))
      | (Returned, w) =>
          (Returned,
           App.log "TripService: Trip started" (App.with_tracker (fun _ => w) a2))
      end
  end.

(** [createTrip]. *)
Definition createTrip (rng : Entropy) (dev : Device.t) (clock : Clock)
    (name : string) (startNow : bool) (a : App.t)
    : (TripValue.t + string) * App.t :=
  let a0 := App.log "TripService: Creating new trip" a in
  let (id, drawn') := generateUUID rng (World.drawn (App.tracker a0)) in
  let now := App.ticks a0 in
  let trip :=
    TripValue.mk id "local_user" name (DateObject (clock now)) None
      (if startNow then trip_active else trip_completed) None (Some [])
      (Some 0%Z) (DateObject (clock (S now))) (DateObject (clock (S (S now)))) in
  let w1 :=
    World.mk (World.service (App.tracker a0))
      (World.pendingLocations (App.tracker a0))
      (World.trackerConfig (App.tracker a0)) (World.console (App.tracker a0))
      drawn' in
  let a1 := App.mk w1 (tripStorage.saveTrip trip (App.store a0)) (S (S (S now))) in
  if startNow then
    match startTrip rng dev clock (TripValue.id trip) a1 with
    | (Thrown message, a2) =>
        (inr message, App.logError message "TripService.createTrip" a2)
    | (Returned, a2) => (inl trip, App.log "TripService: Trip created" a2)
    end
  else (inl trip, App.log "TripService: Trip created" a1).

(** [completeTrip]. *)
Definition completeTrip (clock : Clock) (tripId : string) (a : App.t)
    : (TripValue.t + string) * App.t :=
  let a0 := App.log "TripService: Completing trip" a in
  let a1 := App.with_tracker stopTracking a0 in
  let endDate := DateObject (clock (App.ticks a1)) in
  let a2 := App.mk (App.tracker a1) (App.store a1) (S (App.ticks a1)) in
  match updateTrip clock tripId
          (TripUpdates.of_status_endDate trip_completed endDate) a2 with
  | (inr message, a3) =>
      (inr message, App.logError message "TripService.completeTrip" a3)
  | (inl trip, a3) =>
      let a4 := App.with_store (tripStorage.setActiveTripId None) a3 in
      (inl trip, App.log "TripService: Trip completed" a4)
  end.

(** [pauseTrip]. *)
Definition pauseTrip (clock : Clock) (tripId : string) (a : App.t)
    : (TripValue.t + string) * App.t :=
  let a0 := App.log "TripService: Pausing trip" a in
  let a1 := App.with_tracker pauseTracking a0 in
  match updateTrip clock tripId (TripUpdates.of_status trip_paused) a1 with
  | (inr message, a2) =>
      (inr message, App.logError message "TripService.pauseTrip" a2)
  | (inl trip, a2) => (inl trip, App.log "TripService: Trip paused" a2)
  end.

(** [resumeTrip]. *)
Definition resumeTrip (rng : Entropy) (dev : Device.t) (clock : Clock)
    (tripId : string) (a : App.t) : (TripValue.t + string) * App.t :=
  let a0 := App.log "TripService: Resuming trip" a in
  match resumeTracking rng dev (App.tracker a0) with
  | (Thrown message, w) =>
      (inr message,
       App.logError message "TripService.resumeTrip"
         (App.with_tracker (fun _ => w) a0))
  | (Returned, w) =>
      let a1 := App.with_tracker (fun _ => w) a0 in
      match updateTrip clock tripId (TripUpdates.of_status trip_active) a1 with
      | (inr message, a2) =>
          (inr message, App.logError message "TripService.resumeTrip" a2)
      | (inl trip, a2) => (inl trip, App.log "TripService: Trip resumed" a2)
      end
  end.

(** [deleteTrip]. *)
Definition deleteTrip (tripId : string) (a : App.t) : App.t :=
  let a0 := App.log "TripService: Deleting trip" a in
  let activeTripId := tripStorage.getActiveTripId (App.store a0) in
  let a1 :=
    match activeTripId with
    | Some current =>
        if String.eqb current tripId then
          App.with_store (tripStorage.setActiveTripId None)
            (App.with_tracker stopTracking a0)
        else a0
    | None => a0
    end in
  let a2 := App.with_store (tripStorage.deleteTrip tripId) a1 in
  App.log "TripService: Trip deleted" a2.
End TripService.

(* ================================================================== *)
(** * Binary64: signs and order *)
(* ================================================================== *)

Module Binary64Order.
Import Floats.

(** The floats of one sign: [signed0 s x] allows a zero, [signed s lo x]
    does not, and bounds the exponent of a finite [x] from below. *)
Definition signed0 (s : bool) (x : spec_float) : Prop :=
  match x with
  | S754_zero s' | S754_infinity s' | S754_finite s' _ _ => s' = s
  | S754_nan => False
  end.




(** The place of a float that is not [NaN] in the order of the floats:
    the sign first, then the exponent, then the mantissa. The two zeros
    have one place. *)
Definition place (x : spec_float) : Z * Z * Z :=
  match x with
  | S754_infinity true => (-2, 0, 0)
  | S754_finite true m e => (-1, - e, - Z.pos m)
  | S754_zero _ | S754_nan => (0, 0, 0)
  | S754_finite false m e => (1, e, Z.pos m)
  | S754_infinity false => (2, 0, 0)
  end.

Definition before (a b : Z * Z * Z) : Prop :=
  fst (fst a) < fst (fst b) \/
  fst (fst a) = fst (fst b) /\
  (snd (fst a) < snd (fst b) \/ snd (fst a) = snd (fst b) /\ snd a < snd b).

Definition same_place (a b : Z * Z * Z) : Prop :=
  fst (fst a) = fst (fst b) /\ snd (fst a) = snd (fst b) /\ snd a = snd b.

Definition where_is (x : float) : Z * Z * Z := place (Prim2SF x).
End Binary64Order.

(* ================================================================== *)
(** * Properties: geolocation helpers *)
(* ================================================================== *)

Section GeoMath.
Local Open Scope R_scope.

Lemma Rltb_true (x y : R) : Rltb x y = true <-> x < y.
Proof.
  unfold Rltb. destruct (Rlt_dec x y); split; intros; try discriminate; tauto.
Qed.

Lemma Rltb_false (x y : R) : Rltb x y = false <-> y <= x.
Proof.
  unfold Rltb.
  destruct (Rlt_dec x y); split; intros; try discriminate; try reflexivity; lra.
Qed.

Lemma Rleb_true (x y : R) : Rleb x y = true <-> x <= y.
Proof.
  unfold Rleb. destruct (Rle_dec x y); split; intros; try discriminate; tauto.
Qed.

Lemma Rleb_false (x y : R) : Rleb x y = false <-> y < x.
Proof.
  unfold Rleb.
  destruct (Rle_dec x y); split; intros; try discriminate; try reflexivity; lra.
Qed.

Lemma atan_nonneg (x : R) : 0 <= x -> 0 <= atan x.
Proof.
  intros [Hx | Hx].
  - left. rewrite <- atan_0. now apply atan_increasing.
  - subst x. rewrite atan_0. lra.
Qed.

(** In the first quadrant, axes included, [Math_atan2] is between 0 and
    a right angle. *)
Lemma Math_atan2_quadrant (y x : R) :
  0 <= y -> 0 <= x -> 0 <= Math_atan2 y x <= PI / 2.
Proof.
  intros Hy Hx. unfold Math_atan2.
  assert (HPI := PI_RGT_0).
  destruct (Rltb 0 x) eqn:Hx0.
  - apply Rltb_true in Hx0. split.
    + apply atan_nonneg. apply Rmult_le_pos; [ exact Hy | ].
      left. now apply Rinv_0_lt_compat.
    + left. apply atan_bound.
  - apply Rltb_false in Hx0.
    destruct (Rltb x 0) eqn:Hx1.
    + apply Rltb_true in Hx1. lra.
    + destruct (Rltb 0 y) eqn:Hy0; [ lra | ].
      destruct (Rltb y 0) eqn:Hy1; [ apply Rltb_true in Hy1; lra | lra ].
Qed.

(** The distance is never negative, and never more than half of the
    circumference of the Earth. *)
Lemma calculateDistance_bounds (point1 point2 : GeoPoint) :
  0 <= calculateDistance point1 point2 <= 6371000 * PI.
Proof.
  unfold calculateDistance. cbv zeta.
  match goal with
  | |- _ <= _ * (2 * Math_atan2 ?y ?x) <= _ =>
      pose proof (Math_atan2_quadrant (sqrt_pos _ : 0 <= y) (sqrt_pos _ : 0 <= x))
        as [Hlo Hhi];
      set (c := Math_atan2 y x) in *
  end.
  split; nra.
Qed.

Lemma calculateDistance_nonneg (point1 point2 : GeoPoint) :
  0 <= calculateDistance point1 point2.
Proof. apply calculateDistance_bounds. Qed.

Lemma calculateDistance_haversine (point1 point2 : GeoPoint) :
  calculateDistance point1 point2
  = 6371000 * (2 * Math_atan2 (sqrt (haversine point1 point2))
                     (sqrt (1 - haversine point1 point2))).
Proof. reflexivity. Qed.

(** In exact arithmetic the term [a] is between 0 and 1 for every pair
    of points: both square roots of [calculateDistance] are taken of
    numbers that are not negative. *)
Lemma haversine_unit (point1 point2 : GeoPoint) :
  0 <= haversine point1 point2 <= 1.
Proof.
  unfold haversine.
  set (p1 := latitude point1 * PI / 180).
  set (p2 := latitude point2 * PI / 180).
  replace ((latitude point2 - latitude point1) * PI / 180 / 2)
    with ((p2 - p1) / 2) by (unfold p1, p2; lra).
  set (l := (longitude point2 - longitude point1) * PI / 180 / 2).
  pose proof (cos_2a_sin ((p2 - p1) / 2)) as Hd.
  replace (2 * ((p2 - p1) / 2)) with (p2 - p1) in Hd by lra.
  pose proof (cos_minus p2 p1) as Hm.
  pose proof (cos_plus p2 p1) as Hp.
  pose proof (COS_bound (p2 - p1)) as [Hd1 Hd2].
  pose proof (COS_bound (p2 + p1)) as [Hs1 Hs2].
  pose proof (sin2_cos2 l) as Hl. unfold Rsqr in Hl.
  assert (0 <= sin l * sin l) as Ht0 by nra.
  assert (sin l * sin l <= 1) as Ht1 by nra.
  set (t := sin l * sin l) in *.
  set (s := sin ((p2 - p1) / 2)) in *.
  replace (s * s + cos p1 * cos p2 * sin l * sin l)
    with (s * s + cos p1 * cos p2 * t) by (unfold t; ring).
  assert (cos p1 * cos p2 = (cos (p2 - p1) + cos (p2 + p1)) / 2) as -> by lra.
  assert (s * s = (1 - cos (p2 - p1)) / 2) as -> by lra.
  split; nra.
Qed.

(** The distance does not depend on the order of the two points. *)
Lemma calculateDistance_sym (point1 point2 : GeoPoint) :
  calculateDistance point1 point2 = calculateDistance point2 point1.
Proof.
  unfold calculateDistance. cbv zeta.
  replace ((latitude point1 - latitude point2) * PI / 180 / 2)
    with (- ((latitude point2 - latitude point1) * PI / 180 / 2)) by lra.
  replace ((longitude point1 - longitude point2) * PI / 180 / 2)
    with (- ((longitude point2 - longitude point1) * PI / 180 / 2)) by lra.
  rewrite !sin_neg.
  set (s := sin ((latitude point2 - latitude point1) * PI / 180 / 2)).
  set (s' := sin ((longitude point2 - longitude point1) * PI / 180 / 2)).
  set (c1 := cos (latitude point1 * PI / 180)).
  set (c2 := cos (latitude point2 * PI / 180)).
  replace (- s * - s + c2 * c1 * - s' * - s') with (s * s + c1 * c2 * s' * s') by ring.
  reflexivity.
Qed.

(** A point is at distance 0 from itself. *)
Lemma calculateDistance_same (point : GeoPoint) :
  calculateDistance point point = 0.
Proof.
  unfold calculateDistance. cbv zeta.
  replace ((latitude point - latitude point) * PI / 180 / 2) with 0 by lra.
  replace ((longitude point - longitude point) * PI / 180 / 2) with 0 by lra.
  rewrite sin_0, !Rmult_0_r, Rplus_0_r, Rminus_0_r, sqrt_0, sqrt_1.
  unfold Math_atan2.
  replace (Rltb 0 1) with true by (symmetry; apply Rltb_true; lra).
  replace (0 / 1) with 0 by lra. rewrite atan_0. lra.
Qed.

(** Along the equator the distance is the arc of the difference of the
    longitudes. *)
Lemma calculateDistance_equator (lon1 lon2 : R) :
  0 <= lon2 - lon1 < 180 ->
  calculateDistance (mkGeoPoint 0 lon1) (mkGeoPoint 0 lon2)
  = 6371000 * ((lon2 - lon1) * PI / 180).
Proof.
  intros Hlon. unfold calculateDistance. cbv zeta. simpl.
  assert (HPI := PI_RGT_0).
  replace ((0 - 0) * PI / 180 / 2) with 0 by lra.
  replace (0 * PI / 180) with 0 by lra.
  rewrite sin_0, cos_0.
  set (x := (lon2 - lon1) * PI / 180 / 2).
  assert (0 <= x < PI / 2) as Hx by (unfold x; split; nra).
  assert (0 <= sin x) as Hsin by (apply sin_ge_0; lra).
  assert (0 < cos x) as Hcos by (apply cos_gt_0; lra).
  replace (0 * 0 + 1 * 1 * sin x * sin x) with (sin x * sin x) by ring.
  rewrite (sqrt_square _ Hsin).
  replace (1 - sin x * sin x) with (cos x * cos x)
    by (pose proof (sin2_cos2 x) as H2; unfold Rsqr in H2; lra).
  rewrite (sqrt_square (cos x)) by lra.
  unfold Math_atan2.
  replace (Rltb 0 (cos x)) with true by (symmetry; now apply Rltb_true).
  change (sin x / cos x) with (tan x).
  rewrite atan_tan by lra.
  unfold x. lra.
Qed.

Lemma timeDiff_pos (time1 time2 : Date) :
  (time1 < time2)%Z <-> 0 < IZR (time2 - time1) / 1000.
Proof.
  split; intros H.
  - assert (0 < IZR (time2 - time1)) by (apply IZR_lt; lia). lra.
  - assert (0 < IZR (time2 - time1)) as H0 by lra.
    apply lt_IZR in H0. lia.
Qed.

Lemma calculateSpeed_after (a b : GeoPoint) (tA tB : Date) :
  (tA < tB)%Z ->
  calculateSpeed a b tA tB = calculateDistance a b / (IZR (tB - tA) / 1000).
Proof.
  intros H. apply timeDiff_pos in H. unfold calculateSpeed. cbv zeta.
  now replace (Rltb 0 (IZR (tB - tA) / 1000)) with true
    by (symmetry; now apply Rltb_true).
Qed.

Lemma calculateSpeed_not_after (a b : GeoPoint) (tA tB : Date) :
  (tB <= tA)%Z -> calculateSpeed a b tA tB = 0.
Proof.
  intros H. unfold calculateSpeed. cbv zeta.
  destruct (Rltb 0 (IZR (tB - tA) / 1000)) eqn:Hd; [ | reflexivity ].
  apply Rltb_true, timeDiff_pos in Hd. lia.
Qed.

(** The formula of [calculateSpeed], in exact arithmetic: the distance
    over the elapsed seconds when the second time is after the first, a
    division by a positive number; 0 otherwise; and never negative. *)
Theorem calculateSpeed_spec (a b : GeoPoint) (tA tB : Date) :
  ((tA < tB)%Z ->
     0 < IZR (tB - tA) / 1000 /\
     calculateSpeed a b tA tB = calculateDistance a b / (IZR (tB - tA) / 1000)) /\
  ((tB <= tA)%Z -> calculateSpeed a b tA tB = 0) /\
  0 <= calculateSpeed a b tA tB.
Proof.
  split; [ | split ].
  - intros H. split; [ now apply timeDiff_pos | now apply calculateSpeed_after ].
  - apply calculateSpeed_not_after.
  - destruct (Z_lt_le_dec tA tB) as [H | H].
    + rewrite (calculateSpeed_after a b H). apply timeDiff_pos in H.
      apply Rmult_le_pos; [ apply calculateDistance_nonneg | ].
      left. now apply Rinv_0_lt_compat.
    + rewrite (calculateSpeed_not_after a b H). lra.
Qed.

(** [inferActivityFromSpeed] answers a band that holds the speed. *)
Lemma inferActivityFromSpeed_in_band (s : R) :
  speed_band s (inferActivityFromSpeed s).
Proof.
  unfold inferActivityFromSpeed.
  destruct (Rltb s 1) eqn:H1; [ apply Rltb_true in H1 | apply Rltb_false in H1 ].
  { now constructor. }
  destruct (Rltb s 2) eqn:H2; [ apply Rltb_true in H2 | apply Rltb_false in H2 ].
  { now constructor. }
  destruct (Rltb s 20) eqn:H3; [ apply Rltb_true in H3 | apply Rltb_false in H3 ].
  { now constructor. }
  destruct (Rltb s 55) eqn:H4; [ apply Rltb_true in H4 | apply Rltb_false in H4 ].
  { now constructor. }
  now constructor.
Qed.

(** The bands do not overlap. *)
Lemma speed_band_unique (s : R) (a b : ActivityType) :
  speed_band s a -> speed_band s b -> a = b.
Proof. destruct 1; destruct 1; (reflexivity || lra). Qed.

(** C5. For every speed, and so for every speed that is not negative,
    [inferActivityFromSpeed] answers the one band of the table that holds
    the speed: below 1 stationary, from 1 and below 2 walking, from 2 and
    below 20 driving, from 20 and below 55 train, from 55 flying. The
    bands do not overlap, each has its lower edge, and the answer depends
    on the speed alone. *)
Theorem inferActivityFromSpeed_bands (s : R) (activity : ActivityType) :
  speed_band s activity <-> inferActivityFromSpeed s = activity.
Proof.
  split.
  - intros H. apply (speed_band_unique (inferActivityFromSpeed_in_band s) H).
  - intros <-. apply inferActivityFromSpeed_in_band.
Qed.
End GeoMath.

(* ================================================================== *)
(** * Properties: sorting *)
(* ================================================================== *)

Section SortFacts.
Variable A : Type.
Variable key : A -> Z.

Let compare : A -> A -> Z := fun a b => key a - key b.
Let key_le : A -> A -> Prop := fun a b => key a <= key b.

Lemma sort_insert_Permutation (x : A) (l : list A) :
  Permutation (sort_insert compare x l) (x :: l).
Proof.
  induction l as [| y l IH]; simpl.
  - apply Permutation_refl.
  - destruct (compare x y <=? 0).
    + apply Permutation_refl.
    + apply perm_trans with (y :: x :: l).
      * now apply perm_skip.
      * apply perm_swap.
Qed.

Lemma Array_sort_Permutation (l : list A) :
  Permutation (Array_sort compare l) l.
Proof.
  induction l as [| x l IH]; simpl.
  - apply perm_nil.
  - apply perm_trans with (x :: Array_sort compare l).
    + apply sort_insert_Permutation.
    + now apply perm_skip.
Qed.

Lemma Array_sort_length (l : list A) :
  List.length (Array_sort compare l) = List.length l.
Proof. apply Permutation_length, Array_sort_Permutation. Qed.

Lemma sort_insert_sorted (x : A) (l : list A) :
  StronglySorted key_le l -> StronglySorted key_le (sort_insert compare x l).
Proof.
  induction 1 as [| y l Hl IH Hy]; simpl.
  - constructor; constructor.
  - destruct (compare x y <=? 0) eqn:Hc; unfold compare in Hc.
    + apply Z.leb_le in Hc.
      constructor; [ now constructor | ].
      constructor; [ unfold key_le; lia | ].
      eapply Forall_impl; [ | exact Hy ].
      unfold key_le. intros z Hz. lia.
    + apply Z.leb_gt in Hc.
      constructor; [ exact IH | ].
      eapply Permutation_Forall.
      * apply Permutation_sym, sort_insert_Permutation.
      * constructor; [ unfold key_le; lia | exact Hy ].
Qed.

Lemma Array_sort_sorted (l : list A) :
  StronglySorted key_le (Array_sort compare l).
Proof.
  induction l as [| x l IH]; simpl.
  - constructor.
  - now apply sort_insert_sorted.
Qed.

(** The sort is stable: the elements of one key keep their order. *)
Lemma sort_insert_stable (k : Z) (x : A) (l : list A) :
  filter (fun a => key a =? k) (sort_insert compare x l)
  = filter (fun a => key a =? k) (x :: l).
Proof.
  induction l as [| y l IH]; simpl.
  - reflexivity.
  - destruct (compare x y <=? 0) eqn:Hc; unfold compare in Hc.
    + reflexivity.
    + apply Z.leb_gt in Hc. simpl in *. rewrite IH.
      destruct (key x =? k) eqn:Hx; [ | reflexivity ].
      apply Z.eqb_eq in Hx.
      assert ((key y =? k) = false) as -> by (apply Z.eqb_neq; lia).
      reflexivity.
Qed.

Lemma Array_sort_stable (k : Z) (l : list A) :
  filter (fun a => key a =? k) (Array_sort compare l)
  = filter (fun a => key a =? k) l.
Proof.
  induction l as [| x l IH]; simpl.
  - reflexivity.
  - rewrite sort_insert_stable. simpl. now rewrite IH.
Qed.
End SortFacts.

(* ================================================================== *)
(** * Properties: photo clustering *)
(* ================================================================== *)

Section ListFacts.
Variables A B : Type.

Lemma last_opt_app (l : list A) (x : A) : last_opt (l ++ [x]) = Some x.
Proof.
  induction l as [| y l IH]; simpl; [ reflexivity | ].
  rewrite IH. destruct (l ++ [x]) eqn:E; [ | reflexivity ].
  now destruct l.
Qed.

Lemma last_opt_None (l : list A) : last_opt l = None <-> l = [].
Proof.
  split; [ | now intros -> ].
  induction l as [| y l IH]; [ reflexivity | ].
  simpl. destruct l; [ discriminate | ].
  intros H. apply IH in H. discriminate.
Qed.

Lemma last_opt_cons (x : A) (l : list A) :
  l <> [] -> last_opt (x :: l) = last_opt l.
Proof. destruct l; [ congruence | reflexivity ]. Qed.

Lemma last_opt_map (f : A -> B) (l : list A) :
  last_opt (map f l) = option_map f (last_opt l).
Proof.
  induction l as [| y l IH]; simpl; [ reflexivity | ].
  destruct l; [ reflexivity | exact IH ].
Qed.

Lemma hd_error_map (f : A -> B) (l : list A) :
  hd_error (map f l) = option_map f (hd_error l).
Proof. now destruct l. Qed.

Lemma length_pos_nonempty (l : list A) :
  (0 <? Z.of_nat (List.length l)) = true <-> l <> [].
Proof.
  destruct l; simpl; split; intros; try congruence; try discriminate.
  apply Z.ltb_lt. lia.
Qed.

Lemma all_adjacent_snoc (R : A -> A -> Prop) (l : list A) (x y : A) :
  all_adjacent R l -> last_opt l = Some x -> R x y -> all_adjacent R (l ++ [y]).
Proof.
  induction l as [| z l IH]; [ discriminate | ].
  intros Hl Hlast Hxy. destruct l as [| z' l].
  - simpl in *. injection Hlast as <-. now split.
  - change (R z z' /\ all_adjacent R ((z' :: l) ++ [y])).
    destruct Hl as [Hz Hl]. split; [ exact Hz | ].
    apply IH; assumption.
Qed.

Lemma all_adjacent_map (f : A -> B) (R : B -> B -> Prop) (l : list A) :
  all_adjacent R (map f l) <-> all_adjacent (fun x y => R (f x) (f y)) l.
Proof.
  induction l as [| z l IH]; [ simpl; tauto | ].
  destruct l as [| z' l]; [ simpl; tauto | ].
  change (R (f z) (f z') /\ all_adjacent R (map f (z' :: l)) <->
          R (f z) (f z') /\ all_adjacent (fun x y => R (f x) (f y)) (z' :: l)).
  tauto.
Qed.

Lemma all_adjacent_impl (R R' : A -> A -> Prop) (l : list A) :
  (forall x y, R x y -> R' x y) -> all_adjacent R l -> all_adjacent R' l.
Proof.
  intros HR. induction l as [| z l IH]; [ trivial | ].
  destruct l as [| z' l]; [ trivial | ].
  intros [Hz Hl]. split; [ now apply HR | now apply IH ].
Qed.
End ListFacts.

Section Clustering.
Variable rng : Entropy.
Variable tripId : string.

Lemma belongsToCluster_joins (photo lastPhoto : PhotoAnalysis.t) :
  belongsToCluster photo lastPhoto = true
  <-> joins (toMetadata lastPhoto) (toMetadata photo).
Proof.
  unfold belongsToCluster, joins, toMetadata,
    CURATION_CONFIG.TIME_CLUSTER_WINDOW, CURATION_CONFIG.LOCATION_CLUSTER_RADIUS.
  cbv zeta. simpl. rewrite andb_true_iff, Z.leb_le.
  destruct (PhotoAnalysis.location photo) as [l |];
    destruct (PhotoAnalysis.location lastPhoto) as [l' |];
    try rewrite Rleb_true;
    (split; intros [Ht Hd]; (split; [ exact Ht | ]));
    try reflexivity; try (intros ? ? ? ?; discriminate).
  - intros ? ? [= <-] [= <-]. exact Hd.
  - now apply Hd.
Qed.

Lemma chain_walk_concat (rest current : list PhotoAnalysis.t) (lastPhoto : PhotoAnalysis.t) :
  List.concat (fst (chain_walk current lastPhoto rest))
    ++ snd (chain_walk current lastPhoto rest)
  = current ++ rest.
Proof.
  revert current lastPhoto.
  induction rest as [| photo rest IH]; intros current lastPhoto; simpl.
  - now rewrite app_nil_r.
  - destruct (belongsToCluster photo lastPhoto).
    + rewrite IH. now rewrite <- app_assoc.
    + specialize (IH [photo] photo).
      destruct (chain_walk [photo] photo rest) as [closed final].
      simpl in *. now rewrite <- app_assoc, IH.
Qed.

Lemma chain_walk_nonempty (rest current : list PhotoAnalysis.t) (lastPhoto : PhotoAnalysis.t) :
  current <> [] ->
  Forall (fun g => g <> []) (fst (chain_walk current lastPhoto rest)) /\
  snd (chain_walk current lastPhoto rest) <> [].
Proof.
  revert current lastPhoto.
  induction rest as [| photo rest IH]; intros current lastPhoto Hc; simpl.
  - now split.
  - destruct (belongsToCluster photo lastPhoto).
    + apply IH. now destruct current.
    + specialize (IH [photo] photo).
      destruct (chain_walk [photo] photo rest) as [closed final].
      simpl in *. destruct IH as [IH1 IH2]; [ discriminate | ].
      split; [ now constructor | exact IH2 ].
Qed.

Lemma chain_walk_joined (rest current : list PhotoAnalysis.t) (lastPhoto : PhotoAnalysis.t) :
  last_opt current = Some lastPhoto ->
  all_adjacent joined current ->
  Forall (all_adjacent joined) (fst (chain_walk current lastPhoto rest)) /\
  all_adjacent joined (snd (chain_walk current lastPhoto rest)).
Proof.
  revert current lastPhoto.
  induction rest as [| photo rest IH]; intros current lastPhoto Hlast Hc; simpl.
  - now split.
  - destruct (belongsToCluster photo lastPhoto) eqn:Hb.
    + apply IH.
      * apply last_opt_app.
      * now apply all_adjacent_snoc with lastPhoto.
    + specialize (IH [photo] photo).
      destruct (chain_walk [photo] photo rest) as [closed final].
      simpl in *. destruct IH as [IH1 IH2]; [ reflexivity | exact I | ].
      split; [ now constructor | exact IH2 ].
Qed.

Lemma chain_walk_split (rest current : list PhotoAnalysis.t) (lastPhoto : PhotoAnalysis.t) :
  current <> [] ->
  last_opt current = Some lastPhoto ->
  let groups :=
    fst (chain_walk current lastPhoto rest)
      ++ [snd (chain_walk current lastPhoto rest)] in
  all_adjacent separated groups /\
  exists g groups', groups = g :: groups' /\ hd_error g = hd_error current.
Proof.
  revert current lastPhoto.
  induction rest as [| photo rest IH]; intros current lastPhoto Hne Hlast; simpl.
  - split; [ exact I | ]. now exists current, [].
  - destruct (belongsToCluster photo lastPhoto) eqn:Hb.
    + destruct (IH (current ++ [photo]) photo) as [IH1 (g & groups' & IH2 & IH3)].
      * now destruct current.
      * apply last_opt_app.
      * split; [ exact IH1 | ].
        exists g, groups'. split; [ exact IH2 | ].
        rewrite IH3. now destruct current.
    + destruct (IH [photo] photo) as [IH1 (g & groups' & IH2 & IH3)];
        [ discriminate | reflexivity | ].
      destruct (chain_walk [photo] photo rest) as [closed final].
      simpl in *. rewrite IH2 in *. split.
      * split; [ | exact IH1 ].
        exists lastPhoto, photo. repeat split; assumption.
      * now exists current, (g :: groups').
Qed.

Lemma photosWithLocation_locations (photos : list PhotoAnalysis.t) :
  photosWithLocation photos = locations (map toMetadata photos).
Proof.
  induction photos as [| p photos IH]; simpl; [ reflexivity | ].
  destruct (PhotoAnalysis.location p); now rewrite IH.
Qed.

(** The [reduce] of [finalizeCluster] is the sum of the list. *)
Lemma reduce_Rsum (f : GeoPoint -> R) (l : list GeoPoint) (acc : R) :
  fold_left (fun sum p => (sum + f p)%R) l acc = (acc + Rsum (map f l))%R.
Proof.
  revert acc. induction l as [| p l IH]; intros acc; simpl.
  - lra.
  - rewrite IH. lra.
Qed.

(** [finalizeCluster] succeeds on a group that is not empty, draws one
    identifier, keeps the photos in order, and builds a cluster that
    satisfies the invariant. *)
Lemma finalizeCluster_spec (g : list PhotoAnalysis.t) (drawn : nat) :
  g <> [] ->
  exists c,
    finalizeCluster rng g tripId drawn = Some (c, S drawn) /\
    PhotoCluster.photos c = map toMetadata g /\
    PhotoCluster.id c = rng drawn /\
    PhotoCluster.tripId c = tripId /\
    PhotoCluster.assignedStepId c = None /\
    cluster_invariant c.
Proof.
  intros Hg. unfold finalizeCluster.
  destruct (hd_error g) as [first |] eqn:Hhd; [ | now destruct g ].
  destruct (last_opt g) as [final |] eqn:Hlast;
    [ | apply last_opt_None in Hlast; contradiction ].
  cbv zeta. unfold generateUUID. eexists. split; [ reflexivity | ].
  unfold cluster_invariant. simpl. repeat split.
  - now rewrite hd_error_map, Hhd.
  - now rewrite last_opt_map, Hlast.
  - unfold mean_location. rewrite <- photosWithLocation_locations.
    destruct (photosWithLocation g) as [| l located] eqn:Hloc; [ reflexivity | ].
    replace (0 <? Z.of_nat (List.length (l :: located))) with true
      by (symmetry; apply Z.ltb_lt; simpl; lia).
    unfold arithmetic_mean. rewrite !reduce_Rsum, !length_map.
    f_equal; f_equal; lra.
Qed.

Lemma finalizeAll_app (groups : list (list PhotoAnalysis.t))
    (g : list PhotoAnalysis.t) (drawn : nat) :
  finalizeAll rng tripId (groups ++ [g]) drawn =
  match finalizeAll rng tripId groups drawn with
  | Some (cs, drawn') =>
      match finalizeCluster rng g tripId drawn' with
      | Some (c, drawn'') => Some (cs ++ [c], drawn'')
      | None => None
      end
  | None => None
  end.
Proof.
  revert drawn. induction groups as [| g' groups IH]; intros drawn; simpl.
  - destruct (finalizeCluster rng g tripId drawn) as [[c d] |]; reflexivity.
  - destruct (finalizeCluster rng g' tripId drawn) as [[c d] |]; [ | reflexivity ].
    rewrite IH.
    destruct (finalizeAll rng tripId groups d) as [[cs d'] |]; [ | reflexivity ].
    destruct (finalizeCluster rng g tripId d') as [[c' d''] |]; reflexivity.
Qed.

(** Groups that are not empty are all made into clusters, one for one. *)
Lemma finalizeAll_spec (groups : list (list PhotoAnalysis.t)) (drawn : nat) :
  Forall (fun g => g <> []) groups ->
  exists cs,
    finalizeAll rng tripId groups drawn
      = Some (cs, (drawn + List.length groups)%nat) /\
    Forall2 made_of groups cs.
Proof.
  intros H. revert drawn.
  induction H as [| g groups Hg _ IH]; intros drawn; simpl.
  - exists []. split; [ now rewrite Nat.add_0_r | constructor ].
  - destruct (finalizeCluster_spec drawn Hg) as (c & -> & Hp & _ & _ & _ & Hinv).
    destruct (IH (S drawn)) as (cs & -> & Hcs).
    exists (c :: cs). split.
    + now rewrite Nat.add_succ_r.
    + constructor; [ now split | exact Hcs ].
Qed.

(** The loop of [clusterPhotos] is the walk, each closed group made into
    a cluster when it is closed. *)
Lemma clusterLoop_walk (rest current : list PhotoAnalysis.t)
    (lastPhoto : PhotoAnalysis.t) (clusters : list PhotoCluster.t) (drawn : nat) :
  last_opt current = Some lastPhoto ->
  clusterLoop rng tripId rest current clusters drawn =
  match finalizeAll rng tripId (fst (chain_walk current lastPhoto rest)) drawn with
  | Some (cs, drawn') =>
      Some (snd (chain_walk current lastPhoto rest), clusters ++ cs, drawn')
  | None => None
  end.
Proof.
  revert current lastPhoto clusters drawn.
  induction rest as [| photo rest IH]; intros current lastPhoto clusters drawn Hlast; simpl.
  - now rewrite app_nil_r.
  - rewrite Hlast. destruct (belongsToCluster photo lastPhoto).
    + apply IH, last_opt_app.
    + assert (current <> []) as Hne by (intros ->; discriminate).
      apply length_pos_nonempty in Hne. rewrite Hne.
      specialize (IH [photo] photo).
      destruct (chain_walk [photo] photo rest) as [closed final]. simpl in *.
      destruct (finalizeCluster rng current tripId drawn) as [[c d] |]; [ | reflexivity ].
      rewrite IH by reflexivity.
      destruct (finalizeAll rng tripId closed d) as [[cs d'] |]; [ | reflexivity ].
      now rewrite <- app_assoc.
Qed.
End Clustering.

(** [clusterPhotos] sorts, walks, and makes every group into a cluster. *)
Lemma clusterPhotos_groups (rng : Entropy) (photos : list PhotoAnalysis.t)
    (trip : Trip.t) (drawn : nat) :
  clusterPhotos rng photos trip drawn
  = finalizeAll rng (Trip.id trip) (chain_groups (Array_sort byTimestamp photos)) drawn.
Proof.
  unfold clusterPhotos. fold byTimestamp.
  destruct photos as [| p photos]; [ reflexivity | ].
  replace (Z.of_nat (List.length (p :: photos)) =? 0) with false
    by (symmetry; apply Z.eqb_neq; simpl; lia).
  cbv zeta. unfold chain_groups.
  destruct (Array_sort byTimestamp (p :: photos)) as [| first rest] eqn:Hs.
  - apply (f_equal (@List.length _)) in Hs.
    unfold byTimestamp in Hs. rewrite Array_sort_length in Hs. discriminate.
  - rewrite (@clusterLoop_walk rng (Trip.id trip) rest [first] first [] drawn eq_refl).
    pose proof (@chain_walk_nonempty rest [first] first) as [_ Hfinal];
      [ discriminate | ].
    destruct (chain_walk [first] first rest) as [closed final]. simpl in *.
    rewrite finalizeAll_app.
    destruct (finalizeAll rng (Trip.id trip) closed drawn) as [[cs d] |]; [ | reflexivity ].
    apply length_pos_nonempty in Hfinal. rewrite Hfinal.
    reflexivity.
Qed.

Section Groups.
Variable sorted : list PhotoAnalysis.t.

Lemma chain_groups_concat : List.concat (chain_groups sorted) = sorted.
Proof.
  unfold chain_groups. destruct sorted as [| first rest]; [ reflexivity | ].
  pose proof (chain_walk_concat rest [first] first) as H.
  destruct (chain_walk [first] first rest) as [closed final]. simpl in H.
  rewrite concat_app. simpl. now rewrite app_nil_r.
Qed.

Lemma chain_groups_nonempty : Forall (fun g => g <> []) (chain_groups sorted).
Proof.
  unfold chain_groups. destruct sorted as [| first rest]; [ constructor | ].
  pose proof (@chain_walk_nonempty rest [first] first) as [H1 H2]; [ discriminate | ].
  destruct (chain_walk [first] first rest) as [closed final]. simpl in *.
  apply Forall_app. split; [ exact H1 | now constructor ].
Qed.

Lemma chain_groups_joined : Forall (all_adjacent joined) (chain_groups sorted).
Proof.
  unfold chain_groups. destruct sorted as [| first rest]; [ constructor | ].
  pose proof (@chain_walk_joined rest [first] first eq_refl I) as [H1 H2].
  destruct (chain_walk [first] first rest) as [closed final]. simpl in *.
  apply Forall_app. split; [ exact H1 | now constructor ].
Qed.

Lemma chain_groups_separated : all_adjacent separated (chain_groups sorted).
Proof.
  unfold chain_groups. destruct sorted as [| first rest]; [ exact I | ].
  pose proof (@chain_walk_split rest [first] first) as [H _];
    [ discriminate | reflexivity | ].
  destruct (chain_walk [first] first rest) as [closed final]. exact H.
Qed.
End Groups.

(** From the groups to the clusters made of them. *)
Section Transfer.
Let made := Forall2 made_of.

Lemma made_concat groups cs :
  made groups cs ->
  List.concat (map PhotoCluster.photos cs) = map toMetadata (List.concat groups).
Proof.
  induction 1 as [| g c groups' cs' [Hp _] _ IH]; simpl; [ reflexivity | ].
  now rewrite map_app, Hp, IH.
Qed.

Lemma made_nonempty groups cs :
  made groups cs ->
  Forall (fun g => g <> []) groups ->
  Forall (fun c => PhotoCluster.photos c <> []) cs.
Proof.
  induction 1 as [| g c groups' cs' [Hp _] _ IH]; intros H; constructor.
  - rewrite Hp. inversion H; subst. now destruct g.
  - apply IH. now inversion H.
Qed.

Lemma made_invariant groups cs : made groups cs -> Forall cluster_invariant cs.
Proof.
  induction 1 as [| g c groups' cs' [_ Hi] _ IH]; constructor; assumption.
Qed.

Lemma made_joined groups cs :
  made groups cs ->
  Forall (all_adjacent joined) groups ->
  Forall (fun c => all_adjacent joins (PhotoCluster.photos c)) cs.
Proof.
  induction 1 as [| g c groups' cs' [Hp _] _ IH]; intros H; constructor.
  - rewrite Hp. apply all_adjacent_map. inversion H; subst.
    eapply all_adjacent_impl; [ | eassumption ].
    intros x y Hxy. now apply belongsToCluster_joins.
  - apply IH. now inversion H.
Qed.

Lemma made_separated groups cs :
  made groups cs ->
  all_adjacent separated groups -> all_adjacent split_between cs.
Proof.
  induction 1 as [| g c groups' cs' [Hp _] Hrest IH]; [ trivial | ].
  destruct Hrest as [| g' c' groups'' cs'' [Hp' _] Hrest']; [ trivial | ].
  intros [(previous & photo & Hl & Hh & Hb) Hs]. split.
  - exists (toMetadata previous), (toMetadata photo).
    rewrite Hp, Hp', last_opt_map, hd_error_map, Hl, Hh.
    repeat split. intros Hj. apply belongsToCluster_joins in Hj. congruence.
  - apply IH. exact Hs.
Qed.
End Transfer.

(** [clusterPhotos] never throws: it returns the clusters made of the groups
    of the sorted photos, one identifier drawn for each. *)
Lemma clusterPhotos_returns (rng : Entropy) (photos : list PhotoAnalysis.t)
    (trip : Trip.t) (drawn : nat) :
  exists cs,
    clusterPhotos rng photos trip drawn = Some (cs, (drawn + List.length cs)%nat) /\
    Forall2 made_of (chain_groups (Array_sort byTimestamp photos)) cs.
Proof.
  rewrite clusterPhotos_groups.
  destruct (@finalizeAll_spec rng (Trip.id trip)
              (chain_groups (Array_sort byTimestamp photos)) drawn
              (chain_groups_nonempty _)) as (cs & Heq & Hmade).
  exists cs. split; [ | exact Hmade ].
  rewrite Heq. now rewrite (Forall2_length Hmade).
Qed.

(** C1. [clusterPhotos] walks the photos sorted by ascending timestamp.
    Inside a cluster every photo joined the photo appended just before it:
    it is at most 3,600,000 ms later and, when both carry a location, at
    most 200 m away (no test of distance when one of them has none). Between
    two clusters in a row, the first photo of the second failed that test
    against the last photo of the first. Every photo of the sorted
    sequence is in a cluster, the last cluster included. *)
Theorem clusterPhotos_chain (rng : Entropy) (photos : list PhotoAnalysis.t)
    (trip : Trip.t) (drawn : nat) :
  exists cs drawn',
    clusterPhotos rng photos trip drawn = Some (cs, drawn') /\
    StronglySorted
      (fun a b => PhotoAnalysis.timestamp a <= PhotoAnalysis.timestamp b)
      (Array_sort byTimestamp photos) /\
    List.concat (map PhotoCluster.photos cs)
      = map toMetadata (Array_sort byTimestamp photos) /\
    Forall (fun c => all_adjacent joins (PhotoCluster.photos c)) cs /\
    all_adjacent split_between cs.
Proof.
  destruct (clusterPhotos_returns rng photos trip drawn) as (cs & Heq & Hmade).
  exists cs, (drawn + List.length cs)%nat.
  split; [ exact Heq | ].
  split; [ apply Array_sort_sorted | ].
  split; [ rewrite (made_concat Hmade); now rewrite chain_groups_concat | ].
  split.
  - apply (made_joined Hmade), chain_groups_joined.
  - apply (made_separated Hmade), chain_groups_separated.
Qed.

(** C2. Every cluster made by [clusterPhotos] starts at the timestamp of
    its first photo, ends at the timestamp of its last photo, and has for
    centre the arithmetic mean of the latitudes and of the longitudes of
    its photos that carry a location, or the point (0, 0) when none does. *)
Theorem clusterPhotos_invariant (rng : Entropy) (photos : list PhotoAnalysis.t)
    (trip : Trip.t) (drawn : nat) :
  exists cs drawn',
    clusterPhotos rng photos trip drawn = Some (cs, drawn') /\
    Forall cluster_invariant cs.
Proof.
  destruct (clusterPhotos_returns rng photos trip drawn) as (cs & Heq & Hmade).
  exists cs, (drawn + List.length cs)%nat.
  split; [ exact Heq | apply (made_invariant Hmade) ].
Qed.

(** C10. The clusters made by [clusterPhotos] partition the input: no
    cluster is empty, and their photos, put end to end in the order of the
    clusters, are the photos of the input sorted by ascending timestamp,
    a permutation of the input in which photos of one timestamp keep their
    order. No photos give no cluster, and one photo gives one cluster that
    holds it. *)
Theorem clusterPhotos_partition (rng : Entropy) (photos : list PhotoAnalysis.t)
    (trip : Trip.t) (drawn : nat) :
  exists cs drawn',
    clusterPhotos rng photos trip drawn = Some (cs, drawn') /\
    Forall (fun c => PhotoCluster.photos c <> []) cs /\
    List.concat (map PhotoCluster.photos cs)
      = map toMetadata (Array_sort byTimestamp photos) /\
    Permutation (Array_sort byTimestamp photos) photos /\
    StronglySorted
      (fun a b => PhotoAnalysis.timestamp a <= PhotoAnalysis.timestamp b)
      (Array_sort byTimestamp photos) /\
    (forall t : Date,
        filter (fun p => PhotoAnalysis.timestamp p =? t) (Array_sort byTimestamp photos)
        = filter (fun p => PhotoAnalysis.timestamp p =? t) photos) /\
    (photos = [] -> cs = []) /\
    (forall p, photos = [p] ->
       exists c, cs = [c] /\ PhotoCluster.photos c = [toMetadata p]).
Proof.
  destruct (clusterPhotos_returns rng photos trip drawn) as (cs & Heq & Hmade).
  exists cs, (drawn + List.length cs)%nat.
  split; [ exact Heq | ].
  split; [ apply (made_nonempty Hmade), chain_groups_nonempty | ].
  split; [ rewrite (made_concat Hmade); now rewrite chain_groups_concat | ].
  split; [ apply Array_sort_Permutation | ].
  split; [ apply Array_sort_sorted | ].
  split; [ intros t; apply Array_sort_stable | ].
  split.
  - intros ->. simpl in Hmade. now inversion Hmade.
  - intros p ->. simpl in Hmade.
    inversion Hmade as [| g c groups' cs' [Hp _] Hrest]; subst.
    inversion Hrest; subst. now exists c.
Qed.

(* ================================================================== *)
(** * Properties: retry with backoff *)
(* ================================================================== *)

Section RetryFacts.
Variables T E : Type.
Variable fn : nat -> T + E.
Variable maxRetries : nat.
Variable baseDelay : Z.

Let delay (i : nat) : Z := baseDelay * 2 ^ Z.of_nat i.
Let loop := Retry.loop fn maxRetries baseDelay.

(** The loop calls [fn] at most once for each iteration left. *)
Lemma loop_calls_bound (fuel i : nat) (st : Retry.state E) :
  (Retry.calls (snd (loop fuel i st)) <= Retry.calls st + fuel)%nat.
Proof.
  revert i st. induction fuel as [| fuel IH]; intros i st; simpl.
  - lia.
  - destruct (fn (Retry.calls st)) as [v | e]; simpl; [ lia | ].
    destruct (Z.of_nat i <? Z.of_nat maxRetries - 1);
      (eapply Nat.le_trans; [ apply IH | simpl; lia ]).
Qed.

(** One iteration, on a success and on a failure. *)
Lemma loop_returns (fuel i : nat) (st : Retry.state E) (v : T) :
  fn (Retry.calls st) = inl v ->
  loop (S fuel) i st
  = (inl v, Retry.mk (S (Retry.calls st)) (Retry.slept st)
              (Retry.lastError st)).
Proof. intros H. unfold loop. simpl. now rewrite H. Qed.

Lemma loop_retries (fuel i : nat) (st : Retry.state E) (e : E) :
  fn (Retry.calls st) = inr e ->
  loop (S fuel) i st
  = loop fuel (S i)
      (Retry.mk (S (Retry.calls st))
         (if Z.of_nat i <? Z.of_nat maxRetries - 1
          then Retry.slept st ++ [delay i] else Retry.slept st)
         (Some e)).
Proof.
  intros H. unfold loop. simpl. rewrite H.
  now destruct (Z.of_nat i <? Z.of_nat maxRetries - 1).
Qed.

(** [k] failures and then a success, with iterations to spare. *)
Lemma loop_succeeds (k : nat) :
  forall (fuel i : nat) (st : Retry.state E) (v : T),
    (k < fuel)%nat -> (i + fuel = maxRetries)%nat ->
    (forall n, (n < k)%nat -> exists e, fn (Retry.calls st + n) = inr e) ->
    fn (Retry.calls st + k) = inl v ->
    fst (loop fuel i st) = inl v /\
    Retry.calls (snd (loop fuel i st)) = (Retry.calls st + k + 1)%nat /\
    Retry.slept (snd (loop fuel i st)) = Retry.slept st ++ map delay (seq i k).
Proof.
  induction k as [| k IH]; intros fuel i st v Hk Hi Hfail Hok;
    (destruct fuel as [| fuel]; [ lia | ]).
  - rewrite Nat.add_0_r in Hok. rewrite (loop_returns _ _ _ Hok). simpl.
    repeat split; [ lia | now rewrite app_nil_r ].
  - destruct (Hfail 0%nat) as [e He]; [ lia | ].
    rewrite Nat.add_0_r in He. rewrite (loop_retries _ _ _ He).
    replace (Z.of_nat i <? Z.of_nat maxRetries - 1) with true
      by (symmetry; apply Z.ltb_lt; lia).
    match goal with |- context [loop fuel ?j ?s] =>
      destruct (IH fuel j s v) as (H1 & H2 & H3) end.
    + lia.
    + lia.
    + intros n Hn. simpl. destruct (Hfail (S n)) as [e' He']; [ lia | ].
      exists e'. now rewrite <- He', Nat.add_succ_r.
    + simpl. now rewrite <- Hok, Nat.add_succ_r.
    + rewrite H1, H2, H3. simpl.
      repeat split; [ lia | now rewrite <- app_assoc ].
Qed.

(** A failure at every iteration left: the last error is thrown, and no
    delay follows the last attempt. *)
Lemma loop_exhausted (fuel : nat) :
  forall (i : nat) (st : Retry.state E) (e : E),
    (i + S fuel = maxRetries)%nat ->
    (forall n, (n < fuel)%nat -> exists e', fn (Retry.calls st + n) = inr e') ->
    fn (Retry.calls st + fuel) = inr e ->
    fst (loop (S fuel) i st) = inr (Some e) /\
    Retry.calls (snd (loop (S fuel) i st))
      = (Retry.calls st + S fuel)%nat /\
    Retry.slept (snd (loop (S fuel) i st))
      = Retry.slept st ++ map delay (seq i fuel).
Proof.
  induction fuel as [| fuel IH]; intros i st e Hi Hfail Hlast.
  - rewrite Nat.add_0_r in Hlast. rewrite (loop_retries _ _ _ Hlast).
    replace (Z.of_nat i <? Z.of_nat maxRetries - 1) with false
      by (symmetry; apply Z.ltb_ge; lia).
    simpl. repeat split; [ lia | now rewrite app_nil_r ].
  - destruct (Hfail 0%nat) as [e0 He0]; [ lia | ].
    rewrite Nat.add_0_r in He0. rewrite (loop_retries _ _ _ He0).
    replace (Z.of_nat i <? Z.of_nat maxRetries - 1) with true
      by (symmetry; apply Z.ltb_lt; lia).
    match goal with |- context [loop _ ?j ?s] =>
      destruct (IH j s e) as (H1 & H2 & H3) end.
    + lia.
    + intros n Hn. simpl. destruct (Hfail (S n)) as [e' He']; [ lia | ].
      exists e'. now rewrite <- He', Nat.add_succ_r.
    + simpl. now rewrite <- Hlast, Nat.add_succ_r.
    + rewrite H1, H2, H3. simpl.
      repeat split; [ lia | now rewrite <- app_assoc ].
Qed.
End RetryFacts.

(** C4, as the code has it. [retryWithBackoff] makes at most [maxRetries]
    attempts in all, the first one included, so at most [maxRetries - 1]
    retries. An operation that fails [k] times, [k < maxRetries], and then
    succeeds, returns its value after [k + 1] calls and exactly the [k]
    delays [baseDelay * 2^0], ..., [baseDelay * 2^(k - 1)]. An operation
    that fails at all of the [maxRetries] attempts has its last error
    thrown, after [maxRetries - 1] delays and none after the last attempt.
    With the default 3 and 1000 ms, two failures and then a success
    return the value after the delays 1000 and 2000. *)
Theorem retryWithBackoff_attempts (T E : Type) (fn : nat -> T + E)
    (maxRetries : nat) (baseDelay : Z) :
  (Retry.calls (snd (retryWithBackoff fn maxRetries baseDelay)) <= maxRetries)%nat /\
  (forall (k : nat) (v : T),
      (k < maxRetries)%nat ->
      (forall n, (n < k)%nat -> exists e, fn n = inr e) ->
      fn k = inl v ->
      fst (retryWithBackoff fn maxRetries baseDelay) = inl v /\
      Retry.calls (snd (retryWithBackoff fn maxRetries baseDelay)) = (k + 1)%nat /\
      Retry.slept (snd (retryWithBackoff fn maxRetries baseDelay))
        = backoff_delays baseDelay k) /\
  (forall e : E,
      (0 < maxRetries)%nat ->
      (forall n, (n < maxRetries)%nat -> exists e', fn n = inr e') ->
      fn (maxRetries - 1)%nat = inr e ->
      fst (retryWithBackoff fn maxRetries baseDelay) = inr (Some e) /\
      Retry.calls (snd (retryWithBackoff fn maxRetries baseDelay)) = maxRetries /\
      Retry.slept (snd (retryWithBackoff fn maxRetries baseDelay))
        = backoff_delays baseDelay (maxRetries - 1)) /\
  (forall (err : nat -> E) (v : T),
      fst (retryWithBackoff (fails_then_succeeds 2 err v)
             DEFAULT_MAX_RETRIES DEFAULT_BASE_DELAY) = inl v /\
      Retry.slept (snd (retryWithBackoff (fails_then_succeeds 2 err v)
                          DEFAULT_MAX_RETRIES DEFAULT_BASE_DELAY))
        = [1000; 2000]).
Proof.
  unfold retryWithBackoff. split; [ | split; [ | split ] ].
  - apply (loop_calls_bound fn maxRetries baseDelay maxRetries 0 (Retry.initial E)).
  - intros k v Hk Hfail Hok.
    apply (@loop_succeeds T E fn maxRetries baseDelay k maxRetries 0%nat
             (Retry.initial E) v); simpl; auto.
  - intros e Hpos Hfail Hlast.
    destruct maxRetries as [| m]; [ lia | ].
    replace (S m - 1)%nat with m in * by lia.
    apply (@loop_exhausted T E fn (S m) baseDelay m 0%nat
             (Retry.initial E) e); simpl; auto.
  - intros err v. split; reflexivity.
Qed.

(* ================================================================== *)
(** * Properties: location tracking *)
(* ================================================================== *)

Section TrackerFacts.
Variable rng : Entropy.

(** [captureLocation] writes neither the state nor the trip. *)
Lemma captureLocation_session (dev : Device.t) (w : World.t) :
  TrackerService.state (World.service (captureLocation rng dev w))
    = TrackerService.state (World.service w) /\
  TrackerService.currentTripId (World.service (captureLocation rng dev w))
    = TrackerService.currentTripId (World.service w) /\
  TrackerService.trackingInterval (World.service (captureLocation rng dev w))
    = TrackerService.trackingInterval (World.service w).
Proof.
  unfold captureLocation.
  destruct (getCurrentLocation dev) as [l |]; [ | now simpl ].
  destruct (TrackerService.lastLocation (World.service w)); now simpl.
Qed.

(** A stopped tracker holds no trip. *)
Lemma reachable_stopped_without_trip (w : World.t) :
  reachable rng w ->
  TrackerService.state (World.service w) = stopped ->
  TrackerService.currentTripId (World.service w) = None.
Proof.
  induction 1 as [| dev c w Hw IH]; [ reflexivity | ].
  destruct c as [| tripId | | | | |]; simpl.
  - unfold initialize. simpl.
    destruct (World.trackerConfig w) as [c |]; simpl;
      [ destruct (TrackerConfig.isActive c && truthy (TrackerConfig.currentTripId c)) | ];
      simpl; exact IH.
  - unfold startTracking.
    destruct (negb (checkLocationPermission dev)); simpl; [ exact IH | ].
    match goal with |- context [captureLocation rng dev ?w0] =>
      destruct (captureLocation_session dev w0) as (Hs & _ & _) end.
    rewrite Hs. simpl.
    destruct (TrackerService.config (World.service w)); simpl; discriminate.
  - intros _. unfold stopTracking, stopTracking_after_sync, syncPendingLocations.
    simpl.
    destruct (Z.of_nat (List.length (World.pendingLocations w)) =? 0); simpl;
      destruct (TrackerService.config (World.service w)); reflexivity.
  - discriminate.
  - unfold resumeTracking.
    destruct (negb (truthy (TrackerService.currentTripId (World.service w))));
      simpl; [ exact IH | ].
    match goal with |- context [captureLocation rng dev ?w0] =>
      destruct (captureLocation_session dev w0) as (Hs & _ & _) end.
    rewrite Hs. simpl. discriminate.
  - destruct (TrackerService.trackingInterval (World.service w)); [ | exact IH ].
    unfold trackingTick.
    destruct (TrackerService.state (World.service w)) eqn:Hst;
      try (rewrite Hst; exact IH).
    destruct (captureLocation_session dev w) as (Hs & _ & _).
    rewrite Hs, Hst. discriminate.
  - destruct (TrackerService.syncInterval (World.service w)); [ | exact IH ].
    unfold syncPendingLocations.
    destruct (Z.of_nat (List.length (World.pendingLocations w)) =? 0); exact IH.
Qed.

(** [startTrackingLoop] gives the timer the interval of the activity, and
    the capture it starts leaves the timer as it is. *)
Lemma startTrackingLoop_interval (dev : Device.t) (w : World.t) :
  TrackerService.trackingInterval (World.service (fst (startTrackingLoop rng dev w)))
    = Some (getUpdateInterval (World.service w)) /\
  TrackerService.trackingInterval
    (World.service (snd (startTrackingLoop rng dev w) (fst (startTrackingLoop rng dev w))))
    = Some (getUpdateInterval (World.service w)).
Proof.
  unfold startTrackingLoop. cbv zeta. simpl. split; [ reflexivity | ].
  match goal with |- context [captureLocation rng dev ?w0] =>
    destruct (captureLocation_session dev w0) as (_ & _ & Hi) end.
  now rewrite Hi.
Qed.

(** No call looks at the battery level of the device. *)
Lemma perform_battery (dev : Device.t) (level : R) (c : Call) (w : World.t) :
  perform rng (Device.with_battery level dev) c w = perform rng dev c w.
Proof. destruct c; reflexivity. Qed.
End TrackerFacts.

Section TrackerTheorems.
Variable rng : Entropy.

(** C3, as the code has it. The interval of [getUpdateInterval] depends
    on the current activity alone: 30 s for walking, driving, train and
    flying, 600 s for stationary (and 300 s for cycling). It is the period
    given to the tracking timer each time the tracking loop is started; a
    tick of the timer, which may change the activity, leaves the period as
    it is. No call on the tracker depends on the battery level of the
    device. *)
Theorem getUpdateInterval_by_activity (dev : Device.t) (w : World.t)
    (level : R) (c : Call) :
  getUpdateInterval (World.service w)
    = interval_of_activity (TrackerService.currentActivity (World.service w)) /\
  TrackerService.trackingInterval (World.service (fst (startTrackingLoop rng dev w)))
    = Some (interval_of_activity (TrackerService.currentActivity (World.service w))) /\
  TrackerService.trackingInterval (World.service (trackingTick rng dev w))
    = TrackerService.trackingInterval (World.service w) /\
  perform rng (Device.with_battery level dev) c w = perform rng dev c w.
Proof.
  split; [ | split; [ | split ] ].
  - unfold getUpdateInterval.
    now destruct (TrackerService.currentActivity (World.service w)).
  - destruct (startTrackingLoop_interval rng dev w) as [-> _].
    unfold getUpdateInterval.
    now destruct (TrackerService.currentActivity (World.service w)).
  - unfold trackingTick.
    destruct (TrackerService.state (World.service w)); try reflexivity.
    apply captureLocation_session.
  - apply perform_battery.
Qed.

(** C6, as the code has it. [stopTracking] first writes the state
    [stopped] and clears the trip, then clears both timers, and only then
    runs its final sync, on a tracker that is already stopped; the sync
    leaves the pending locations where they are. After [stopTracking]
    the tracker is stopped, holds no trip and no timer, and still holds
    the last location and the activity it had; the configuration, if
    any, is saved as inactive and without trip. *)
Theorem stopTracking_effect (w : World.t) :
  (TrackerService.state (World.service (stopTracking_before_sync w)) = stopped /\
   TrackerService.currentTripId (World.service (stopTracking_before_sync w)) = None /\
   World.pendingLocations (stopTracking_before_sync w) = World.pendingLocations w) /\
  TrackerService.state (World.service (stopTracking w)) = stopped /\
  TrackerService.currentTripId (World.service (stopTracking w)) = None /\
  TrackerService.trackingInterval (World.service (stopTracking w)) = None /\
  TrackerService.syncInterval (World.service (stopTracking w)) = None /\
  TrackerService.lastLocation (World.service (stopTracking w))
    = TrackerService.lastLocation (World.service w) /\
  TrackerService.currentActivity (World.service (stopTracking w))
    = TrackerService.currentActivity (World.service w) /\
  World.pendingLocations (stopTracking w) = World.pendingLocations w /\
  TrackerService.config (World.service (stopTracking w))
    = option_map deactivated (TrackerService.config (World.service w)) /\
  World.trackerConfig (stopTracking w)
    = match TrackerService.config (World.service w) with
      | Some c => Some (deactivated c)
      | None => World.trackerConfig w
      end.
Proof.
  split; [ repeat split | ].
  unfold stopTracking, stopTracking_after_sync, syncPendingLocations. simpl.
  destruct (Z.of_nat (List.length (World.pendingLocations w)) =? 0); simpl;
    destruct (TrackerService.config (World.service w)) eqn:Hc; simpl;
    repeat split; exact Hc.
Qed.

(** C7. When the device denies the location permission, [startTracking]
    on a stopped tracker throws, and the session is as it was: the
    tracker is still stopped and holds no trip, no field of the tracker
    and nothing in the storage has changed. *)
Theorem startTracking_permission_denied (dev : Device.t) (tripId : string)
    (w : World.t) :
  reachable rng w ->
  checkLocationPermission dev = false ->
  TrackerService.state (World.service w) = stopped ->
  fst (startTracking rng dev tripId w) = Thrown "Location permission not granted" /\
  TrackerService.state (World.service (snd (startTracking rng dev tripId w)))
    = stopped /\
  TrackerService.currentTripId (World.service (snd (startTracking rng dev tripId w)))
    = None /\
  World.service (snd (startTracking rng dev tripId w)) = World.service w /\
  World.pendingLocations (snd (startTracking rng dev tripId w))
    = World.pendingLocations w /\
  World.trackerConfig (snd (startTracking rng dev tripId w))
    = World.trackerConfig w.
Proof.
  intros Hreach Hdenied Hstopped.
  pose proof (reachable_stopped_without_trip Hreach Hstopped) as Hnone.
  unfold startTracking. cbv zeta. rewrite Hdenied. simpl.
  repeat split; assumption.
Qed.
End TrackerTheorems.

Lemma startTracking_permission_denied_witness :
  fst (startTracking Sample.rng Sample.denied "trip-1" World_initial)
    = Thrown "Location permission not granted" /\
  TrackerService.state
    (World.service (snd (startTracking Sample.rng Sample.denied "trip-1" World_initial)))
    = stopped /\
  TrackerService.currentTripId
    (World.service (snd (startTracking Sample.rng Sample.denied "trip-1" World_initial)))
    = None /\
  World.service (snd (startTracking Sample.rng Sample.denied "trip-1" World_initial))
    = World.service World_initial /\
  World.pendingLocations
    (snd (startTracking Sample.rng Sample.denied "trip-1" World_initial))
    = World.pendingLocations World_initial /\
  World.trackerConfig
    (snd (startTracking Sample.rng Sample.denied "trip-1" World_initial))
    = World.trackerConfig World_initial.
Proof.
  apply (@startTracking_permission_denied Sample.rng Sample.denied "trip-1"
           World_initial).
  - apply reachable_initial.
  - reflexivity.
  - reflexivity.
Defined.

(* ================================================================== *)
(** * The sample inputs, run *)
(* ================================================================== *)

Lemma PI_bounds : (3 < PI <= 4)%R.
Proof. split; [ pose proof PI2_3_2; lra | apply PI_4 ]. Qed.

(** Two fixes on the equator, 4/10000 of a degree (about 44 m) and 30 s
    apart: a walk. *)
Lemma equator_walk (lon lon' : R) (t t' : Date) :
  (lon' - lon = 4 / 10000)%R -> t' - t = 30000 ->
  inferActivityFromSpeed
    (calculateSpeed (mkGeoPoint 0 lon) (mkGeoPoint 0 lon') t t') = walking.
Proof.
  intros Hlon Ht.
  apply speed_band_unique
    with (calculateSpeed (mkGeoPoint 0 lon) (mkGeoPoint 0 lon') t t');
    [ apply inferActivityFromSpeed_in_band | ].
  constructor.
  rewrite calculateSpeed_after by lia.
  rewrite calculateDistance_equator by lra.
  rewrite Hlon, Ht. pose proof PI_bounds. split; lra.
Qed.

(** The tracker after a start and one tick. *)
Lemma walking_world_session :
  reachable Sample.rng Sample.walking_world /\
  World.service Sample.walking_world
  = TrackerService.mk active (Some "trip-1"%string) (Some Sample.fix1) walking
      None (Some 600000) (Some 300000) /\
  World.pendingLocations Sample.walking_world = [Sample.raw0; Sample.raw1].
Proof.
  split; [ do 2 apply reachable_step; apply reachable_initial | ].
  unfold Sample.walking_world, Sample.started, perform, trackingTick, startTracking.
  simpl.
  replace (inferActivityFromSpeed (calculateSpeed Sample.here Sample.nearby 0 30000))
    with walking
    by (symmetry; apply equator_walk; simpl; (lra || lia)).
  split; reflexivity.
Qed.

(** The tracker after a pause and a resume: the timer has the interval of
    a walk. *)
Lemma resumed_world_session :
  reachable Sample.rng Sample.resumed_world /\
  World.service Sample.resumed_world
  = TrackerService.mk active (Some "trip-1"%string) (Some Sample.fix2) walking
      None (Some 30000) (Some 300000).
Proof.
  destruct walking_world_session as (Hr & Hs & _).
  split; [ do 2 apply reachable_step; exact Hr | ].
  unfold Sample.resumed_world. revert Hs. generalize Sample.walking_world.
  intros w Hs.
  unfold perform, pauseTracking, resumeTracking, startTrackingLoop, captureLocation.
  simpl. rewrite Hs. simpl.
  replace (inferActivityFromSpeed
             (calculateSpeed Sample.nearby Sample.farther 30000 60000))
    with walking
    by (symmetry; apply equator_walk; simpl; (lra || lia)).
  rewrite Hs. reflexivity.
Qed.

(** C3, the claim refuted. The sample tracker was started, ticked, paused
    and resumed on devices whose battery is at 10 %, below the threshold
    of 20 %; it is active and walking, and the period of its tracking
    timer, as the interval of [getUpdateInterval], is 30 s and not the
    600 s of a stationary tracker. *)
Lemma low_battery_keeps_active_interval :
  reachable Sample.rng Sample.resumed_world /\
  (Device.batteryLevel Sample.device0 < TRACKING_CONFIG.BATTERY_SAVER_THRESHOLD)%R /\
  (Device.batteryLevel Sample.device1 < TRACKING_CONFIG.BATTERY_SAVER_THRESHOLD)%R /\
  (Device.batteryLevel Sample.device2 < TRACKING_CONFIG.BATTERY_SAVER_THRESHOLD)%R /\
  TrackerService.state (World.service Sample.resumed_world) = active /\
  TrackerService.currentActivity (World.service Sample.resumed_world) = walking /\
  TrackerService.trackingInterval (World.service Sample.resumed_world) = Some 30000 /\
  getUpdateInterval (World.service Sample.resumed_world) = 30000 /\
  TRACKING_CONFIG.STATIONARY_INTERVAL = 600000.
Proof.
  destruct resumed_world_session as (Hr & Hs).
  split; [ exact Hr | ].
  do 3 (split; [ unfold TRACKING_CONFIG.BATTERY_SAVER_THRESHOLD; simpl; lra | ]).
  rewrite Hs. repeat split.
Qed.

(** C6, the claim refuted. [stopTracking] on the active sample tracker,
    which holds a last location and two pending locations: the tracker is
    already stopped, with the two locations still pending, when the final
    sync starts, and the last location is still held afterwards. *)
Lemma stopTracking_keeps_lastLocation :
  TrackerService.state (World.service Sample.walking_world) = active /\
  TrackerService.state
    (World.service (stopTracking_before_sync Sample.walking_world)) = stopped /\
  World.pendingLocations (stopTracking_before_sync Sample.walking_world)
    = [Sample.raw0; Sample.raw1] /\
  TrackerService.lastLocation (World.service (stopTracking Sample.walking_world))
    = Some Sample.fix1 /\
  World.pendingLocations (stopTracking Sample.walking_world)
    = [Sample.raw0; Sample.raw1].
Proof.
  destruct walking_world_session as (_ & Hs & Hp).
  revert Hs Hp. generalize Sample.walking_world. intros w Hs Hp.
  split; [ now rewrite Hs | ].
  split; [ reflexivity | ].
  split; [ exact Hp | ].
  unfold stopTracking, stopTracking_after_sync, syncPendingLocations.
  simpl. rewrite Hp. unfold stopTracking_before_sync. simpl.
  rewrite Hs. simpl. rewrite Hs, Hp. split; reflexivity.
Qed.

(** The four photos of minutes 0, 30, 65 and 200, without location: 65 is
    within the hour of 30, and 200 is not within the hour of 65. *)
Example album_clusters :
  option_map
    (fun r =>
       map (fun c => (map PhotoMetadata.nativeId (PhotoCluster.photos c),
                      PhotoCluster.startTime c, PhotoCluster.endTime c,
                      PhotoCluster.id c))
         (fst r))
    (clusterPhotos Sample.rng Sample.album Sample.trip 0)
  = Some [(["a"; "b"; "c"], 0, 3900000, "0"); (["d"], 12000000, 12000000, "1")]%string.
Proof. vm_compute. reflexivity. Qed.

Lemma there_is_far :
  belongsToCluster (Sample.photo "y" 10 (Some Sample.there))
    (Sample.photo "x" 0 (Some Sample.here)) = false.
Proof.
  unfold belongsToCluster. cbv zeta. simpl. apply Rleb_false.
  rewrite calculateDistance_sym. unfold Sample.here, Sample.there.
  rewrite calculateDistance_equator by lra.
  unfold CURATION_CONFIG.LOCATION_CLUSTER_RADIUS.
  pose proof PI_bounds. lra.
Qed.

Lemma nearby_is_near :
  belongsToCluster (Sample.photo "z" 1 (Some Sample.nearby))
    (Sample.photo "x" 0 (Some Sample.here)) = true.
Proof.
  unfold belongsToCluster. cbv zeta. simpl. apply Rleb_true.
  rewrite calculateDistance_sym. unfold Sample.here, Sample.nearby.
  rewrite calculateDistance_equator by lra.
  unfold CURATION_CONFIG.LOCATION_CLUSTER_RADIUS.
  pose proof PI_bounds. lra.
Qed.

(** Two photos ten minutes apart, within the hour, and about 500 m apart:
    two clusters. *)
Example located_album_clusters :
  option_map
    (fun r => map (fun c => map PhotoMetadata.nativeId (PhotoCluster.photos c)) (fst r))
    (clusterPhotos Sample.rng Sample.located_album Sample.trip 0)
  = Some [["x"]; ["y"]]%string.
Proof.
  rewrite clusterPhotos_groups. unfold Sample.located_album, chain_groups.
  cbn -[belongsToCluster finalizeAll].
  rewrite there_is_far. reflexivity.
Qed.

(** Two photos one minute and about 44 m apart: one cluster, centred
    half-way. *)
Example near_album_cluster :
  option_map
    (fun r =>
       map (fun c => (map PhotoMetadata.nativeId (PhotoCluster.photos c),
                      PhotoCluster.startTime c, PhotoCluster.endTime c))
         (fst r))
    (clusterPhotos Sample.rng Sample.near_album Sample.trip 0)
  = Some [(["x"; "z"]%string, 0, 60000)] /\
  option_map
    (fun r => map PhotoCluster.centerLocation (fst r))
    (clusterPhotos Sample.rng Sample.near_album Sample.trip 0)
  = Some [mkGeoPoint 0 (2 / 10000)].
Proof.
  rewrite clusterPhotos_groups. unfold Sample.near_album, chain_groups.
  cbn -[belongsToCluster finalizeAll].
  rewrite nearby_is_near. split; [ reflexivity | ].
  simpl. apply f_equal. apply (f_equal (fun c => [c])). apply f_equal2; lra.
Qed.

(** Three failures with the default three attempts: the third error is
    thrown after the delays 1000 and 2000, although a fourth attempt would
    have succeeded. *)
Lemma retryWithBackoff_three_failures :
  fst (retryWithBackoff Sample.flaky3 DEFAULT_MAX_RETRIES DEFAULT_BASE_DELAY)
    = inr (Some 2%nat) /\
  Retry.calls (snd (retryWithBackoff Sample.flaky3 DEFAULT_MAX_RETRIES DEFAULT_BASE_DELAY))
    = 3%nat /\
  Retry.slept (snd (retryWithBackoff Sample.flaky3 DEFAULT_MAX_RETRIES DEFAULT_BASE_DELAY))
    = [1000; 2000] /\
  Sample.flaky3 3%nat = inl "done"%string.
Proof. repeat split. Qed.

(** An operation that always fails, with the default three attempts: three
    calls, the delays 1000 and 2000, and the third error thrown. *)
Example retryWithBackoff_broken :
  retryWithBackoff Sample.broken DEFAULT_MAX_RETRIES DEFAULT_BASE_DELAY
  = (inr (Some 2%nat), Retry.mk 3 [1000; 2000] (Some 2%nat)).
Proof. reflexivity. Qed.

(** No attempt at all when [maxRetries] is 0: [undefined] is thrown. *)
Example retryWithBackoff_no_attempt :
  retryWithBackoff Sample.flaky2 0 DEFAULT_BASE_DELAY
  = (inr None, Retry.mk 0 [] None).
Proof. reflexivity. Qed.

Lemma retryWithBackoff_attempts_witness :
  fst (retryWithBackoff Sample.flaky2 3 1000) = inl "done"%string /\
  Retry.calls (snd (retryWithBackoff Sample.flaky2 3 1000)) = 3%nat /\
  Retry.slept (snd (retryWithBackoff Sample.flaky2 3 1000)) = backoff_delays 1000 2.
Proof.
  apply (proj1 (proj2 (retryWithBackoff_attempts Sample.flaky2 3 1000))
           2%nat "done"%string).
  - lia.
  - intros n Hn. exists n. unfold Sample.flaky2, fails_then_succeeds.
    now replace (n <? 2)%nat with true by (symmetry; apply Nat.ltb_lt; exact Hn).
  - reflexivity.
Defined.

Lemma calculateSpeed_spec_witness :
  (0 < IZR (30000 - 0) / 1000)%R /\
  calculateSpeed Sample.here Sample.nearby 0 30000
  = (calculateDistance Sample.here Sample.nearby / (IZR (30000 - 0) / 1000))%R.
Proof.
  apply (proj1 (calculateSpeed_spec Sample.here Sample.nearby 0 30000)). lia.
Defined.

(* ================================================================== *)
(** * Properties: [calculateDistance] in binary64 *)
(* ================================================================== *)

Module Binary64Facts.
Import Floats.
Import Binary64.
Local Open Scope float_scope.

Lemma INR_fact (n : nat) : INR (fact n) = IZR (factZ n).
Proof.
  induction n as [| n IH].
  - reflexivity.
  - rewrite fact_simpl, mult_INR, IH.
    change (factZ (S n)) with (Z.of_nat (S n) * factZ n)%Z.
    rewrite mult_IZR, <- INR_IZR_INZ. reflexivity.
Qed.

(** A bound of [Rtrigo_alt] by a partial sum, written out: the sum term by
    term, the factorials as numerals. *)
Ltac partial_sum H :=
  unfold sin_approx, cos_approx in H;
  cbn [sum_f_R0 Nat.mul Nat.add] in H;
  unfold sin_term, cos_term in H;
  cbn [Nat.mul Nat.add] in H;
  rewrite !INR_fact in H;
  repeat match type of H with
         | context [factZ ?n] =>
             let v := eval vm_compute in (factZ n) in
             change (factZ n) with v in H
         end.

(** The real value of a binary64 literal, as a fraction. *)
Ltac real_value :=
  unfold toR;
  match goal with
  | |- context [Prim2SF ?x] =>
      let v := eval vm_compute in (Prim2SF x) in change (Prim2SF x) with v
  end;
  cbn [powerRZ];
  repeat match goal with
         | |- context [Pos.to_nat ?p] =>
             let v := eval vm_compute in (Pos.to_nat p) in
             change (Pos.to_nat p) with v
         end;
  lra.

Lemma toR_eight_degrees :
  toR 0x1.1df46a2529d39p-3 = (5030569068109113 / 2 ^ 55)%R.
Proof. real_value. Qed.

Lemma toR_minus_eight_degrees :
  toR (-0x1.1df46a2529d39p-3) = (- (5030569068109113 / 2 ^ 55))%R.
Proof. real_value. Qed.

Lemma toR_right_angle :
  toR 0x1.921fb54442d18p+0 = (7074237752028440 / 2 ^ 52)%R.
Proof. real_value. Qed.

Lemma toR_sine : toR (-0x1.1d06c968d9e19p-3) = (- (5014239404989977 / 2 ^ 55))%R.
Proof. real_value. Qed.

Lemma toR_cosine : toR 0x1.fb046a930947ap-1 = (8919541810762874 / 2 ^ 53)%R.
Proof. real_value. Qed.

Lemma toR_one : toR 1 = 1%R.
Proof. real_value. Qed.

(** The sine of 8 degrees (of the binary64 number that stands for them),
    by the series: within 2^-56 of 5014239404989977 / 2^55. *)
Lemma sin_eight_degrees :
  (Rabs (sin (5030569068109113 / 2 ^ 55) - 5014239404989977 / 2 ^ 55)
   < / 2 ^ 56)%R.
Proof.
  assert (0 <= 5030569068109113 / 2 ^ 55 <= 4)%R as [H0 H4] by (split; lra).
  pose proof (pre_sin_bound _ 2 H0 H4) as [Hlo Hhi].
  partial_sum Hlo. partial_sum Hhi.
  apply Rabs_def1; lra.
Qed.

Lemma cos_eight_degrees :
  (Rabs (cos (5030569068109113 / 2 ^ 55) - 8919541810762874 / 2 ^ 53)
   < / 2 ^ 54)%R.
Proof.
  assert (-2 <= 5030569068109113 / 2 ^ 55 <= 2)%R as [H0 H2] by (split; lra).
  pose proof (pre_cos_bound _ 2 H0 H2) as [Hlo Hhi].
  partial_sum Hlo. partial_sum Hhi.
  apply Rabs_def1; lra.
Qed.

Lemma sin_right_angle :
  (Rabs (sin (7074237752028440 / 2 ^ 52) - 1) < / 2 ^ 54)%R.
Proof.
  assert (0 <= 7074237752028440 / 2 ^ 52 <= 4)%R as [H0 H4] by (split; lra).
  pose proof (pre_sin_bound _ 5 H0 H4) as [Hlo _].
  partial_sum Hlo.
  pose proof (SIN_bound (7074237752028440 / 2 ^ 52)) as [_ Hle].
  apply Rabs_def1; lra.
Qed.

(** The numbers of the host [table] are the binary64 numbers nearest to
    the sine and to the cosine of its arguments: each is off the real
    value by less than half the step of the binary64 numbers around it
    (2^-55 between 1/8 and 1/4, 2^-53 between 1/2 and 1, and 2^-53 just
    under 1, which no sine exceeds). *)
Lemma table_nearest :
  (Rabs (sin (toR (-0x1.1df46a2529d39p-3))
         - toR (Math_sin table (-0x1.1df46a2529d39p-3))) < / 2 ^ 56)%R /\
  (Rabs (cos (toR 0x1.1df46a2529d39p-3)
         - toR (Math_cos table 0x1.1df46a2529d39p-3)) < / 2 ^ 54)%R /\
  (Rabs (cos (toR (-0x1.1df46a2529d39p-3))
         - toR (Math_cos table (-0x1.1df46a2529d39p-3))) < / 2 ^ 54)%R /\
  (Rabs (sin (toR 0x1.921fb54442d18p+0)
         - toR (Math_sin table 0x1.921fb54442d18p+0)) < / 2 ^ 54)%R.
Proof.
  replace (Math_sin table (-0x1.1df46a2529d39p-3))
    with (-0x1.1d06c968d9e19p-3) by reflexivity.
  replace (Math_cos table 0x1.1df46a2529d39p-3)
    with 0x1.fb046a930947ap-1 by reflexivity.
  replace (Math_cos table (-0x1.1df46a2529d39p-3))
    with 0x1.fb046a930947ap-1 by reflexivity.
  replace (Math_sin table 0x1.921fb54442d18p+0) with 1 by reflexivity.
  rewrite toR_eight_degrees, toR_minus_eight_degrees, toR_right_angle,
    toR_sine, toR_cosine, toR_one.
  rewrite sin_neg, cos_neg.
  split; [ | split; [ | split ] ].
  - replace (- sin (5030569068109113 / 2 ^ 55)
             - - (5014239404989977 / 2 ^ 55))%R
      with (- (sin (5030569068109113 / 2 ^ 55)
               - 5014239404989977 / 2 ^ 55))%R by ring.
    rewrite Rabs_Ropp. exact sin_eight_degrees.
  - exact cos_eight_degrees.
  - exact cos_eight_degrees.
  - exact sin_right_angle.
Qed.

Lemma calculateDistance_of_haversine (M : Host) (point1 point2 : GeoPoint) :
  calculateDistance M point1 point2
  = 6371e3 * (2 * Math_atan2 M (sqrt (haversine M point1 point2))
                     (sqrt (1 - haversine M point1 point2))).
Proof. reflexivity. Qed.

(** C8, the code at two antipodal points. On a host that answers the
    nearest binary64 numbers for the sine of -8 degrees, the cosine of 8
    and of -8 degrees and the sine of a right angle, and whose
    [Math.atan2] answers [NaN] on a [NaN]: the two points are valid, the
    term [a] is 1.0000000000000002, above 1, the square root of [1 - a] is
    [NaN], and so is the distance of [calculateDistance], which does not
    clamp; with the clamp of the specification the distance would be that
    of [Math.atan2(1, 0)]. *)
Theorem calculateDistance_antipodal_NaN (M : Host) :
  Math_sin M (-0x1.1df46a2529d39p-3) = -0x1.1d06c968d9e19p-3 ->
  Math_cos M 0x1.1df46a2529d39p-3 = 0x1.fb046a930947ap-1 ->
  Math_cos M (-0x1.1df46a2529d39p-3) = 0x1.fb046a930947ap-1 ->
  Math_sin M 0x1.921fb54442d18p+0 = 1 ->
  (forall y : float, Math_atan2 M y nan = nan) ->
  isValidCoordinate north = true /\
  isValidCoordinate south = true /\
  haversine M north south = 0x1.0000000000001p+0 /\
  isNaN (sqrt (1 - haversine M north south)) = true /\
  isNaN (calculateDistance M north south) = true /\
  distanceMeters_clamped M north south = 6371e3 * (2 * Math_atan2 M 1 0).
Proof.
  intros Hs Hc Hc' Hs1 Hnan.
  assert (haversine M north south = 0x1.0000000000001p+0) as Ha.
  { unfold haversine, north, south. cbv zeta. cbn [latitude longitude].
    replace ((-8 - 8) * Math_PI / 180 / 2) with (-0x1.1df46a2529d39p-3)
      by reflexivity.
    replace (8 * Math_PI / 180) with (0x1.1df46a2529d39p-3) by reflexivity.
    replace (-8 * Math_PI / 180) with (-0x1.1df46a2529d39p-3) by reflexivity.
    replace ((180 - 0) * Math_PI / 180 / 2) with (0x1.921fb54442d18p+0)
      by reflexivity.
    rewrite Hs, Hc, Hc', Hs1. reflexivity. }
  split; [ reflexivity | ].
  split; [ reflexivity | ].
  split; [ exact Ha | ].
  split; [ rewrite Ha; reflexivity | ].
  split.
  - rewrite calculateDistance_of_haversine, Ha.
    replace (sqrt (1 - 0x1.0000000000001p+0)) with nan by reflexivity.
    rewrite Hnan. reflexivity.
  - unfold distanceMeters_clamped. cbv zeta. rewrite Ha. reflexivity.
Qed.

Lemma calculateDistance_antipodal_NaN_witness :
  isValidCoordinate north = true /\
  isValidCoordinate south = true /\
  haversine table north south = 0x1.0000000000001p+0 /\
  isNaN (sqrt (1 - haversine table north south)) = true /\
  isNaN (calculateDistance table north south) = true /\
  distanceMeters_clamped table north south = 6371e3 * (2 * Math_atan2 table 1 0).
Proof.
  apply (calculateDistance_antipodal_NaN table); try reflexivity.
Defined.
End Binary64Facts.

(* ================================================================== *)
(** * Properties: more of the helpers *)
(* ================================================================== *)

Section DurationFacts.
Local Open Scope Z_scope.

(** X1. [calculateDuration], for an end that is not before the start: the
    hours are those of a day and the minutes those of an hour, and the
    three parts make up the difference but for less than a minute. *)
Theorem calculateDuration_parts (start end' : Date) :
  start <= end' ->
  0 <= Duration.days (calculateDuration start end') /\
  0 <= Duration.hours (calculateDuration start end') < 24 /\
  0 <= Duration.minutes (calculateDuration start end') < 60 /\
  Duration.days (calculateDuration start end') * 86400000
  + Duration.hours (calculateDuration start end') * 3600000
  + Duration.minutes (calculateDuration start end') * 60000
    <= end' - start
    < Duration.days (calculateDuration start end') * 86400000
      + Duration.hours (calculateDuration start end') * 3600000
      + Duration.minutes (calculateDuration start end') * 60000 + 60000.
Proof.
  intros Hle. unfold calculateDuration. cbv zeta.
  cbn [Duration.days Duration.hours Duration.minutes].
  set (diff := end' - start). assert (0 <= diff) as Hd by (unfold diff; lia).
  change (1000 * 60 * 60 * 24) with 86400000.
  change (1000 * 60 * 60) with 3600000.
  change (1000 * 60) with 60000.
  rewrite !Z.rem_mod_nonneg by lia.
  Z.div_mod_to_equations. lia.
Qed.

Lemma calculateDuration_parts_witness :
  0 <= Duration.days (calculateDuration 0 93784005) /\
  0 <= Duration.hours (calculateDuration 0 93784005) < 24 /\
  0 <= Duration.minutes (calculateDuration 0 93784005) < 60 /\
  Duration.days (calculateDuration 0 93784005) * 86400000
  + Duration.hours (calculateDuration 0 93784005) * 3600000
  + Duration.minutes (calculateDuration 0 93784005) * 60000
    <= 93784005 - 0
    < Duration.days (calculateDuration 0 93784005) * 86400000
      + Duration.hours (calculateDuration 0 93784005) * 3600000
      + Duration.minutes (calculateDuration 0 93784005) * 60000 + 60000.
Proof. apply (@calculateDuration_parts 0 93784005). lia. Defined.

(** X2. [calculateDuration], for an end before the start: each part is
    rounded down on its own, so that no part is positive, the days are
    negative, and the three parts together never make up less than the
    difference in absolute value; when the difference is not a whole
    number of minutes, the hours and the minutes are negative too. *)
Theorem calculateDuration_backwards (start end' : Date) :
  end' < start ->
  Duration.days (calculateDuration start end') < 0 /\
  -24 <= Duration.hours (calculateDuration start end') <= 0 /\
  -60 <= Duration.minutes (calculateDuration start end') <= 0 /\
  Duration.days (calculateDuration start end') * 86400000
  + Duration.hours (calculateDuration start end') * 3600000
  + Duration.minutes (calculateDuration start end') * 60000
    <= end' - start /\
  (Z.rem (end' - start) 60000 <> 0 ->
   Duration.hours (calculateDuration start end') <= -1 /\
   Duration.minutes (calculateDuration start end') <= -1).
Proof.
  intros Hlt. unfold calculateDuration. cbv zeta.
  cbn [Duration.days Duration.hours Duration.minutes].
  set (diff := end' - start). assert (diff < 0) as Hd by (unfold diff; lia).
  change (1000 * 60 * 60 * 24) with 86400000.
  change (1000 * 60 * 60) with 3600000.
  change (1000 * 60) with 60000.
  assert (forall b, 0 < b -> Z.rem diff b = - ((- diff) mod b)) as Hrem.
  { intros b Hb. replace diff with (- - diff) at 1 by lia.
    rewrite Z.rem_opp_l by lia. now rewrite Z.rem_mod_nonneg by lia. }
  rewrite !Hrem by lia.
  Z.div_mod_to_equations. lia.
Qed.

Lemma calculateDuration_backwards_witness :
  Duration.days (calculateDuration 1 0) < 0 /\
  -24 <= Duration.hours (calculateDuration 1 0) <= 0 /\
  -60 <= Duration.minutes (calculateDuration 1 0) <= 0 /\
  Duration.days (calculateDuration 1 0) * 86400000
  + Duration.hours (calculateDuration 1 0) * 3600000
  + Duration.minutes (calculateDuration 1 0) * 60000
    <= 0 - 1 /\
  (Z.rem (0 - 1) 60000 <> 0 ->
   Duration.hours (calculateDuration 1 0) <= -1 /\
   Duration.minutes (calculateDuration 1 0) <= -1).
Proof. apply (@calculateDuration_backwards 1 0). lia. Defined.
End DurationFacts.

Section NumberFacts.
Local Open Scope R_scope.

(** [percentage]: 0 of a total of 0, without a division; otherwise the
    number whose hundredth part of the total is the value, between 0 and
    100 for a part of a positive total. *)
Lemma percentage_range (value total : R) :
  percentage value 0 = 0 /\
  (total <> 0 -> percentage value total * total = 100 * value) /\
  (0 < total -> 0 <= value <= total -> 0 <= percentage value total <= 100).
Proof.
  unfold percentage. split; [ | split ].
  - destruct (Req_dec_T 0 0); [ reflexivity | lra ].
  - intros H. destruct (Req_dec_T total 0); [ lra | ]. field. exact H.
  - intros Ht Hv. destruct (Req_dec_T total 0); [ lra | ].
    assert (0 <= value / total <= 1).
    { split.
      - apply Rmult_le_pos; [ lra | left; now apply Rinv_0_lt_compat ].
      - apply Rmult_le_reg_r with total; [ lra | ].
        replace (value / total * total) with value by (field; lra). lra. }
    lra.
Qed.
End NumberFacts.

Section StringFacts.
Local Open Scope Z_scope.

Lemma length_append (s s' : string) :
  String.length (s ++ s') = (String.length s + String.length s')%nat.
Proof. induction s as [| c s IH]; simpl; [ reflexivity | now rewrite IH ]. Qed.

Lemma length_substring_0 (n : nat) (s : string) :
  String.length (substring 0 n s) = Nat.min n (String.length s).
Proof.
  revert s. induction n as [| n IH]; intros s.
  - now destruct s.
  - destruct s as [| c s]; simpl; [ reflexivity | now rewrite IH ].
Qed.

Lemma prefix_substring_0 (n : nat) (s : string) :
  prefix (substring 0 n s) s = true.
Proof.
  revert s. induction n as [| n IH]; intros s.
  - now destruct s.
  - destruct s as [| c s]; simpl; [ reflexivity | ].
    destruct (Ascii.ascii_dec c c); [ apply IH | congruence ].
Qed.

(** X4. [truncate]. A string of at most [maxLength] characters is returned
    as it is. A longer one is cut to its first [maxLength - 3] characters
    (none when [maxLength] is below 3) followed by three dots, so the
    result has [maxLength] characters when [maxLength] is at least 3, and
    3 characters, more than asked for, when it is less. *)
Theorem truncate_length (str : string) (maxLength : Z) :
  (Z.of_nat (String.length str) <= maxLength -> truncate str maxLength = str) /\
  (maxLength < Z.of_nat (String.length str) ->
     exists head : string,
       truncate str maxLength = (head ++ "...")%string /\
       prefix head str = true /\
       Z.of_nat (String.length head) = Z.max (maxLength - 3) 0 /\
       Z.of_nat (String.length (truncate str maxLength)) = Z.max maxLength 3) /\
  (3 <= maxLength -> Z.of_nat (String.length (truncate str maxLength)) <= maxLength).
Proof.
  unfold truncate.
  destruct (Z.of_nat (String.length str) <=? maxLength) eqn:Hle;
    [ apply Z.leb_le in Hle | apply Z.leb_gt in Hle ].
  - split; [ reflexivity | ]. split; [ lia | lia ].
  - assert (Z.of_nat (String.length (substring 0 (Z.to_nat (maxLength - 3)) str))
            = Z.max (maxLength - 3) 0) as Hlen
      by (rewrite length_substring_0; lia).
    split; [ lia | ]. split.
    + intros _. exists (substring 0 (Z.to_nat (maxLength - 3)) str).
      split; [ reflexivity | ].
      split; [ apply prefix_substring_0 | ].
      split; [ exact Hlen | ].
      rewrite length_append. simpl String.length at 2. lia.
    + intros H3. rewrite length_append. simpl String.length at 2. lia.
Qed.
End StringFacts.

Section UniqueFacts.
Variable T : Type.
Variable same : forall x y : T, {x = y} + {x <> y}.

Lemma Set_of_In (array set : list T) (x : T) :
  In x (Set_of same set array) <-> In x set \/ In x array.
Proof.
  revert set. induction array as [| y array IH]; intros set; simpl.
  - tauto.
  - rewrite IH. destruct (in_dec same y set) as [Hy | Hy].
    + split; [ tauto | ]. intros [H | [<- | H]]; tauto.
    + rewrite in_app_iff. simpl. tauto.
Qed.

Lemma Set_of_NoDup (array set : list T) :
  NoDup set -> NoDup (Set_of same set array).
Proof.
  revert set. induction array as [| y array IH]; intros set Hset; simpl.
  - exact Hset.
  - apply IH.
    destruct (in_dec same y set) as [Hy | Hy]; [ exact Hset | ].
    apply NoDup_app; [ exact Hset | constructor; [ intros [] | constructor ] | ].
    intros x Hx [<- | []]. contradiction.
Qed.

Lemma Set_of_cons (x : T) (array set : list T) :
  Set_of same (x :: set) array
  = x :: Set_of same set
           (filter (fun y => if same x y then false else true) array).
Proof.
  revert set. induction array as [| y array IH]; intros set; [ reflexivity | ].
  simpl. destruct (same x y) as [<- | Hxy].
  - apply IH.
  - simpl. destruct (in_dec same y set) as [Hy | Hy].
    + apply IH.
    + apply (IH (set ++ [y])).
Qed.

Lemma Set_of_filter (p : T -> bool) (array set : list T) :
  Set_of same (filter p set) (filter p array) = filter p (Set_of same set array).
Proof.
  revert set. induction array as [| y array IH]; intros set; [ reflexivity | ].
  simpl. destruct (p y) eqn:Hp.
  - simpl. rewrite <- IH.
    destruct (in_dec same y set) as [Hy | Hy];
      destruct (in_dec same y (filter p set)) as [Hy' | Hy'].
    + reflexivity.
    + exfalso. apply Hy'. apply filter_In. now split.
    + exfalso. apply Hy. now apply filter_In in Hy'.
    + rewrite filter_app. simpl. now rewrite Hp.
  - rewrite <- IH. destruct (in_dec same y set) as [Hy | Hy]; [ reflexivity | ].
    rewrite filter_app. simpl. rewrite Hp. now rewrite app_nil_r.
Qed.

Lemma remove_filter (x : T) (l : list T) :
  remove same x l = filter (fun y => if same x y then false else true) l.
Proof.
  induction l as [| y l IH]; simpl; [ reflexivity | ].
  destruct (same x y); now rewrite IH.
Qed.

Lemma unique_cons (x : T) (array : list T) :
  unique same (x :: array) = x :: remove same x (unique same array).
Proof.
  unfold unique. simpl. rewrite Set_of_cons, remove_filter.
  now rewrite <- Set_of_filter.
Qed.

Lemma unique_NoDup (array : list T) : NoDup array -> unique same array = array.
Proof.
  induction array as [| x array IH]; intros H; [ reflexivity | ].
  inversion H as [| ? ? Hx Hnd]; subst.
  rewrite unique_cons, (IH Hnd). now rewrite notin_remove.
Qed.

(** X5. [unique] keeps the first occurrence of every element, in order: the
    result has no element twice and has the elements of the array; an
    element at the head stays at the head and its later occurrences go;
    an array without repetition is returned as it is, and so [unique]
    applied twice is [unique]. *)
Theorem unique_first_occurrences (array : list T) :
  NoDup (unique same array) /\
  (forall x, In x (unique same array) <-> In x array) /\
  (forall x, unique same (x :: array) = x :: remove same x (unique same array)) /\
  (NoDup array -> unique same array = array) /\
  unique same (unique same array) = unique same array.
Proof.
  assert (NoDup (unique same array)) as Hnd by (apply Set_of_NoDup; constructor).
  split; [ exact Hnd | ].
  split; [ intros x; unfold unique; rewrite Set_of_In; simpl; tauto | ].
  split; [ intros x; apply unique_cons | ].
  split; [ apply unique_NoDup | now apply unique_NoDup ].
Qed.
End UniqueFacts.

Section ShuffleFacts.
Variable T : Type.

Lemma Array_set_length (i : nat) (x : T) (array : list T) :
  List.length (Array_set i x array) = List.length array.
Proof.
  revert i. induction array as [| y array IH]; intros [| i]; simpl;
    try reflexivity.
  now rewrite IH.
Qed.

Lemma Array_set_nth_error (i n : nat) (x : T) (array : list T) :
  (i < List.length array)%nat ->
  nth_error (Array_set i x array) n
  = if (n =? i)%nat then Some x else nth_error array n.
Proof.
  revert i n. induction array as [| y array IH]; intros i n Hi; simpl in Hi.
  - lia.
  - destruct i as [| i]; destruct n as [| n]; simpl; try reflexivity.
    apply IH. lia.
Qed.

Lemma swap_Permutation (i j : nat) (array swapped : list T) :
  swap i j array = Some swapped -> Permutation array swapped.
Proof.
  unfold swap.
  destruct (nth_error array i) as [x |] eqn:Hx; [ | discriminate ].
  destruct (nth_error array j) as [y |] eqn:Hy; [ | discriminate ].
  intros [= <-].
  assert (i < List.length array)%nat as Hi
    by (apply nth_error_Some; congruence).
  assert (j < List.length array)%nat as Hj
    by (apply nth_error_Some; congruence).
  apply Permutation_nth_error. split.
  - now rewrite !Array_set_length.
  - exists (fun n => if (n =? j)%nat then i else if (n =? i)%nat then j else n).
    split.
    + intros n m.
      destruct (n =? j)%nat eqn:Hnj; destruct (m =? j)%nat eqn:Hmj;
        destruct (n =? i)%nat eqn:Hni; destruct (m =? i)%nat eqn:Hmi;
        repeat match goal with
               | H : (_ =? _)%nat = true |- _ => apply Nat.eqb_eq in H
               | H : (_ =? _)%nat = false |- _ => apply Nat.eqb_neq in H
               end; lia.
    + intros n.
      rewrite Array_set_nth_error by now rewrite Array_set_length.
      destruct (n =? j)%nat eqn:Hnj; [ now rewrite Hx | ].
      rewrite Array_set_nth_error by exact Hi.
      destruct (n =? i)%nat eqn:Hni; [ now rewrite Hy | reflexivity ].
Qed.

Lemma swap_returns (i j : nat) (array : list T) :
  (i < List.length array)%nat -> (j < List.length array)%nat ->
  exists swapped, swap i j array = Some swapped.
Proof.
  intros Hi Hj. unfold swap.
  destruct (nth_error array i) eqn:Hx;
    [ | apply nth_error_None in Hx; lia ].
  destruct (nth_error array j) eqn:Hy;
    [ | apply nth_error_None in Hy; lia ].
  eexists. reflexivity.
Qed.

(** The index drawn for position [i] is one of [0], ..., [i]. *)
Lemma Math_floor_index (r : R) (i : nat) :
  (0 <= r < 1)%R -> 0 <= Math_floor (r * IZR (Z.of_nat i + 1)) <= Z.of_nat i.
Proof.
  intros [H0 H1]. unfold Math_floor.
  assert (0 < IZR (Z.of_nat i + 1))%R as Hpos by (apply IZR_lt; lia).
  set (x := (r * IZR (Z.of_nat i + 1))%R).
  assert (0 <= x < IZR (Z.of_nat i + 1))%R as [Hx0 Hx1] by (unfold x; split; nra).
  destruct (base_Int_part x) as [Hlo Hhi].
  split.
  - assert (-1 < IZR (Int_part x))%R as H by lra.
    apply lt_IZR in H. lia.
  - assert (IZR (Int_part x) < IZR (Z.of_nat i + 1))%R as H by lra.
    apply lt_IZR in H. lia.
Qed.

Lemma shuffle_loop_Permutation (random : nat -> R) :
  (forall k, (0 <= random k < 1)%R) ->
  forall (i : nat) (array : list T) (drawn : nat),
    (i < List.length array)%nat \/ i = 0%nat ->
    exists shuffled,
      shuffle_loop random i array drawn = Some (shuffled, (drawn + i)%nat) /\
      Permutation array shuffled.
Proof.
  intros Hrandom. induction i as [| i IH]; intros array drawn Hi.
  - exists array. simpl. rewrite Nat.add_0_r. split; [ reflexivity | apply Permutation_refl ].
  - destruct Hi as [Hi | Hi]; [ | discriminate ].
    cbn [shuffle_loop]. cbv zeta.
    pose proof (Math_floor_index (S i) (Hrandom drawn)) as Hj.
    set (j := Math_floor (random drawn * IZR (Z.of_nat (S i) + 1))) in *.
    replace (j <? 0) with false by (symmetry; apply Z.ltb_ge; lia).
    destruct (@swap_returns (S i) (Z.to_nat j) array) as [swapped Hs];
      [ exact Hi | lia | ].
    rewrite Hs.
    destruct (IH swapped (S drawn)) as (shuffled & Heq & Hperm).
    { left. rewrite <- (Permutation_length (swap_Permutation _ _ _ Hs)). lia. }
    exists shuffled. split.
    + rewrite Heq. do 2 f_equal. lia.
    + apply perm_trans with swapped; [ | exact Hperm ].
      apply (swap_Permutation _ _ _ Hs).
Qed.

(** X6. [shuffle] with a [Math.random] that answers in [0, 1), as ECMAScript
    requires: every index drawn is an index of the array, one number is
    drawn for each position but the first, and the result is a
    permutation of the array. *)
Theorem shuffle_permutation (random : nat -> R) (array : list T) (drawn : nat) :
  (forall k, (0 <= random k < 1)%R) ->
  exists shuffled,
    shuffle random array drawn
      = Some (shuffled, (drawn + (List.length array - 1))%nat) /\
    Permutation array shuffled /\
    List.length shuffled = List.length array.
Proof.
  intros Hrandom. unfold shuffle.
  destruct (@shuffle_loop_Permutation random Hrandom
              (List.length array - 1)%nat array drawn) as (shuffled & Heq & Hperm).
  { destruct array; simpl; [ now right | left; lia ]. }
  exists shuffled. split; [ exact Heq | ]. split; [ exact Hperm | ].
  symmetry. now apply Permutation_length.
Qed.
End ShuffleFacts.

Lemma shuffle_permutation_witness :
  exists shuffled,
    shuffle (fun _ => (1 / 2)%R) [1; 2; 3; 4] 0
      = Some (shuffled, (0 + (List.length [1; 2; 3; 4] - 1))%nat) /\
    Permutation [1; 2; 3; 4] shuffled /\
    List.length shuffled = List.length [1; 2; 3; 4].
Proof.
  apply (@shuffle_permutation Z (fun _ => (1 / 2)%R) [1; 2; 3; 4] 0%nat).
  intros k. lra.
Defined.

Section GroupByFacts.
Variable T : Type.
Variable keyFn : T -> string.

(** The items of [array] whose key is [key], in order. *)
Let keyed (key : string) (array : list T) : list T :=
  filter (fun item => String.eqb (keyFn item) key) array.

Lemma own_property_None (key : string) (result : Groups T) :
  own_property key result = None <-> ~ In key (map fst result).
Proof.
  induction result as [| [k items] result IH]; simpl; [ tauto | ].
  destruct (String.eqb k key) eqn:Hk.
  - apply String.eqb_eq in Hk. split; [ discriminate | tauto ].
  - apply String.eqb_neq in Hk. rewrite IH. tauto.
Qed.

Lemma push_to_keys (key : string) (item : T) (result : Groups T) :
  map fst (push_to key item result) = map fst result.
Proof.
  induction result as [| [k items] result IH]; simpl; [ reflexivity | ].
  destruct (String.eqb k key); simpl; [ reflexivity | now rewrite IH ].
Qed.

Lemma own_property_push_to (key key' : string) (item : T) (result : Groups T) :
  own_property key' (push_to key item result)
  = if String.eqb key key'
    then option_map (fun items => items ++ [item]) (own_property key' result)
    else own_property key' result.
Proof.
  induction result as [| [k items] result IH]; simpl.
  - now destruct (String.eqb key key').
  - destruct (String.eqb k key) eqn:Hk; simpl.
    + apply String.eqb_eq in Hk. subst k.
      destruct (String.eqb key key'); reflexivity.
    + destruct (String.eqb k key') eqn:Hk'; [ | exact IH ].
      apply String.eqb_eq in Hk'. subst k.
      rewrite String.eqb_sym in Hk. now rewrite Hk.
Qed.

Lemma own_property_app (key key' : string) (items : list T) (result : Groups T) :
  own_property key' (result ++ [(key, items)])
  = match own_property key' result with
    | Some found => Some found
    | None => if String.eqb key key' then Some items else None
    end.
Proof.
  induction result as [| [k items'] result IH]; simpl; [ reflexivity | ].
  destruct (String.eqb k key'); [ reflexivity | exact IH ].
Qed.

Lemma groupBy_reduce_groups (array : list T) :
  forallb (fun item => negb (inherited (keyFn item))) array = true ->
  forall result : Groups T,
    NoDup (map fst result) ->
    exists result',
      groupBy_reduce keyFn array result = Some result' /\
      NoDup (map fst result') /\
      forall key,
        own_property key result'
        = match own_property key result, keyed key array with
          | Some items, more => Some (items ++ more)
          | None, [] => None
          | None, more => Some more
          end.
Proof.
  induction array as [| item array IH]; intros Hkeys result Hnd.
  - exists result. split; [ reflexivity | ]. split; [ exact Hnd | ].
    intros key. simpl. destruct (own_property key result); [ | reflexivity ].
    now rewrite app_nil_r.
  - simpl in Hkeys. apply andb_true_iff in Hkeys as [Hitem Hkeys].
    apply negb_true_iff in Hitem. cbn [groupBy_reduce]. cbv zeta.
    destruct (own_property (keyFn item) result) as [items |] eqn:Hown.
    + destruct (IH Hkeys (push_to (keyFn item) item result)) as (result' & Heq & Hnd' & Hgroups).
      { now rewrite push_to_keys. }
      exists result'. split; [ exact Heq | ]. split; [ exact Hnd' | ].
      intros key. rewrite Hgroups, own_property_push_to. unfold keyed. simpl.
      destruct (String.eqb (keyFn item) key) eqn:Hk.
      * apply String.eqb_eq in Hk. subst key. rewrite Hown. simpl.
        now rewrite <- app_assoc.
      * reflexivity.
    + rewrite Hitem.
      destruct (IH Hkeys (result ++ [(keyFn item, [item])])) as (result' & Heq & Hnd' & Hgroups).
      { rewrite map_app. simpl. apply NoDup_app; [ exact Hnd | | ].
        - constructor; [ intros [] | constructor ].
        - intros k Hk [<- | []]. now apply own_property_None in Hown. }
      exists result'. split; [ exact Heq | ]. split; [ exact Hnd' | ].
      intros key. rewrite Hgroups, own_property_app. unfold keyed. simpl.
      destruct (String.eqb (keyFn item) key) eqn:Hk.
      * apply String.eqb_eq in Hk. subst key. now rewrite Hown.
      * destruct (own_property key result); reflexivity.
Qed.

(** X7. [groupBy] on items whose keys are none of the names inherited from
    [Object.prototype]: the result has one property for each key that
    occurs, and no other; the property of a key holds the items of that
    key, all of them and in the order of the array. *)
Theorem groupBy_groups (array : list T) :
  forallb (fun item => negb (inherited (keyFn item))) array = true ->
  exists result,
    groupBy keyFn array = Some result /\
    NoDup (map fst result) /\
    forall key,
      own_property key result
      = match filter (fun item => String.eqb (keyFn item) key) array with
        | [] => None
        | items => Some items
        end.
Proof.
  intros Hkeys.
  destruct (@groupBy_reduce_groups array Hkeys [] (NoDup_nil _))
    as (result & Heq & Hnd & Hgroups).
  exists result. split; [ exact Heq | ]. split; [ exact Hnd | ].
  intros key. now rewrite Hgroups.
Qed.

Lemma groupBy_reduce_inherited (array : list T) :
  existsb (fun item => inherited (keyFn item)) array = true ->
  forall result : Groups T,
    forallb (fun k => negb (inherited k)) (map fst result) = true ->
    groupBy_reduce keyFn array result = None.
Proof.
  induction array as [| item array IH]; intros Hsome result Hresult;
    [ discriminate | ].
  cbn [groupBy_reduce]. cbv zeta. simpl in Hsome.
  destruct (own_property (keyFn item) result) as [items |] eqn:Hown.
  - assert (inherited (keyFn item) = false) as Hitem.
    { assert (In (keyFn item) (map fst result)) as Hin.
      { destruct (in_dec string_dec (keyFn item) (map fst result)) as [H | H];
          [ exact H | ].
        apply own_property_None in H. congruence. }
      rewrite forallb_forall in Hresult. apply Hresult in Hin.
      now apply negb_true_iff in Hin. }
    rewrite Hitem in Hsome. apply IH; [ exact Hsome | ].
    now rewrite push_to_keys.
  - destruct (inherited (keyFn item)) eqn:Hitem; [ reflexivity | ].
    apply IH; [ exact Hsome | ].
    rewrite map_app, forallb_app, Hresult. simpl. now rewrite Hitem.
Qed.

(** X8. [groupBy] throws as soon as one item has for key a name inherited
    from [Object.prototype], such as "constructor" or "toString": what
    [result[key]] then finds is no array. *)
Theorem groupBy_inherited_key (array : list T) :
  existsb (fun item => inherited (keyFn item)) array = true ->
  groupBy keyFn array = None.
Proof.
  intros Hsome. unfold groupBy. now apply groupBy_reduce_inherited.
Qed.
End GroupByFacts.

Lemma groupBy_groups_witness :
  exists result,
    groupBy (fun word => substring 0 1 word) ["apple"; "bean"; "avocado"]%string
      = Some result /\
    NoDup (map fst result) /\
    forall key,
      own_property key result
      = match filter (fun item => String.eqb (substring 0 1 item) key)
                ["apple"; "bean"; "avocado"]%string with
        | [] => None
        | items => Some items
        end.
Proof.
  apply (@groupBy_groups string (fun word => substring 0 1 word)
           ["apple"; "bean"; "avocado"]%string).
  reflexivity.
Defined.

Lemma groupBy_inherited_key_witness :
  groupBy (fun word : string => word) ["apple"; "constructor"]%string = None.
Proof.
  apply (@groupBy_inherited_key string (fun word => word)
           ["apple"; "constructor"]%string).
  reflexivity.
Defined.

(* ================================================================== *)
(** * Properties: more on distances and speeds *)
(* ================================================================== *)

Section DistanceFacts.
Local Open Scope R_scope.

(** X9. [calculateDistance] in exact arithmetic: the distance of two points
    does not depend on their order, a point is at distance 0 from
    itself, and no distance is negative or more than half of the
    circumference of the sphere of radius 6371 km. *)
Theorem calculateDistance_symmetric_bounded (point1 point2 : GeoPoint) :
  calculateDistance point1 point2 = calculateDistance point2 point1 /\
  calculateDistance point1 point1 = 0 /\
  0 <= calculateDistance point1 point2 <= 6371000 * PI.
Proof.
  split; [ apply calculateDistance_sym | ].
  split; [ apply calculateDistance_same | apply calculateDistance_bounds ].
Qed.

Lemma calculateDistance_north (lon lat1 lat2 : R) :
  0 <= lat2 - lat1 <= 180 ->
  calculateDistance (mkGeoPoint lat1 lon) (mkGeoPoint lat2 lon)
  = 6371000 * ((lat2 - lat1) * PI / 180).
Proof.
  intros Hlat. unfold calculateDistance. cbv zeta. simpl.
  assert (HPI := PI_RGT_0).
  replace ((lon - lon) * PI / 180 / 2) with 0 by lra.
  rewrite sin_0.
  set (x := (lat2 - lat1) * PI / 180 / 2).
  assert (0 <= x <= PI / 2) as Hx by (unfold x; split; nra).
  assert (0 <= sin x) as Hsin by (apply sin_ge_0; lra).
  assert (0 <= cos x) as Hcos by (apply cos_ge_0; lra).
  match goal with
  | |- context [sin x * sin x + ?c * 0 * 0] =>
      replace (sin x * sin x + c * 0 * 0) with (sin x * sin x) by ring
  end.
  rewrite (sqrt_square _ Hsin).
  replace (1 - sin x * sin x) with (cos x * cos x)
    by (pose proof (sin2_cos2 x) as H2; unfold Rsqr in H2; lra).
  rewrite (sqrt_square _ Hcos).
  unfold Math_atan2.
  destruct (Rltb 0 (cos x)) eqn:Hc;
    [ apply Rltb_true in Hc | apply Rltb_false in Hc ].
  - assert (x <> PI / 2) as Hne by (intros ->; rewrite cos_PI2 in Hc; lra).
    change (sin x / cos x) with (tan x).
    rewrite atan_tan by lra. unfold x. lra.
  - assert (cos x = 0) as Hc0 by lra.
    assert (x = PI / 2) as Hx2.
    { destruct (Req_dec x (PI / 2)) as [H | H]; [ exact H | ].
      assert (0 < cos x) by (apply cos_gt_0; lra). lra. }
    replace (Rltb (cos x) 0) with false by (symmetry; apply Rltb_false; lra).
    rewrite Hx2, sin_PI2.
    replace (Rltb 0 1) with true by (symmetry; apply Rltb_true; lra).
    unfold x in Hx2. lra.
Qed.

(** X10. Along a meridian the distance is the arc of the difference of the
    latitudes: 6371 km times that difference in radians, about 111.2 km
    for each degree. *)
Theorem calculateDistance_meridian (lon lat1 lat2 : R) :
  Rabs (lat2 - lat1) <= 180 ->
  calculateDistance (mkGeoPoint lat1 lon) (mkGeoPoint lat2 lon)
  = 6371000 * (Rabs (lat2 - lat1) * PI / 180).
Proof.
  intros Hlat. destruct (Rle_dec lat1 lat2) as [Hle | Hgt].
  - rewrite Rabs_right in * by lra. apply calculateDistance_north. lra.
  - rewrite Rabs_left in * by lra. rewrite calculateDistance_sym.
    rewrite calculateDistance_north by lra. lra.
Qed.

Lemma calculateDistance_meridian_witness :
  calculateDistance (mkGeoPoint 10 20) (mkGeoPoint 11 20)
  = 6371000 * (Rabs (11 - 10) * PI / 180).
Proof.
  apply (@calculateDistance_meridian 20 10 11).
  rewrite Rabs_right; lra.
Defined.

Lemma sin_shift_PI (x : R) : sin (x + PI) * sin (x + PI) = sin x * sin x.
Proof. rewrite neg_sin. ring. Qed.

Lemma haversine_turn (lat lon : R) (point2 : GeoPoint) :
  haversine (mkGeoPoint lat (lon - 360)) point2
  = haversine (mkGeoPoint lat lon) point2.
Proof.
  unfold haversine. simpl.
  replace ((longitude point2 - (lon - 360)) * PI / 180 / 2)
    with ((longitude point2 - lon) * PI / 180 / 2 + PI) by lra.
  set (x := (longitude point2 - lon) * PI / 180 / 2).
  rewrite !Rmult_assoc, sin_shift_PI. reflexivity.
Qed.

Lemma calculateDistance_turn (lat lon : R) (point2 : GeoPoint) :
  calculateDistance (mkGeoPoint lat (lon - 360)) point2
  = calculateDistance (mkGeoPoint lat lon) point2.
Proof. now rewrite !calculateDistance_haversine, haversine_turn. Qed.

(** The distance does not change when a longitude is given a number of
    full turns more or less: 190 degrees east is 170 degrees west. *)
Lemma calculateDistance_full_turns (n : nat) (lat lon : R) (point2 : GeoPoint) :
  calculateDistance (mkGeoPoint lat (lon + 360 * INR n)) point2
    = calculateDistance (mkGeoPoint lat lon) point2 /\
  calculateDistance (mkGeoPoint lat (lon - 360 * INR n)) point2
    = calculateDistance (mkGeoPoint lat lon) point2 /\
  calculateDistance point2 (mkGeoPoint lat (lon + 360 * INR n))
    = calculateDistance point2 (mkGeoPoint lat lon).
Proof.
  assert (forall l, calculateDistance (mkGeoPoint lat (l + 360 * INR n)) point2
                    = calculateDistance (mkGeoPoint lat l) point2) as Hup.
  { induction n as [| n IH]; intros l.
    - simpl. now replace (l + 360 * 0) with l by lra.
    - rewrite S_INR, <- (calculateDistance_turn lat (l + 360 * (INR n + 1))).
      replace (l + 360 * (INR n + 1) - 360) with (l + 360 * INR n) by lra.
      apply IH. }
  split; [ apply Hup | ]. split.
  - rewrite <- (Hup (lon - 360 * INR n)).
    now replace (lon - 360 * INR n + 360 * INR n) with lon by lra.
  - rewrite calculateDistance_sym, Hup. apply calculateDistance_sym.
Qed.

(** X11. A higher speed is never classified as a slower way of moving, and no
    speed is classified as cycling. *)
Theorem inferActivityFromSpeed_monotone (s s' : R) :
  s <= s' ->
  (activity_rank (inferActivityFromSpeed s)
   <= activity_rank (inferActivityFromSpeed s'))%nat /\
  inferActivityFromSpeed s <> cycling.
Proof.
  intros Hs.
  pose proof (inferActivityFromSpeed_in_band s) as Hb.
  pose proof (inferActivityFromSpeed_in_band s') as Hb'.
  split.
  - destruct Hb; destruct Hb'; simpl; (lia || lra).
  - destruct Hb; discriminate.
Qed.

Lemma inferActivityFromSpeed_monotone_witness :
  (activity_rank (inferActivityFromSpeed 1)
   <= activity_rank (inferActivityFromSpeed 30))%nat /\
  inferActivityFromSpeed 1 <> cycling.
Proof. apply (@inferActivityFromSpeed_monotone 1 30). lra. Defined.
End DistanceFacts.

(* ================================================================== *)
(** * Properties: identifiers *)
(* ================================================================== *)

Section UUIDFacts.
Import Ascii.
Import UUID.

Lemma ToInt32_nibble (r : R) :
  (0 <= r < 1)%R -> 0 <= ToInt32 (r * 16) <= 15.
Proof.
  intros [H0 H1]. unfold ToInt32, Math_trunc.
  replace (Rleb 0 (r * 16)) with true by (symmetry; apply Rleb_true; lra).
  destruct (base_Int_part (r * 16)) as [Hlo Hhi].
  assert (-1 < IZR (Int_part (r * 16)))%R as Ha by lra.
  assert (IZR (Int_part (r * 16)) < 16)%R as Hb by lra.
  apply lt_IZR in Ha, Hb.
  rewrite Z.mod_small by lia. lia.
Qed.

Lemma replacement_fits (r : R) (t : Ascii.ascii) :
  (0 <= r < 1)%R ->
  (Ascii.eqb t "x"%char || Ascii.eqb t "y"%char) = true ->
  exists c, replacement r t = String c EmptyString /\ fits t c = true.
Proof.
  intros Hr Ht. unfold replacement. cbv zeta.
  pose proof (ToInt32_nibble Hr) as Hn.
  remember (ToInt32 (r * 16)) as n eqn:Heqn. clear Heqn.
  assert (exists k : nat, (k < 16)%nat /\ n = Z.of_nat k) as (k & Hk & ->)
    by (exists (Z.to_nat n); lia).
  unfold fits.
  destruct (Ascii.eqb t "x"%char) eqn:Hx.
  - do 16 (destruct k as [| k]; [ eexists; split; reflexivity | ]). lia.
  - simpl in Ht. rewrite Ht.
    do 16 (destruct k as [| k]; [ eexists; split; reflexivity | ]). lia.
Qed.

Lemma fits_itself (t : Ascii.ascii) :
  (Ascii.eqb t "x"%char || Ascii.eqb t "y"%char) = false -> fits t t = true.
Proof.
  intros H. apply orb_false_iff in H as [Hx Hy]. unfold fits.
  rewrite Hx, Hy. apply Ascii.eqb_refl.
Qed.

Lemma fits_template_length (text s : string) :
  fits_template text s = true -> String.length s = String.length text.
Proof.
  revert s. induction text as [| t text IH]; intros [| c s]; simpl;
    try discriminate; [ reflexivity | ].
  intros H. apply andb_true_iff in H as [_ H]. now rewrite (IH s H).
Qed.

(** The number of [x] and [y] in a text. *)
Let count_xy (text : string) : nat :=
  List.length
    (filter (fun c => Ascii.eqb c "x"%char || Ascii.eqb c "y"%char)
       (list_ascii_of_string text)).

Lemma replace_xy_fits (random : nat -> R) (text : string) :
  (forall k, (0 <= random k < 1)%R) ->
  forall drawn,
    fits_template text (fst (replace_xy random text drawn)) = true /\
    snd (replace_xy random text drawn) = (drawn + count_xy text)%nat.
Proof.
  intros Hrandom. unfold count_xy.
  induction text as [| t text IH]; intros drawn; simpl.
  - split; [ reflexivity | lia ].
  - destruct (Ascii.eqb t "x"%char || Ascii.eqb t "y"%char) eqn:Ht.
    + destruct (IH (S drawn)) as [IH1 IH2].
      destruct (replace_xy random text (S drawn)) as [rest drawn'].
      destruct (replacement_fits t (Hrandom drawn) Ht) as (c & -> & Hc).
      simpl in *. rewrite Hc, IH1. split; [ reflexivity | lia ].
    + destruct (IH drawn) as [IH1 IH2].
      destruct (replace_xy random text drawn) as [rest drawn'].
      simpl in *. rewrite (fits_itself t Ht), IH1. split; [ reflexivity | lia ].
Qed.

(** X12. [generateUUID] with a [Math.random] that answers in [0, 1): the
    identifier has the 36 characters of the template, with a hexadecimal
    digit in lower case for each [x], one of 8, 9, a, b for the [y], and
    the four hyphens and the 4 where the template has them; 31 random
    numbers are drawn. *)
Theorem generateUUID_form (random : nat -> R) (drawn : nat) :
  (forall k, (0 <= random k < 1)%R) ->
  fits_template template (fst (generateUUID random drawn)) = true /\
  String.length (fst (generateUUID random drawn)) = 36%nat /\
  snd (generateUUID random drawn) = (drawn + 31)%nat.
Proof.
  intros Hrandom. unfold generateUUID.
  destruct (@replace_xy_fits random template Hrandom drawn) as [Hfits Hdrawn].
  split; [ exact Hfits | ].
  split; [ now rewrite (fits_template_length _ _ Hfits) | exact Hdrawn ].
Qed.
End UUIDFacts.

Lemma generateUUID_form_witness :
  UUID.fits_template UUID.template
    (fst (UUID.generateUUID (fun _ => (1 / 2)%R) 0)) = true /\
  String.length (fst (UUID.generateUUID (fun _ => (1 / 2)%R) 0)) = 36%nat /\
  snd (UUID.generateUUID (fun _ => (1 / 2)%R) 0) = (0 + 31)%nat.
Proof.
  apply (@generateUUID_form (fun _ => (1 / 2)%R) 0%nat).
  intros k. lra.
Defined.

(* ================================================================== *)
(** * Properties: [isValidCoordinate] in binary64 *)
(* ================================================================== *)

Section Binary64Validity.
Import Floats.
Import Binary64.
Local Open Scope float_scope.

Lemma SFeqb_refl_finite (s : bool) (m : positive) (e : Z) :
  SFeqb (S754_finite s m e) (S754_finite s m e) = true.
Proof.
  unfold SFeqb, SFcompare.
  destruct s; rewrite Z.compare_refl, ?Pos.compare_cont_refl;
    try rewrite Pos.compare_refl; reflexivity.
Qed.

(** A number that differs from itself is [NaN]. *)
Lemma isNaN_nan (x : float) : isNaN x = true -> x = nan.
Proof.
  unfold isNaN. intros H. apply negb_true_iff in H.
  rewrite eqb_spec in H.
  rewrite <- (SF2Prim_Prim2SF x).
  destruct (Prim2SF x) as [s | s | | s m e] eqn:Hx.
  - destruct s; discriminate.
  - destruct s; discriminate.
  - reflexivity.
  - now rewrite SFeqb_refl_finite in H.
Qed.

(** X13. [isValidCoordinate] in binary64: a point with a latitude or a
    longitude that is [NaN] is not valid, since every comparison with
    [NaN] is false. *)
Theorem isValidCoordinate_NaN (point : Binary64.GeoPoint) :
  isNaN (Binary64.latitude point) = true \/
  isNaN (Binary64.longitude point) = true ->
  Binary64.isValidCoordinate point = false.
Proof.
  unfold Binary64.isValidCoordinate.
  intros [H | H]; apply isNaN_nan in H; rewrite H.
  - reflexivity.
  - replace (-180 <=? nan) with false by reflexivity.
    now rewrite andb_false_r.
Qed.

Lemma isValidCoordinate_NaN_witness :
  Binary64.isValidCoordinate (Binary64.mkGeoPoint nan 0) = false.
Proof.
  apply (@isValidCoordinate_NaN (Binary64.mkGeoPoint nan 0)).
  left. reflexivity.
Defined.
End Binary64Validity.

(* ================================================================== *)
(** * Properties: [calculateSpeed] and [clamp] in binary64 *)
(* ================================================================== *)

Section Rounding.
Import Floats.
Import Binary64Order.

Lemma digits2_pos_bounds (m : positive) :
  2 ^ (Z.pos (digits2_pos m) - 1) <= Z.pos m < 2 ^ Z.pos (digits2_pos m).
Proof.
  induction m as [m IH | m IH |]; cbn [digits2_pos].
  - rewrite Pos2Z.inj_succ.
    replace (Z.succ (Z.pos (digits2_pos m)) - 1) with (Z.succ (Z.pos (digits2_pos m) - 1)) by lia.
    rewrite !Z.pow_succ_r by lia. lia.
  - rewrite Pos2Z.inj_succ.
    replace (Z.succ (Z.pos (digits2_pos m)) - 1) with (Z.succ (Z.pos (digits2_pos m) - 1)) by lia.
    rewrite !Z.pow_succ_r by lia. lia.
  - simpl. lia.
Qed.


(** Halving, with the bits that fall off. *)
Lemma shr_1_m (mrs : shr_record) :
  0 <= shr_m mrs -> shr_m (shr_1 mrs) = shr_m mrs / 2.
Proof.
  destruct mrs as [m r s]. cbn [shr_m]. intros Hm.
  destruct m as [| [p | p |] | p]; cbn [shr_1 shr_m]; try lia.
  all: try reflexivity.
  - apply Z.div_unique with 1; lia.
  - apply Z.div_unique with 0; lia.
Qed.

Lemma iter_shr_1_m (p : positive) (mrs : shr_record) :
  0 <= shr_m mrs ->
  shr_m (iter_pos shr_1 p mrs) = shr_m mrs / 2 ^ Z.pos p.
Proof.
  revert mrs. induction p as [p IH | p IH |]; intros mrs Hm; cbn [iter_pos].
  - assert (0 <= shr_m (shr_1 mrs)) as H1
      by (rewrite shr_1_m by exact Hm; apply Z.div_pos; lia).
    assert (0 <= shr_m (iter_pos shr_1 p (shr_1 mrs))) as H2
      by (rewrite IH by exact H1; apply Z.div_pos; [ lia | apply Z.pow_pos_nonneg; lia ]).
    rewrite IH by exact H2. rewrite IH by exact H1. rewrite shr_1_m by exact Hm.
    assert (0 < 2 ^ Z.pos p) by (apply Z.pow_pos_nonneg; lia).
    rewrite !Z.div_div by lia. f_equal.
    replace (Z.pos p~1) with (Z.pos p + Z.pos p + 1) by lia.
    rewrite !Z.pow_add_r by lia. lia.
  - assert (0 <= shr_m (iter_pos shr_1 p mrs)) as H2
      by (rewrite IH by exact Hm; apply Z.div_pos; [ lia | apply Z.pow_pos_nonneg; lia ]).
    rewrite IH by exact H2. rewrite IH by exact Hm.
    assert (0 < 2 ^ Z.pos p) by (apply Z.pow_pos_nonneg; lia).
    rewrite !Z.div_div by lia. f_equal.
    replace (Z.pos p~0) with (Z.pos p + Z.pos p) by lia.
    rewrite !Z.pow_add_r by lia. lia.
  - rewrite shr_1_m by exact Hm. reflexivity.
Qed.

Lemma shr_record_of_loc_m (m : Z) (l : location) :
  shr_m (shr_record_of_loc m l) = m.
Proof. destruct l as [| []]; reflexivity. Qed.

(** The first step of a rounding: the mantissa is cut to the precision.
    What is left is not negative, and not zero for a mantissa that is
    positive at an exponent of the format. *)
Lemma shr_fexp_m (m e : Z) (l : location) :
  0 <= m ->
  0 <= shr_m (fst (shr_fexp prec emax m e l)) /\
  e <= snd (shr_fexp prec emax m e l) /\
  (0 < m -> emin <= e -> 0 < shr_m (fst (shr_fexp prec emax m e l))).
Proof.
  intros Hm. unfold shr_fexp, shr.
  destruct (fexp prec emax (Zdigits2 m + e) - e) as [| n | n] eqn:Hn;
    cbn [fst snd]; rewrite ?shr_record_of_loc_m; try (repeat split; lia).
  rewrite iter_shr_1_m by (rewrite shr_record_of_loc_m; exact Hm).
  rewrite shr_record_of_loc_m.
  assert (0 < 2 ^ Z.pos n) by (apply Z.pow_pos_nonneg; lia).
  split; [ apply Z.div_pos; lia | ]. split; [ lia | ].
  intros Hpos He. destruct m as [| m |]; try lia.
  cbn [Zdigits2] in Hn. unfold fexp, SpecFloat.emin, prec, emax in Hn, He.
  pose proof (digits2_pos_bounds m) as [Hlo _].
  assert (Z.pos n <= Z.pos (digits2_pos m) - 1) as Hle by lia.
  assert (2 ^ Z.pos n <= 2 ^ (Z.pos (digits2_pos m) - 1))
    by (apply Z.pow_le_mono_r; lia).
  apply Z.div_str_pos. lia.
Qed.

Lemma round_nearest_even_le (m : Z) (l : location) : m <= round_nearest_even m l.
Proof.
  unfold round_nearest_even. destruct l as [| []]; try lia.
  destruct (Z.even m); lia.
Qed.

Lemma binary_round_aux_signed0 (s : bool) (m e : Z) (l : location) :
  0 <= m -> signed0 s (binary_round_aux prec emax s m e l).
Proof.
  intros Hm. unfold binary_round_aux.
  pose proof (shr_fexp_m e l Hm) as (H1 & _ & _).
  destruct (shr_fexp prec emax m e l) as [mrs' e'] eqn:E1. cbn [fst snd] in H1.
  assert (0 <= round_nearest_even (shr_m mrs') (loc_of_shr_record mrs')) as H2
    by (pose proof (round_nearest_even_le (shr_m mrs') (loc_of_shr_record mrs')); lia).
  pose proof (shr_fexp_m e' loc_Exact H2) as (H3 & _ & _).
  destruct (shr_fexp prec emax _ e' loc_Exact) as [mrs'' e''] eqn:E2.
  cbn [fst snd] in H3.
  destruct (shr_m mrs'') as [| p | p]; try lia; [ reflexivity | ].
  destruct (e'' <=? emax - prec); reflexivity.
Qed.


End Rounding.

Section Times.
Import Floats.
Import Binary64Order.







End Times.

Section TimeValues.
Import Floats.
Import Binary64Order.





End TimeValues.

Section Quotients.
Import Floats.
Import Binary64Order.









End Quotients.

Section Speed.
Import Floats.
Import Binary64Order.
Local Open Scope float_scope.


End Speed.

Section SpeedFacts.
Import Floats.
Import Binary64Order.
Import Binary64.
Local Open Scope float_scope.





(** At the two antipodal points where the distance is [NaN], half a
    minute apart, the speed is [NaN]. *)
Lemma calculateSpeed_antipodal_NaN :
  isNaN (calculateSpeed table north south 0%Z 30000%Z) = true.
Proof. vm_compute. reflexivity. Qed.

End SpeedFacts.

Section FloatOrder.
Import Floats.
Import Binary64Order.
Import Binary64.
Local Open Scope float_scope.

Lemma SFcompare_place (x y : spec_float) :
  x <> S754_nan -> y <> S754_nan ->
  match SFcompare x y with
  | Some Lt => before (place x) (place y)
  | Some Eq => same_place (place x) (place y)
  | Some Gt => before (place y) (place x)
  | None => False
  end.
Proof.
  intros Hx Hy.
  destruct x as [sx | sx | | sx mx ex], y as [sy | sy | | sy my ey];
    try congruence; try destruct sx; try destruct sy;
    cbn [SFcompare place]; unfold before, same_place; cbn [fst snd];
    try lia.
  all: destruct (Z.compare_spec ex ey); try lia.
  all: change (Pos.compare_cont Eq mx my) with (Pos.compare mx my).
  all: destruct (Pos.compare_spec mx my); cbn [CompOpp]; try lia.
  all: subst; lia.
Qed.

Lemma isNaN_false (x : float) : isNaN x = false -> Prim2SF x <> S754_nan.
Proof.
  unfold isNaN. rewrite eqb_spec. intros H E. rewrite E in H. discriminate.
Qed.

(** The three comparisons of two numbers that are not [NaN], by their
    places. *)
Lemma comparisons (x y : float) :
  isNaN x = false -> isNaN y = false ->
  ((x <? y) = true <-> before (where_is x) (where_is y)) /\
  ((x <=? y) = true <-> ~ before (where_is y) (where_is x)) /\
  ((x =? y) = true <-> same_place (where_is x) (where_is y)).
Proof.
  intros Hx Hy. apply isNaN_false in Hx, Hy.
  rewrite ltb_spec, leb_spec, eqb_spec. unfold SFltb, SFleb, SFeqb, where_is.
  pose proof (SFcompare_place Hx Hy) as H.
  destruct (SFcompare (Prim2SF x) (Prim2SF y)) as [[] |]; [ | | | contradiction ];
    unfold before, same_place in *;
    destruct (place (Prim2SF x)) as [[x1 x2] x3], (place (Prim2SF y)) as [[y1 y2] y3];
    cbn [fst snd] in *;
    (split; [ | split ]); split; intros; try discriminate; try reflexivity; lia.
Qed.

Lemma Math_max_spec (x y : float) :
  isNaN x = false -> isNaN y = false ->
  (Math_max x y = x \/ Math_max x y = y) /\
  ~ before (where_is (Math_max x y)) (where_is x) /\
  ~ before (where_is (Math_max x y)) (where_is y).
Proof.
  intros Hx Hy. unfold Math_max. rewrite Hx, Hy. cbn [orb].
  destruct (comparisons x y Hx Hy) as (Hlt & _ & _).
  destruct (comparisons y x Hy Hx) as (Hgt & _ & _).
  unfold before in *.
  destruct (where_is x) as [[x1 x2] x3] eqn:Ex, (where_is y) as [[y1 y2] y3] eqn:Ey.
  cbn [fst snd] in *.
  destruct (x <? y) eqn:E1; [ rewrite Ey; cbn [fst snd]; intuition lia | ].
  destruct (y <? x) eqn:E2; [ rewrite Ex; cbn [fst snd]; intuition lia | ].
  assert (~ (x1 < y1 \/ x1 = y1 /\ (x2 < y2 \/ x2 = y2 /\ x3 < y3)))%Z as N1
    by (intros N; apply Hlt in N; discriminate).
  assert (~ (y1 < x1 \/ y1 = x1 /\ (y2 < x2 \/ y2 = x2 /\ y3 < x3)))%Z as N2
    by (intros N; apply Hgt in N; discriminate).
  destruct (get_sign x); rewrite ?Ex, ?Ey; cbn [fst snd]; intuition lia.
Qed.

Lemma Math_min_spec (x y : float) :
  isNaN x = false -> isNaN y = false ->
  (Math_min x y = x \/ Math_min x y = y) /\
  ~ before (where_is x) (where_is (Math_min x y)) /\
  ~ before (where_is y) (where_is (Math_min x y)) /\
  ((y <? x) = true -> Math_min x y = y).
Proof.
  intros Hx Hy. unfold Math_min. rewrite Hx, Hy. cbn [orb].
  destruct (comparisons x y Hx Hy) as (Hlt & _ & _).
  destruct (comparisons y x Hy Hx) as (Hgt & _ & _).
  unfold before in *.
  destruct (where_is x) as [[x1 x2] x3] eqn:Ex, (where_is y) as [[y1 y2] y3] eqn:Ey.
  cbn [fst snd] in *.
  destruct (x <? y) eqn:E1.
  { assert (x1 < y1 \/ x1 = y1 /\ (x2 < y2 \/ x2 = y2 /\ x3 < y3))%Z as P
      by (now apply Hlt).
    rewrite Ex. cbn [fst snd]. repeat split; try tauto; try lia.
    intros E. apply Hgt in E. lia. }
  destruct (y <? x) eqn:E2; [ rewrite Ey; cbn [fst snd]; intuition lia | ].
  assert (~ (x1 < y1 \/ x1 = y1 /\ (x2 < y2 \/ x2 = y2 /\ x3 < y3)))%Z as N1
    by (intros N; apply Hlt in N; discriminate).
  assert (~ (y1 < x1 \/ y1 = x1 /\ (y2 < x2 \/ y2 = x2 /\ y3 < x3)))%Z as N2
    by (intros N; apply Hgt in N; discriminate).
  destruct (get_sign x); rewrite ?Ex, ?Ey; cbn [fst snd];
    repeat split; try tauto; try lia; discriminate.
Qed.

End FloatOrder.

Section ClampFacts.
Import Floats.
Import Binary64Order.
Import Binary64.
Local Open Scope float_scope.

(** [clamp], step by step: the greater of the value and the lower bound,
    then the lesser of that and the upper bound. *)
Lemma clamp_steps (value lo hi : float) :
  isNaN value = false -> isNaN lo = false -> isNaN hi = false ->
  exists m,
    isNaN m = false /\ isNaN (clamp value lo hi) = false /\
    (m = value \/ m = lo) /\
    ~ before (where_is m) (where_is value) /\
    ~ before (where_is m) (where_is lo) /\
    (clamp value lo hi = m \/ clamp value lo hi = hi) /\
    ~ before (where_is m) (where_is (clamp value lo hi)) /\
    ~ before (where_is hi) (where_is (clamp value lo hi)) /\
    ((hi <? m) = true -> clamp value lo hi = hi).
Proof.
  intros Hv Hlo Hhi. unfold clamp.
  destruct (Math_max_spec value lo Hv Hlo) as (Hm & Hmv & Hml).
  assert (isNaN (Math_max value lo) = false) as Hnan
    by (destruct Hm as [-> | ->]; assumption).
  destruct (Math_min_spec (Math_max value lo) hi Hnan Hhi) as (Hr & Hrm & Hrh & Hlt).
  exists (Math_max value lo).
  repeat split; try assumption.
  destruct Hr as [-> | ->]; assumption.
Qed.

Ltac places :=
  unfold before, same_place in *;
  repeat match goal with
         | |- context [where_is ?x] =>
             let a := fresh "a" in let b := fresh "b" in let c := fresh "c" in
             destruct (where_is x) as [[a b] c]
         | H : context [where_is ?x] |- _ =>
             let a := fresh "a" in let b := fresh "b" in let c := fresh "c" in
             destruct (where_is x) as [[a b] c]
         end;
  cbn [fst snd] in *.

(** X3. [clamp] in binary64. If the value or a bound is [NaN], so is the
    result. Otherwise the result is the value or one of the bounds. With
    bounds in order it is within the bounds: equal to the value when the
    value is within them, to the lower bound for a value below and to
    the upper bound for a value above, and clamping it again changes
    nothing. With the bounds out of order it is the upper bound,
    whatever the value. *)
Theorem clamp_binary64 (value lo hi : float) :
  (isNaN value || isNaN lo || isNaN hi = true ->
   isNaN (clamp value lo hi) = true) /\
  (isNaN value || isNaN lo || isNaN hi = false ->
   (clamp value lo hi = value \/ clamp value lo hi = lo \/ clamp value lo hi = hi) /\
   ((lo <=? hi) = true ->
      (lo <=? clamp value lo hi) = true /\
      (clamp value lo hi <=? hi) = true /\
      ((lo <=? value) = true -> (value <=? hi) = true ->
         (clamp value lo hi =? value) = true) /\
      ((value <=? lo) = true -> (clamp value lo hi =? lo) = true) /\
      ((hi <=? value) = true -> (clamp value lo hi =? hi) = true) /\
      (clamp (clamp value lo hi) lo hi =? clamp value lo hi) = true) /\
   ((hi <? lo) = true -> clamp value lo hi = hi)).
Proof.
  split.
  - intros H. unfold clamp, Math_min, Math_max.
    destruct (isNaN value) eqn:Hv; [ reflexivity | ].
    destruct (isNaN lo) eqn:Hlo; [ reflexivity | ].
    cbn [orb] in H. rewrite H. rewrite orb_true_r. reflexivity.
  - intros H. apply orb_false_iff in H as [H Hhi].
    apply orb_false_iff in H as [Hv Hlo].
    destruct (clamp_steps value lo hi Hv Hlo Hhi)
      as (m & Hm & Hr & Hmv & Bmv & Bml & Hrm & Brm & Brh & Hlt).
    set (r := clamp value lo hi) in *.
    destruct (comparisons lo hi Hlo Hhi) as (_ & Llh & _).
    destruct (comparisons lo r Hlo Hr) as (_ & Llr & _).
    destruct (comparisons r hi Hr Hhi) as (_ & Lrh & Erh).
    destruct (comparisons lo value Hlo Hv) as (_ & Llv & _).
    destruct (comparisons value hi Hv Hhi) as (_ & Lvh & _).
    destruct (comparisons value lo Hv Hlo) as (_ & Lvl & _).
    destruct (comparisons hi value Hhi Hv) as (_ & Lhv & _).
    destruct (comparisons r value Hr Hv) as (_ & _ & Erv).
    destruct (comparisons r lo Hr Hlo) as (_ & _ & Erl).
    destruct (comparisons hi lo Hhi Hlo) as (Thl & _ & _).
    destruct (comparisons hi m Hhi Hm) as (Thm & _ & _).
    assert (same_place (where_is m) (where_is value)
            \/ same_place (where_is m) (where_is lo)) as Pm
      by (destruct Hmv as [-> | ->]; [ left | right ]; unfold same_place; auto).
    assert (same_place (where_is r) (where_is m)
            \/ same_place (where_is r) (where_is hi)) as Pr
      by (destruct Hrm as [-> | ->]; [ left | right ]; unfold same_place; auto).
    split; [ | split ].
    + destruct Hrm as [-> | ->]; [ | auto ]. destruct Hmv as [-> | ->]; auto.
    + intros Hle. apply Llh in Hle.
      assert ((lo <=? r) = true /\ (r <=? hi) = true) as [Hlr Hrh].
      { split; [ apply Llr | apply Lrh ]; clear - Hle Pm Pr Bmv Bml Brm Brh;
          places; intuition lia. }
      split; [ exact Hlr | ]. split; [ exact Hrh | ].
      split; [ | split; [ | split ] ].
      * intros A B. apply Llv in A. apply Lvh in B. apply Erv.
        clear - Hle Pm Pr Bmv Bml Brm Brh A B. places. intuition lia.
      * intros A. apply Lvl in A. apply Erl.
        clear - Hle Pm Pr Bmv Bml Brm Brh A. places. intuition lia.
      * intros A. apply Lhv in A. apply Erh.
        clear - Hle Pm Pr Bmv Bml Brm Brh A. places. intuition lia.
      * destruct (clamp_steps r lo hi Hr Hlo Hhi)
          as (m' & Hm' & Hr' & Hmv' & Bmv' & Bml' & Hrm' & Brm' & Brh' & _).
        fold r in Hr', Hrm', Brm', Brh'.
        set (r' := clamp r lo hi) in *.
        destruct (comparisons r' r Hr' Hr) as (_ & _ & E).
        apply E.
        assert (same_place (where_is m') (where_is r)
                \/ same_place (where_is m') (where_is lo)) as Pm'
          by (destruct Hmv' as [-> | ->]; [ left | right ]; unfold same_place; auto).
        assert (same_place (where_is r') (where_is m')
                \/ same_place (where_is r') (where_is hi)) as Pr'
          by (destruct Hrm' as [-> | ->]; [ left | right ]; unfold same_place; auto).
        apply Llr in Hlr. apply Lrh in Hrh.
        clear - Hle Hlr Hrh Pm' Pr' Bmv' Bml' Brm' Brh'. places. intuition lia.
    + intros A. apply Hlt. apply Thm. apply Thl in A.
      clear - A Bml. places. intuition lia.
Qed.

End ClampFacts.

(* ================================================================== *)
(** * Properties: more of the photo curation *)
(* ================================================================== *)

Section SortByFacts.
Variable A : Type.
Variable key : A -> R.

Let compare : A -> A -> R := fun a b => (key b - key a)%R.
Let key_ge : A -> A -> Prop := fun a b => (key b <= key a)%R.

Lemma sort_insert_by_Permutation (x : A) (l : list A) :
  Permutation (sort_insert_by compare x l) (x :: l).
Proof.
  induction l as [| y l IH]; simpl.
  - apply Permutation_refl.
  - destruct (Rleb (compare x y) 0).
    + apply Permutation_refl.
    + apply perm_trans with (y :: x :: l).
      * now apply perm_skip.
      * apply perm_swap.
Qed.

Lemma Array_sort_by_Permutation (l : list A) :
  Permutation (Array_sort_by compare l) l.
Proof.
  induction l as [| x l IH]; simpl.
  - apply perm_nil.
  - apply perm_trans with (x :: Array_sort_by compare l).
    + apply sort_insert_by_Permutation.
    + now apply perm_skip.
Qed.

Lemma sort_insert_by_sorted (x : A) (l : list A) :
  StronglySorted key_ge l -> StronglySorted key_ge (sort_insert_by compare x l).
Proof.
  induction 1 as [| y l Hl IH Hy]; simpl.
  - constructor; constructor.
  - destruct (Rleb (compare x y) 0) eqn:Hc; unfold compare in Hc.
    + apply Rleb_true in Hc.
      constructor; [ now constructor | ].
      constructor; [ unfold key_ge; lra | ].
      eapply Forall_impl; [ | exact Hy ].
      unfold key_ge. intros z Hz. lra.
    + apply Rleb_false in Hc.
      constructor; [ exact IH | ].
      eapply Permutation_Forall.
      * apply Permutation_sym, sort_insert_by_Permutation.
      * constructor; [ unfold key_ge; lra | exact Hy ].
Qed.

Lemma Array_sort_by_sorted (l : list A) :
  StronglySorted key_ge (Array_sort_by compare l).
Proof.
  induction l as [| x l IH]; simpl.
  - constructor.
  - now apply sort_insert_by_sorted.
Qed.
End SortByFacts.

Section SortedFacts.
Variable A : Type.
Variable R : A -> A -> Prop.

Lemma StronglySorted_app (l1 l2 : list A) :
  StronglySorted R (l1 ++ l2) ->
  StronglySorted R l1 /\ StronglySorted R l2 /\
  forall a b, In a l1 -> In b l2 -> R a b.
Proof.
  induction l1 as [| x l1 IH]; simpl; intros H.
  - split; [ constructor | ]. split; [ exact H | intros a b [] ].
  - inversion H as [| ? ? Hs Hx]; subst.
    destruct (IH Hs) as (H1 & H2 & H3).
    apply Forall_app in Hx as [Hx1 Hx2].
    split; [ now constructor | ]. split; [ exact H2 | ].
    intros a b [<- | Ha] Hb.
    + rewrite Forall_forall in Hx2. now apply Hx2.
    + now apply H3.
Qed.
End SortedFacts.

Lemma Array_slice_0 (A : Type) (finish : Z) (array : list A) :
  Array_slice 0 finish array
  = firstn
      (Z.to_nat
         (if finish <? 0 then Z.max (Z.of_nat (List.length array) + finish) 0
          else Z.min finish (Z.of_nat (List.length array))))
      array.
Proof.
  unfold Array_slice. cbv zeta.
  replace (0 <? 0) with false by reflexivity.
  rewrite (Z.min_l 0) by lia. simpl skipn. now rewrite Z.sub_0_r.
Qed.

(** X14. [selectFeaturedPhotos]: the photos selected are in descending order
    of quality, and each of them is at least as good as every photo left
    out; there are [count] of them, or all the photos when there are
    fewer. A negative [count] leaves out that many photos of the lowest
    quality. The array given is not written. *)
Theorem selectFeaturedPhotos_best (photos : list PhotoMetadata.t) (count : Z) :
  Z.of_nat (List.length (selectFeaturedPhotos photos count))
    = (if count <? 0 then Z.max (Z.of_nat (List.length photos) + count) 0
       else Z.min count (Z.of_nat (List.length photos))) /\
  StronglySorted
    (fun a b => (PhotoMetadata.qualityScore b <= PhotoMetadata.qualityScore a)%R)
    (selectFeaturedPhotos photos count) /\
  exists rest,
    Permutation photos (selectFeaturedPhotos photos count ++ rest) /\
    forall a b,
      In a (selectFeaturedPhotos photos count) -> In b rest ->
      (PhotoMetadata.qualityScore b <= PhotoMetadata.qualityScore a)%R.
Proof.
  unfold selectFeaturedPhotos. cbv zeta. rewrite Array_slice_0.
  set (sorted := Array_sort_by _ photos).
  assert (Permutation sorted photos) as Hperm
    by apply (Array_sort_by_Permutation PhotoMetadata.qualityScore).
  assert (List.length sorted = List.length photos) as Hlen
    by now apply Permutation_length.
  rewrite Hlen.
  set (n := Z.to_nat _).
  pose proof (Array_sort_by_sorted PhotoMetadata.qualityScore photos) as Hsorted.
  fold sorted in Hsorted. rewrite <- (firstn_skipn n sorted) in Hsorted.
  apply StronglySorted_app in Hsorted as (H1 & _ & H3).
  split; [ | split; [ exact H1 | ] ].
  - rewrite length_firstn, Hlen. unfold n.
    destruct (count <? 0) eqn:Hc;
      [ apply Z.ltb_lt in Hc | apply Z.ltb_ge in Hc ]; lia.
  - exists (skipn n sorted). split; [ | exact H3 ].
    rewrite firstn_skipn. now apply Permutation_sym.
Qed.

Section ClusterTimes.
Local Open Scope Z_scope.

Let before (a b : PhotoAnalysis.t) : Prop :=
  PhotoAnalysis.timestamp a <= PhotoAnalysis.timestamp b.

Lemma sorted_after_head (l : list PhotoAnalysis.t) (h a : PhotoAnalysis.t) :
  StronglySorted before l -> hd_error l = Some h -> In a l -> before h a.
Proof.
  intros Hs Hh Ha. destruct l as [| x l]; [ discriminate | ].
  injection Hh as ->. inversion Hs as [| ? ? _ Hx]; subst.
  destruct Ha as [<- | Ha]; [ unfold before; lia | ].
  rewrite Forall_forall in Hx. now apply Hx.
Qed.

Lemma sorted_before_last (l : list PhotoAnalysis.t) (b a : PhotoAnalysis.t) :
  StronglySorted before l -> last_opt l = Some b -> In a l -> before a b.
Proof.
  induction 1 as [| x l Hs IH Hx]; intros Hb Ha; [ discriminate | ].
  destruct l as [| y l].
  - injection Hb as <-. destruct Ha as [<- | []]. unfold before; lia.
  - rewrite last_opt_cons in Hb by discriminate.
    destruct Ha as [<- | Ha]; [ | now apply IH ].
    rewrite Forall_forall in Hx. apply Hx.
    clear - Hb. revert y Hb. induction l as [| z l IHl]; intros y Hb.
    + injection Hb as <-. now left.
    + right. rewrite last_opt_cons in Hb by discriminate. now apply IHl.
Qed.

(** The clusters made of the groups of a sorted sequence: each holds the
    timestamps of its photos between its two ends, and ends before the
    next one starts. *)
Lemma made_chronological (groups : list (list PhotoAnalysis.t))
    (cs : list PhotoCluster.t) :
  Forall2 made_of groups cs ->
  StronglySorted before (List.concat groups) ->
  Forall (fun c => forall p, In p (PhotoCluster.photos c) ->
            PhotoCluster.startTime c <= PhotoMetadata.timestamp p
            <= PhotoCluster.endTime c) cs /\
  all_adjacent (fun c c' => PhotoCluster.endTime c <= PhotoCluster.startTime c') cs /\
  (forall c a, hd_error cs = Some c -> In a (List.concat groups) ->
     PhotoCluster.startTime c <= PhotoAnalysis.timestamp a).
Proof.
  induction 1 as [| g c groups' cs' [Hp (Hstart & Hend & _)] Hrest IH];
    intros Hsorted.
  - split; [ constructor | ]. split; [ exact I | discriminate ].
  - simpl in Hsorted. apply StronglySorted_app in Hsorted as (Hg & Hs' & Hcross).
    destruct (IH Hs') as (IH1 & IH2 & IH3).
    rewrite Hp, hd_error_map in Hstart. rewrite Hp, last_opt_map in Hend.
    destruct (hd_error g) as [h |] eqn:Hh; [ | discriminate ].
    destruct (last_opt g) as [b |] eqn:Hb; [ | discriminate ].
    simpl in Hstart, Hend. injection Hstart as Hstart. injection Hend as Hend.
    assert (In b g) as Hbg.
    { clear - Hb. revert Hb. induction g as [| x g IHg]; [ discriminate | ].
      destruct g as [| y g]; [ intros [= <-]; now left | ].
      intros Hb. right. rewrite last_opt_cons in Hb by discriminate.
      now apply IHg. }
    split; [ | split ].
    + constructor; [ | exact IH1 ].
      intros p Hin. rewrite Hp in Hin. apply in_map_iff in Hin as (a & <- & Ha).
      rewrite <- Hstart, <- Hend. simpl.
      pose proof (@sorted_after_head g h a Hg Hh Ha).
      pose proof (@sorted_before_last g b a Hg Hb Ha).
      unfold before in *. lia.
    + destruct cs' as [| c' cs'']; [ exact I | ].
      split; [ | exact IH2 ].
      inversion Hrest as [| g' ? groups'' ? [Hp' (Hstart' & _)] _]; subst.
      rewrite Hp', hd_error_map in Hstart'.
      destruct (hd_error g') as [h' |] eqn:Hh'; [ | discriminate ].
      simpl in Hstart'. injection Hstart' as Hstart'.
      rewrite <- Hend, <- Hstart'. simpl.
      apply (Hcross b h' Hbg). simpl. apply in_or_app. left.
      destruct g'; [ discriminate | injection Hh' as ->; now left ].
    + intros c0 a [= <-] Ha. rewrite <- Hstart. simpl in Ha.
      apply in_app_or in Ha as [Ha | Ha].
      * apply (@sorted_after_head g h a Hg Hh Ha).
      * assert (In h g) as Hhg
          by (destruct g; [ discriminate | injection Hh as ->; now left ]).
        apply (Hcross h a Hhg Ha).
Qed.

(** A chain of photos, each joined to the one before: from the first to
    the last there is at most an hour for each step. *)
Lemma joins_span (l : list PhotoMetadata.t) (a b : PhotoMetadata.t) :
  all_adjacent joins l -> hd_error l = Some a -> last_opt l = Some b ->
  PhotoMetadata.timestamp b - PhotoMetadata.timestamp a
  <= 3600000 * (Z.of_nat (List.length l) - 1).
Proof.
  revert a. induction l as [| x l IH]; intros a Hj Ha Hb; [ discriminate | ].
  injection Ha as ->. destruct l as [| y l].
  - injection Hb as <-. simpl. lia.
  - destruct Hj as [[Hxy _] Hj].
    rewrite last_opt_cons in Hb by discriminate.
    specialize (IH y Hj eq_refl Hb).
    change (List.length (a :: y :: l)) with (S (List.length (y :: l))).
    lia.
Qed.
End ClusterTimes.

(** X15. [clusterPhotos]: the clusters come in the order of time. The start
    and the end of a cluster hold between them the timestamps of all its
    photos, and a cluster ends before, or when, the next one starts. *)
Theorem clusterPhotos_chronological (rng : Entropy) (photos : list PhotoAnalysis.t)
    (trip : Trip.t) (drawn : nat) :
  exists cs drawn',
    clusterPhotos rng photos trip drawn = Some (cs, drawn') /\
    Forall (fun c => forall p, In p (PhotoCluster.photos c) ->
              PhotoCluster.startTime c <= PhotoMetadata.timestamp p
              <= PhotoCluster.endTime c) cs /\
    all_adjacent (fun c c' => PhotoCluster.endTime c <= PhotoCluster.startTime c') cs.
Proof.
  destruct (clusterPhotos_returns rng photos trip drawn) as (cs & Heq & Hmade).
  exists cs, (drawn + List.length cs)%nat.
  split; [ exact Heq | ].
  destruct (made_chronological Hmade) as (H1 & H2 & _); [ | now split ].
  rewrite chain_groups_concat.
  apply (Array_sort_sorted PhotoAnalysis.timestamp).
Qed.

(** X16. [clusterPhotos]: a cluster of [n] photos spans at most [n - 1]
    hours, from its start to its end. *)
Theorem clusterPhotos_span (rng : Entropy) (photos : list PhotoAnalysis.t)
    (trip : Trip.t) (drawn : nat) :
  exists cs drawn',
    clusterPhotos rng photos trip drawn = Some (cs, drawn') /\
    Forall (fun c =>
              PhotoCluster.endTime c - PhotoCluster.startTime c
              <= 3600000 * (Z.of_nat (List.length (PhotoCluster.photos c)) - 1)) cs.
Proof.
  destruct (clusterPhotos_returns rng photos trip drawn) as (cs & Heq & Hmade).
  exists cs, (drawn + List.length cs)%nat.
  split; [ exact Heq | ].
  pose proof (made_joined Hmade (chain_groups_joined _)) as Hjoined.
  pose proof (made_invariant Hmade) as Hinv.
  rewrite Forall_forall in *. intros c Hc.
  destruct (Hinv c Hc) as (Hstart & Hend & _).
  destruct (hd_error (PhotoCluster.photos c)) as [a |] eqn:Ha; [ | discriminate ].
  destruct (last_opt (PhotoCluster.photos c)) as [b |] eqn:Hb; [ | discriminate ].
  injection Hstart as <-. injection Hend as <-.
  apply joins_span; [ now apply Hjoined | exact Ha | exact Hb ].
Qed.

Section ClusterIdentity.
Variable rng : Entropy.
Variable tripId : string.

(** The clusters made of groups, one after the other: each takes the
    next identifier of the random source, and carries the trip. *)
Lemma finalizeAll_identifiers (groups : list (list PhotoAnalysis.t)) :
  Forall (fun g => g <> []) groups ->
  forall (drawn : nat) (cs : list PhotoCluster.t) (drawn' : nat),
    finalizeAll rng tripId groups drawn = Some (cs, drawn') ->
    map PhotoCluster.id cs = map rng (seq drawn (List.length cs)) /\
    Forall (fun c => PhotoCluster.tripId c = tripId /\
                     PhotoCluster.assignedStepId c = None) cs.
Proof.
  induction 1 as [| g groups Hg _ IH]; intros drawn cs drawn' Heq; simpl in Heq.
  - injection Heq as <- <-. split; [ reflexivity | constructor ].
  - destruct (finalizeCluster_spec rng tripId drawn Hg)
      as (c & Hc & _ & Hid & Htrip & Hstep & _).
    rewrite Hc in Heq.
    destruct (finalizeAll rng tripId groups (S drawn)) as [[cs' d] |] eqn:Hrest;
      [ | discriminate ].
    injection Heq as <- <-.
    destruct (IH (S drawn) cs' d Hrest) as [IH1 IH2].
    split.
    + simpl. now rewrite Hid, IH1.
    + constructor; [ now split | exact IH2 ].
Qed.
End ClusterIdentity.

(** X17. [clusterPhotos]: every cluster carries the identifier of the trip
    and no step; the clusters take the identifiers that the random
    source gives next, one each and in order, so that they are all
    different when the source does not repeat itself. *)
Theorem clusterPhotos_identifiers (rng : Entropy) (photos : list PhotoAnalysis.t)
    (trip : Trip.t) (drawn : nat) :
  exists cs,
    clusterPhotos rng photos trip drawn = Some (cs, (drawn + List.length cs)%nat) /\
    map PhotoCluster.id cs = map rng (seq drawn (List.length cs)) /\
    Forall (fun c => PhotoCluster.tripId c = Trip.id trip /\
                     PhotoCluster.assignedStepId c = None) cs /\
    ((forall n m, rng n = rng m -> n = m) -> NoDup (map PhotoCluster.id cs)).
Proof.
  destruct (clusterPhotos_returns rng photos trip drawn) as (cs & Heq & _).
  exists cs. split; [ exact Heq | ].
  pose proof Heq as Hall. rewrite clusterPhotos_groups in Hall.
  destruct (@finalizeAll_identifiers rng (Trip.id trip) _ (chain_groups_nonempty _)
              _ _ _ Hall) as [Hids Htrip].
  split; [ exact Hids | ]. split; [ exact Htrip | ].
  intros Hinj. rewrite Hids.
  apply Finite.Injective_map_NoDup; [ exact Hinj | apply seq_NoDup ].
Qed.

Section ClusterCentre.
Local Open Scope R_scope.



End ClusterCentre.


Section CurationFacts.
Variable rng : Entropy.

Lemma groups_count (A : Type) (groups : list (list A)) :
  Forall (fun g => g <> []) groups ->
  (List.length groups <= List.length (List.concat groups))%nat.
Proof.
  induction 1 as [| g groups Hg _ IH]; simpl; [ lia | ].
  rewrite length_app. destruct g; [ congruence | simpl; lia ].
Qed.

(** The number of clusters: at most one for each photo, and at least one
    when there is a photo. *)
Lemma clusterPhotos_count (photos : list PhotoAnalysis.t) (trip : Trip.t)
    (drawn : nat) :
  exists cs,
    clusterPhotos rng photos trip drawn = Some (cs, (drawn + List.length cs)%nat) /\
    (List.length cs <= List.length photos)%nat /\
    (photos <> [] -> cs <> []).
Proof.
  destruct (clusterPhotos_returns rng photos trip drawn) as (cs & Heq & Hmade).
  exists cs. split; [ exact Heq | ].
  pose proof (groups_count (chain_groups_nonempty (Array_sort byTimestamp photos)))
    as Hcount.
  rewrite chain_groups_concat in Hcount.
  unfold byTimestamp in Hcount at 2.
  rewrite (Array_sort_length PhotoAnalysis.timestamp) in Hcount.
  rewrite (Forall2_length Hmade) in Hcount.
  split; [ exact Hcount | ].
  intros Hne ->. inversion Hmade as [Hg |]. 
  pose proof (chain_groups_concat (Array_sort byTimestamp photos)) as Hc.
  rewrite <- Hg in Hc. simpl in Hc.
  apply (f_equal (@List.length _)) in Hc. unfold byTimestamp in Hc.
  rewrite (Array_sort_length PhotoAnalysis.timestamp) in Hc.
  destruct photos; [ congruence | discriminate ].
Qed.

(** X19. [curateTripPhotos] on a service that is not running, for a trip
    whose start date is a [Date]: it returns, and leaves the service not
    running, so that the next run is not refused. Every new photo of the
    library is processed, and is either added or filtered; there is at
    most one cluster for each photo added, and at least one as soon as a
    photo is added. The time of the scan is written only when there was
    a new photo. For a trip read back from the storage, whose start date
    is a text, it throws before it looks at the library: no photo is
    processed and the time of the scan is not written; the service is
    left not running. *)
Theorem curateTripPhotos_counts (lib : Library.t) (trip : TripValue.t) (w : Studio.t) :
  CurationService.isRunning (Studio.service w) = false ->
  match TripValue.startDate trip with
  | DateObject since =>
      exists result w',
        curateTripPhotos rng lib trip w = (inl result, w') /\
        CurationService.isRunning (Studio.service w') = false /\
        CurationResult.photosProcessed result
          = Z.of_nat (List.length (Library.newPhotosSince lib since)) /\
        CurationResult.photosProcessed result
          = CurationResult.photosAdded result + CurationResult.photosFiltered result /\
        CurationResult.photosAdded result
          = Z.of_nat (List.length
                        (filter isGood
                           (map (Library.analysis lib)
                              (Library.newPhotosSince lib since)))) /\
        0 <= CurationResult.photosFiltered result /\
        0 <= CurationResult.clustersCreated result
          <= CurationResult.photosAdded result /\
        (0 < CurationResult.photosAdded result ->
         0 < CurationResult.clustersCreated result) /\
        CurationService.lastScanTimestamp (Studio.service w')
          = (if CurationResult.photosProcessed result =? 0
             then CurationService.lastScanTimestamp (Studio.service w)
             else Some (Library.now lib))
  | DateText _ =>
      exists message w',
        curateTripPhotos rng lib trip w = (inr message, w') /\
        CurationService.isRunning (Studio.service w') = false /\
        CurationService.lastScanTimestamp (Studio.service w')
          = CurationService.lastScanTimestamp (Studio.service w) /\
        Studio.drawn w' = Studio.drawn w
  end.
Proof.
  intros Hidle. unfold curateTripPhotos. rewrite Hidle. cbv zeta.
  destruct (TripValue.startDate trip) as [since | text]; cbn [toISOString];
    [ | eexists; eexists; split; [ reflexivity | ]; repeat split ].
  set (newPhotos := Library.newPhotosSince lib since).
  destruct (Z.of_nat (List.length newPhotos) =? 0) eqn:Hnone.
  - eexists. eexists. split; [ reflexivity | ]. simpl.
    rewrite Hnone. apply Z.eqb_eq in Hnone.
    assert (newPhotos = []) as -> by (destruct newPhotos; [ reflexivity | discriminate ]).
    simpl. repeat split; lia.
  - set (good := filter isGood (map (Library.analysis lib) newPhotos)).
    match goal with |- context [clusterPhotos rng good ?tr ?d] =>
      destruct (clusterPhotos_count good tr d) as (cs & -> & Hle & Hne) end.
    eexists. eexists. split; [ reflexivity | ]. simpl.
    rewrite Hnone.
    assert (List.length good <= List.length (map (Library.analysis lib) newPhotos))%nat
      as Hgood by apply filter_length_le.
    rewrite length_map in *.
    repeat split; try lia.
    intros Hpos. assert (cs <> []) as Hcs
      by (apply Hne; destruct good; [ simpl in Hpos; lia | discriminate ]).
    destruct cs; [ congruence | simpl; lia ].
Qed.
End CurationFacts.

Lemma curateTripPhotos_counts_witness :
  (exists result w',
     curateTripPhotos Sample.rng Roll.library Roll.trip Studio.initial
       = (inl result, w') /\
     CurationService.isRunning (Studio.service w') = false /\
     CurationResult.photosProcessed result
       = Z.of_nat (List.length (Library.newPhotosSince Roll.library 0)) /\
     CurationResult.photosProcessed result
       = CurationResult.photosAdded result + CurationResult.photosFiltered result /\
     CurationResult.photosAdded result
       = Z.of_nat (List.length
                     (filter isGood
                        (map (Library.analysis Roll.library)
                           (Library.newPhotosSince Roll.library 0)))) /\
     0 <= CurationResult.photosFiltered result /\
     0 <= CurationResult.clustersCreated result
       <= CurationResult.photosAdded result /\
     (0 < CurationResult.photosAdded result ->
      0 < CurationResult.clustersCreated result) /\
     CurationService.lastScanTimestamp (Studio.service w')
       = (if CurationResult.photosProcessed result =? 0
          then CurationService.lastScanTimestamp (Studio.service Studio.initial)
          else Some (Library.now Roll.library))) /\
  (exists message w',
     curateTripPhotos Sample.rng Roll.library Roll.stored Studio.initial
       = (inr message, w') /\
     CurationService.isRunning (Studio.service w') = false /\
     CurationService.lastScanTimestamp (Studio.service w')
       = CurationService.lastScanTimestamp (Studio.service Studio.initial) /\
     Studio.drawn w' = Studio.drawn Studio.initial).
Proof.
  split.
  - exact (@curateTripPhotos_counts Sample.rng Roll.library Roll.trip
             Studio.initial eq_refl).
  - exact (@curateTripPhotos_counts Sample.rng Roll.library Roll.stored
             Studio.initial eq_refl).
Defined.

(* ================================================================== *)
(** * Properties: the tracker, between calls *)
(* ================================================================== *)

Section TrackerInvariants.
Variable rng : Entropy.

Lemma inferActivityFromSpeed_not_cycling (s : R) :
  inferActivityFromSpeed s <> cycling.
Proof. destruct (inferActivityFromSpeed_in_band s); discriminate. Qed.

(** What [captureLocation] does to the fields of the tracker and to the
    pending locations. *)
Lemma captureLocation_effect (dev : Device.t) (w : World.t) :
  TrackerService.state (World.service (captureLocation rng dev w))
    = TrackerService.state (World.service w) /\
  TrackerService.currentTripId (World.service (captureLocation rng dev w))
    = TrackerService.currentTripId (World.service w) /\
  TrackerService.trackingInterval (World.service (captureLocation rng dev w))
    = TrackerService.trackingInterval (World.service w) /\
  TrackerService.syncInterval (World.service (captureLocation rng dev w))
    = TrackerService.syncInterval (World.service w) /\
  TrackerService.config (World.service (captureLocation rng dev w))
    = TrackerService.config (World.service w) /\
  World.trackerConfig (captureLocation rng dev w) = World.trackerConfig w /\
  (TrackerService.currentActivity (World.service w) <> cycling ->
   TrackerService.currentActivity (World.service (captureLocation rng dev w))
     <> cycling) /\
  exists more,
    World.pendingLocations (captureLocation rng dev w)
      = World.pendingLocations w ++ more /\
    (List.length more <= 1)%nat /\
    (TrackerService.currentTripId (World.service w) <> None ->
     TrackerService.currentActivity (World.service w) <> cycling ->
     Forall captured more).
Proof.
  unfold captureLocation.
  destruct (getCurrentLocation dev) as [l |].
  - destruct (TrackerService.lastLocation (World.service w)) as [l0 |]; simpl;
      repeat (split; [ try reflexivity | ]);
      try (intros _; apply inferActivityFromSpeed_not_cycling);
      try (intros H; exact H);
      (eexists; split; [ reflexivity | ]; split; [ simpl; lia | ]);
      intros Htrip Hact; constructor; try constructor; unfold captured; simpl;
      repeat split; try assumption; try apply inferActivityFromSpeed_not_cycling.
  - simpl. repeat (split; [ try reflexivity | ]); [ intros H; exact H | ].
    exists []. rewrite app_nil_r. split; [ reflexivity | ].
    split; [ simpl; lia | intros; constructor ].
Qed.

(** The fields after a capture, read from the fields before it. *)
Ltac after_capture dev w0 :=
  destruct (captureLocation_effect dev w0)
    as (Hstate & Htrip & Htimer & Hsync & _ & _ & Hactivity & more & Hpending & _ & Hcaptured);
  unfold tracker_invariant; rewrite Hstate, Htrip, Htimer, Hsync, Hpending.

Lemma perform_invariant (dev : Device.t) (c : Call) (w : World.t) :
  tracker_invariant (World.service w) ->
  Forall captured (World.pendingLocations w) ->
  tracker_invariant (World.service (perform rng dev c w)) /\
  Forall captured (World.pendingLocations (perform rng dev c w)).
Proof.
  intros Hinv Hpend.
  pose proof Hinv as (Hstopped & Hactive & Hpaused & Htripsync & Hcyc & Hperiod).
  destruct c as [| tripId | | | | |]; simpl.
  - (* initialize *)
    unfold initialize. cbv zeta. simpl.
    destruct (World.trackerConfig w) as [c |]; simpl;
      [ destruct (TrackerConfig.isActive c && truthy (TrackerConfig.currentTripId c)) | ];
      simpl; split; assumption.
  - (* startTracking *)
    unfold startTracking. cbv zeta.
    destruct (negb (checkLocationPermission dev)); simpl; [ split; assumption | ].
    destruct (TrackerService.config (World.service w)) as [c |]; simpl.
    + match goal with |- context [captureLocation rng dev ?w0] =>
        after_capture dev w0 end.
      simpl in *. split.
      * repeat split; try discriminate; try (intros; discriminate).
        -- apply Hactivity. discriminate.
        -- intros period [= <-]. now right.
      * apply Forall_app. split; [ exact Hpend | ].
        apply Hcaptured; discriminate.
    + match goal with |- context [captureLocation rng dev ?w0] =>
        after_capture dev w0 end.
      simpl in *. split.
      * repeat split; try discriminate; try (intros; discriminate).
        -- apply Hactivity. discriminate.
        -- intros period [= <-]. now right.
      * apply Forall_app. split; [ exact Hpend | ].
        apply Hcaptured; discriminate.
  - (* stopTracking *)
    unfold stopTracking, stopTracking_after_sync, syncPendingLocations.
    simpl.
    destruct (Z.of_nat (List.length (World.pendingLocations w)) =? 0); simpl;
      destruct (TrackerService.config (World.service w)); simpl;
      (split; [ | exact Hpend ]);
      unfold tracker_invariant; simpl;
      repeat split; try discriminate; try (intros; discriminate);
      try assumption; intros H; congruence.
  - (* pauseTracking *)
    unfold pauseTracking. simpl. split; [ | exact Hpend ].
    unfold tracker_invariant. simpl.
    repeat split; try discriminate; try (intros; discriminate); assumption.
  - (* resumeTracking *)
    unfold resumeTracking.
    destruct (negb (truthy (TrackerService.currentTripId (World.service w))))
      eqn:Htruthy; simpl; [ split; assumption | ].
    assert (TrackerService.currentTripId (World.service w) <> None) as Hsome.
    { intros Hnone. rewrite Hnone in Htruthy. discriminate. }
    match goal with |- context [captureLocation rng dev ?w0] =>
      after_capture dev w0 end.
    simpl in *. split.
    + repeat split; try discriminate; try (intros; discriminate);
        try assumption.
      * now apply Hactivity.
      * intros period [= <-]. unfold getUpdateInterval. simpl.
        destruct (TrackerService.currentActivity (World.service w));
          try (now left); now right.
    + apply Forall_app. split; [ exact Hpend | ]. now apply Hcaptured.
  - (* the tick of the tracking timer *)
    destruct (TrackerService.trackingInterval (World.service w)) as [period |] eqn:Hp;
      [ | split; assumption ].
    unfold trackingTick.
    destruct (TrackerService.state (World.service w)) eqn:Hst;
      try (split; assumption).
    destruct (Hactive eq_refl) as [Hsome _].
    after_capture dev w. rewrite Hst, Hp. split.
    + repeat split; try discriminate; try (intros; discriminate);
        try assumption; try (now apply Hactivity).
    + apply Forall_app. split; [ exact Hpend | ]. now apply Hcaptured.
  - (* the tick of the sync timer *)
    destruct (TrackerService.syncInterval (World.service w)); [ | split; assumption ].
    unfold syncPendingLocations.
    destruct (Z.of_nat (List.length (World.pendingLocations w)) =? 0); simpl;
      split; assumption.
Qed.

(** Between calls, the fields of the tracker fit together, and every
    pending location was saved during a session. *)
Lemma reachable_invariant (w : World.t) :
  reachable rng w ->
  tracker_invariant (World.service w) /\
  Forall captured (World.pendingLocations w).
Proof.
  induction 1 as [| dev c w Hw [IH1 IH2]].
  - split; [ | constructor ].
    unfold tracker_invariant. simpl.
    repeat split; try discriminate; intros; congruence.
  - now apply perform_invariant.
Qed.
End TrackerInvariants.

Section TrackerBetweenCalls.
Variable rng : Entropy.

(** [startTracking] with the permission granted is its two parts, one
    after the other. *)
Lemma startTracking_parts (dev : Device.t) (tripId : string) (w : World.t) :
  checkLocationPermission dev = true ->
  startTracking rng dev tripId w
  = (Returned,
     startTracking_after_save rng dev (startTracking_until_save tripId w)).
Proof.
  intros Hgranted. unfold startTracking, startTracking_after_save,
    startTracking_until_save.
  rewrite Hgranted. reflexivity.
Qed.

(** What the second part of [startTracking] does to the fields of the
    tracker: both timers are set, whatever the state. *)
Lemma startTracking_after_save_effect (dev : Device.t) (w : World.t) :
  let w' := startTracking_after_save rng dev w in
  TrackerService.state (World.service w') = TrackerService.state (World.service w) /\
  TrackerService.currentTripId (World.service w')
    = TrackerService.currentTripId (World.service w) /\
  TrackerService.trackingInterval (World.service w')
    = Some (getUpdateInterval (World.service w)) /\
  TrackerService.syncInterval (World.service w') = Some 300000.
Proof.
  cbv zeta. unfold startTracking_after_save, startTrackingLoop.
  match goal with |- context [captureLocation rng dev ?w0] =>
    destruct (captureLocation_effect rng dev w0)
      as (Hstate & Htrip & Htimer & Hsync & _) end.
  rewrite Hstate, Htrip, Htimer, Hsync. repeat split.
Qed.

(** X20. As long as the calls of the tracker do not overlap (each method and
    each timer callback has returned before the next one starts), the
    tracking timer runs exactly while the tracker is active: the test of
    the state in its callback never fails. A stopped tracker holds no
    trip and no timer; an active one holds a trip, and its sync timer
    runs every 5 minutes. The methods are not atomic, though.
    [startTracking] on an initialized tracker waits for the storage
    between writing the state and starting its timers: a [stopTracking]
    or a [pauseTracking] that runs meanwhile leaves a tracker that is
    stopped, or paused, with both timers running; the callback of the
    tracking timer then finds the state not active and captures
    nothing. *)
Theorem tracker_timers_follow_state (dev : Device.t) (tripId : string)
    (w : World.t) :
  reachable rng w ->
  ((TrackerService.state (World.service w) = active
    <-> TrackerService.trackingInterval (World.service w) <> None) /\
   (TrackerService.state (World.service w) = stopped ->
      TrackerService.currentTripId (World.service w) = None /\
      TrackerService.syncInterval (World.service w) = None) /\
   (TrackerService.state (World.service w) = active ->
      TrackerService.currentTripId (World.service w) <> None /\
      TrackerService.syncInterval (World.service w) = Some 300000)) /\
  (checkLocationPermission dev = true ->
     startTracking rng dev tripId w
     = (Returned,
        startTracking_after_save rng dev (startTracking_until_save tripId w))) /\
  (TrackerService.config (World.service w) <> None ->
     let stopped_meanwhile :=
       startTracking_after_save rng dev
         (stopTracking (startTracking_until_save tripId w)) in
     let paused_meanwhile :=
       startTracking_after_save rng dev
         (pauseTracking (startTracking_until_save tripId w)) in
     TrackerService.state (World.service stopped_meanwhile) = stopped /\
     TrackerService.currentTripId (World.service stopped_meanwhile) = None /\
     TrackerService.trackingInterval (World.service stopped_meanwhile)
       = Some 600000 /\
     TrackerService.syncInterval (World.service stopped_meanwhile) = Some 300000 /\
     perform rng dev CallTick stopped_meanwhile = stopped_meanwhile /\
     TrackerService.state (World.service paused_meanwhile) = paused /\
     TrackerService.trackingInterval (World.service paused_meanwhile)
       = Some 600000 /\
     perform rng dev CallTick paused_meanwhile = paused_meanwhile).
Proof.
  intros Hw.
  destruct (reachable_invariant Hw)
    as [(Hstopped & Hactive & Hpaused & Htripsync & _ & _) _].
  split; [ | split ].
  - split; [ split | split ].
    + intros H. now apply Hactive.
    + intros H. destruct (TrackerService.state (World.service w)) eqn:Hst.
      * destruct (Hstopped eq_refl) as (_ & Hnone & _). congruence.
      * reflexivity.
      * specialize (Hpaused eq_refl). congruence.
    + intros H. destruct (Hstopped H) as (H1 & _ & H3). now split.
    + intros H. destruct (Hactive H) as [H1 _].
      split; [ exact H1 | now apply Htripsync ].
  - apply startTracking_parts.
  - intros Hconfig. cbv zeta.
    destruct (startTracking_after_save_effect dev
                (stopTracking (startTracking_until_save tripId w)))
      as (S1 & S2 & S3 & S4).
    destruct (startTracking_after_save_effect dev
                (pauseTracking (startTracking_until_save tripId w)))
      as (P1 & _ & P3 & _).
    assert (TrackerService.state
              (World.service (stopTracking (startTracking_until_save tripId w)))
            = stopped /\
            TrackerService.currentTripId
              (World.service (stopTracking (startTracking_until_save tripId w)))
            = None /\
            getUpdateInterval
              (World.service (stopTracking (startTracking_until_save tripId w)))
            = 600000) as (Q1 & Q2 & Q3).
    { unfold stopTracking, stopTracking_after_sync, syncPendingLocations,
        startTracking_until_save.
      simpl.
      destruct (TrackerService.config (World.service w)) as [c |] eqn:Hc;
        [ | congruence ].
      simpl.
      destruct (Z.of_nat (List.length (World.pendingLocations w)) =? 0); simpl;
        rewrite ?Hc; simpl; repeat split. }
    assert (TrackerService.state
              (World.service (pauseTracking (startTracking_until_save tripId w)))
            = paused /\
            getUpdateInterval
              (World.service (pauseTracking (startTracking_until_save tripId w)))
            = 600000) as (R1 & R3).
    { unfold pauseTracking, startTracking_until_save. simpl.
      destruct (TrackerService.config (World.service w)) as [c |] eqn:Hc;
        [ | congruence ].
      simpl. rewrite ?Hc. simpl. repeat split. }
    rewrite Q1 in S1. rewrite Q2 in S2. rewrite Q3 in S3.
    rewrite R1 in P1. rewrite R3 in P3.
    repeat split; try assumption.
    + cbn [perform]. rewrite S3. unfold trackingTick. now rewrite S1.
    + cbn [perform]. rewrite P3. unfold trackingTick. now rewrite P1.
Qed.

(** X21. The activity of the tracker is never cycling, so the [default]
    branch of [getUpdateInterval] is never taken: the interval is 30 s or
    10 min, never the idle 5 min, and so is the period of the tracking
    timer. *)
Theorem tracker_idle_interval_unused (w : World.t) :
  reachable rng w ->
  TrackerService.currentActivity (World.service w) <> cycling /\
  getUpdateInterval (World.service w) <> TRACKING_CONFIG.IDLE_INTERVAL /\
  (getUpdateInterval (World.service w) = TRACKING_CONFIG.ACTIVE_INTERVAL \/
   getUpdateInterval (World.service w) = TRACKING_CONFIG.STATIONARY_INTERVAL) /\
  (forall period,
     TrackerService.trackingInterval (World.service w) = Some period ->
     period = 30000 \/ period = 600000).
Proof.
  intros Hw.
  destruct (reachable_invariant Hw) as [(_ & _ & _ & _ & Hcyc & Hperiod) _].
  split; [ exact Hcyc | ].
  unfold getUpdateInterval.
  destruct (TrackerService.currentActivity (World.service w));
    (split; [ try discriminate; congruence | ]);
    (split; [ (now left) || (now right) || congruence | exact Hperiod ]).
Qed.

(** X22. As long as the calls of the tracker do not overlap, every pending
    location was saved during a session: it carries a trip, the owner
    "local_user", no battery level, an activity that is not cycling, and
    it is not processed. A capture is not atomic, though: it waits for
    the device before it reads the trip. A capture that is waiting when
    [stopTracking] runs saves, once the device has answered, a location
    that carries no trip: the [currentTripId!] of [captureLocation] is
    then [null]. *)
Theorem pending_locations_captured (dev : Device.t) (update : LocationUpdate.t)
    (w : World.t) :
  reachable rng w ->
  Forall captured (World.pendingLocations w) /\
  captureLocation rng dev w
    = captureLocation_resumed rng (getCurrentLocation dev) w /\
  exists raw,
    World.pendingLocations
      (captureLocation_resumed rng (Some update) (stopTracking w))
      = World.pendingLocations w ++ [raw] /\
    RawLocation.tripId raw = None /\
    ~ captured raw.
Proof.
  intros Hw. split; [ now destruct (reachable_invariant Hw) | ].
  split; [ reflexivity | ].
  unfold captureLocation_resumed, stopTracking, stopTracking_after_sync,
    syncPendingLocations, stopTracking_before_sync.
  simpl.
  destruct (Z.of_nat (List.length (World.pendingLocations w)) =? 0); simpl;
    destruct (TrackerService.config (World.service w)) as [c |]; simpl;
    destruct (TrackerService.lastLocation (World.service w)) as [l |]; simpl;
    (eexists; split; [ reflexivity | ]; split; [ reflexivity | ]);
    intros [H _]; now apply H.
Qed.

(** No call and no timer removes a pending location: a call leaves the
    pending locations as they are, or adds one at their end. *)
Lemma perform_keeps_pending (dev : Device.t) (c : Call) (w : World.t) :
  exists more,
    World.pendingLocations (perform rng dev c w) = World.pendingLocations w ++ more /\
    (List.length more <= 1)%nat.
Proof.
  assert (exists more : list RawLocation.t,
             World.pendingLocations w = World.pendingLocations w ++ more /\
             (List.length more <= 1)%nat) as Hsame
    by (exists []; rewrite app_nil_r; split; [ reflexivity | simpl; lia ]).
  destruct c as [| tripId | | | | |]; simpl.
  - unfold initialize. cbv zeta. simpl.
    destruct (World.trackerConfig w) as [c |]; simpl;
      [ destruct (TrackerConfig.isActive c && truthy (TrackerConfig.currentTripId c)) | ];
      exact Hsame.
  - unfold startTracking. cbv zeta.
    destruct (negb (checkLocationPermission dev)); simpl; [ exact Hsame | ].
    match goal with |- context [captureLocation rng dev ?w0] =>
      destruct (captureLocation_effect rng dev w0)
        as (_ & _ & _ & _ & _ & _ & _ & more & -> & Hlen & _) end.
    exists more. split; [ | exact Hlen ].
    destruct (TrackerService.config (World.service w)); reflexivity.
  - unfold stopTracking, stopTracking_after_sync, syncPendingLocations. simpl.
    destruct (Z.of_nat (List.length (World.pendingLocations w)) =? 0); simpl;
      destruct (TrackerService.config (World.service w)); exact Hsame.
  - exact Hsame.
  - unfold resumeTracking.
    destruct (negb (truthy (TrackerService.currentTripId (World.service w))));
      simpl; [ exact Hsame | ].
    match goal with |- context [captureLocation rng dev ?w0] =>
      destruct (captureLocation_effect rng dev w0)
        as (_ & _ & _ & _ & _ & _ & _ & more & -> & Hlen & _) end.
    exists more. split; [ reflexivity | exact Hlen ].
  - destruct (TrackerService.trackingInterval (World.service w)); [ | exact Hsame ].
    unfold trackingTick.
    destruct (TrackerService.state (World.service w)); try exact Hsame.
    destruct (captureLocation_effect rng dev w)
      as (_ & _ & _ & _ & _ & _ & _ & more & -> & Hlen & _).
    exists more. split; [ reflexivity | exact Hlen ].
  - destruct (TrackerService.syncInterval (World.service w)); [ | exact Hsame ].
    unfold syncPendingLocations.
    destruct (Z.of_nat (List.length (World.pendingLocations w)) =? 0); exact Hsame.
Qed.


(** X24. [resumeTracking]. Without a trip it throws, and writes nothing: so
    it always throws after [stopTracking], which clears the trip. With a
    trip, as after [pauseTracking] on an active tracker, it returns with
    the tracker active on the same trip, and with a tracking timer that
    has the interval of the activity. [pauseTracking] does not look at
    the state: it makes a stopped tracker paused, which cannot be
    resumed. *)
Theorem resumeTracking_after (dev : Device.t) (w : World.t) :
  (truthy (TrackerService.currentTripId (World.service w)) = false ->
     resumeTracking rng dev w = (Thrown "No active trip to resume", w)) /\
  resumeTracking rng dev (stopTracking w)
    = (Thrown "No active trip to resume", stopTracking w) /\
  (truthy (TrackerService.currentTripId (World.service w)) = true ->
     fst (resumeTracking rng dev (pauseTracking w)) = Returned /\
     TrackerService.state
       (World.service (snd (resumeTracking rng dev (pauseTracking w)))) = active /\
     TrackerService.currentTripId
       (World.service (snd (resumeTracking rng dev (pauseTracking w))))
       = TrackerService.currentTripId (World.service w) /\
     TrackerService.trackingInterval
       (World.service (snd (resumeTracking rng dev (pauseTracking w))))
       = Some (interval_of_activity
                 (TrackerService.currentActivity (World.service w)))) /\
  (reachable rng w -> TrackerService.state (World.service w) = stopped ->
     TrackerService.state (World.service (pauseTracking w)) = paused /\
     fst (resumeTracking rng dev (pauseTracking w))
       = Thrown "No active trip to resume").
Proof.
  split; [ | split; [ | split ] ].
  - intros H. unfold resumeTracking. now rewrite H.
  - unfold resumeTracking.
    replace (TrackerService.currentTripId (World.service (stopTracking w)))
      with (@None string); [ reflexivity | ].
    unfold stopTracking, stopTracking_after_sync, syncPendingLocations. simpl.
    destruct (Z.of_nat (List.length (World.pendingLocations w)) =? 0); simpl;
      destruct (TrackerService.config (World.service w)); reflexivity.
  - intros H. unfold resumeTracking. simpl. rewrite H. simpl.
    match goal with |- context [captureLocation rng dev ?w0] =>
      destruct (captureLocation_effect rng dev w0)
        as (Hstate & Htrip & Htimer & _) end.
    rewrite Hstate, Htrip, Htimer. simpl.
    repeat split.
  - intros Hw Hstopped. split; [ reflexivity | ].
    pose proof (reachable_stopped_without_trip Hw Hstopped) as Hnone.
    unfold resumeTracking. simpl. now rewrite Hnone.
Qed.

(** [initialize] loads the saved configuration, or creates and saves the
    default one, which is not active: afterwards the tracker and the
    storage hold the same configuration, and a second [initialize] finds
    it. It starts nothing: the state, the trip, the timers and the
    pending locations are as they were. *)
Lemma initialize_configuration (w : World.t) :
  TrackerService.config (World.service (initialize w))
    = Some (match World.trackerConfig w with
            | Some c => c
            | None => getDefaultConfig
            end) /\
  World.trackerConfig (initialize w)
    = TrackerService.config (World.service (initialize w)) /\
  TrackerService.config (World.service (initialize (initialize w)))
    = TrackerService.config (World.service (initialize w)) /\
  TrackerConfig.isActive getDefaultConfig = false /\
  TrackerService.state (World.service (initialize w))
    = TrackerService.state (World.service w) /\
  TrackerService.currentTripId (World.service (initialize w))
    = TrackerService.currentTripId (World.service w) /\
  TrackerService.trackingInterval (World.service (initialize w))
    = TrackerService.trackingInterval (World.service w) /\
  TrackerService.syncInterval (World.service (initialize w))
    = TrackerService.syncInterval (World.service w) /\
  World.pendingLocations (initialize w) = World.pendingLocations w.
Proof.
  assert (forall w0,
             TrackerService.config (World.service (initialize w0))
             = Some (match World.trackerConfig w0 with
                     | Some c => c
                     | None => getDefaultConfig
                     end) /\
             World.trackerConfig (initialize w0)
             = TrackerService.config (World.service (initialize w0))) as Hconfig.
  { intros w0. unfold initialize. cbv zeta. simpl.
    destruct (World.trackerConfig w0) as [c |] eqn:Hc; simpl;
      [ destruct (TrackerConfig.isActive c && truthy (TrackerConfig.currentTripId c)) | ];
      simpl; rewrite ?Hc; split; reflexivity. }
  destruct (Hconfig w) as [H1 H2].
  split; [ exact H1 | ]. split; [ exact H2 | ].
  split; [ destruct (Hconfig (initialize w)) as [-> _]; now rewrite H2, H1 | ].
  split; [ reflexivity | ].
  unfold initialize. cbv zeta. simpl.
  destruct (World.trackerConfig w) as [c |]; simpl;
    [ destruct (TrackerConfig.isActive c && truthy (TrackerConfig.currentTripId c)) | ];
    repeat split.
Qed.
End TrackerBetweenCalls.

Lemma tracker_timers_follow_state_witness :
  let w :=
    perform Sample.rng Sample.device0 (CallStart "trip-1")
      (perform Sample.rng Sample.device0 CallInitialize World_initial) in
  ((TrackerService.state (World.service w) = active
    <-> TrackerService.trackingInterval (World.service w) <> None) /\
   (TrackerService.state (World.service w) = stopped ->
      TrackerService.currentTripId (World.service w) = None /\
      TrackerService.syncInterval (World.service w) = None) /\
   (TrackerService.state (World.service w) = active ->
      TrackerService.currentTripId (World.service w) <> None /\
      TrackerService.syncInterval (World.service w) = Some 300000)) /\
  (checkLocationPermission Sample.device1 = true ->
     startTracking Sample.rng Sample.device1 "trip-2" w
     = (Returned,
        startTracking_after_save Sample.rng Sample.device1
          (startTracking_until_save "trip-2" w))) /\
  (TrackerService.config (World.service w) <> None ->
     let stopped_meanwhile :=
       startTracking_after_save Sample.rng Sample.device1
         (stopTracking (startTracking_until_save "trip-2" w)) in
     let paused_meanwhile :=
       startTracking_after_save Sample.rng Sample.device1
         (pauseTracking (startTracking_until_save "trip-2" w)) in
     TrackerService.state (World.service stopped_meanwhile) = stopped /\
     TrackerService.currentTripId (World.service stopped_meanwhile) = None /\
     TrackerService.trackingInterval (World.service stopped_meanwhile)
       = Some 600000 /\
     TrackerService.syncInterval (World.service stopped_meanwhile) = Some 300000 /\
     perform Sample.rng Sample.device1 CallTick stopped_meanwhile
       = stopped_meanwhile /\
     TrackerService.state (World.service paused_meanwhile) = paused /\
     TrackerService.trackingInterval (World.service paused_meanwhile)
       = Some 600000 /\
     perform Sample.rng Sample.device1 CallTick paused_meanwhile
       = paused_meanwhile).
Proof.
  apply (@tracker_timers_follow_state Sample.rng Sample.device1 "trip-2"
           (perform Sample.rng Sample.device0 (CallStart "trip-1")
              (perform Sample.rng Sample.device0 CallInitialize World_initial))).
  do 2 apply reachable_step. apply reachable_initial.
Defined.

Lemma tracker_idle_interval_unused_witness :
  TrackerService.currentActivity (World.service Sample.walking_world) <> cycling /\
  getUpdateInterval (World.service Sample.walking_world)
    <> TRACKING_CONFIG.IDLE_INTERVAL /\
  (getUpdateInterval (World.service Sample.walking_world)
     = TRACKING_CONFIG.ACTIVE_INTERVAL \/
   getUpdateInterval (World.service Sample.walking_world)
     = TRACKING_CONFIG.STATIONARY_INTERVAL) /\
  (forall period,
     TrackerService.trackingInterval (World.service Sample.walking_world)
       = Some period ->
     period = 30000 \/ period = 600000).
Proof.
  apply (@tracker_idle_interval_unused Sample.rng Sample.walking_world).
  do 2 apply reachable_step. apply reachable_initial.
Defined.

Lemma pending_locations_captured_witness :
  Forall captured (World.pendingLocations Sample.walking_world) /\
  captureLocation Sample.rng Sample.device2 Sample.walking_world
    = captureLocation_resumed Sample.rng (getCurrentLocation Sample.device2)
        Sample.walking_world /\
  exists raw,
    World.pendingLocations
      (captureLocation_resumed Sample.rng (Some Sample.fix2)
         (stopTracking Sample.walking_world))
      = World.pendingLocations Sample.walking_world ++ [raw] /\
    RawLocation.tripId raw = None /\
    ~ captured raw.
Proof.
  apply (@pending_locations_captured Sample.rng Sample.device2 Sample.fix2
           Sample.walking_world).
  do 2 apply reachable_step. apply reachable_initial.
Defined.


(* ================================================================== *)
(** * Properties: the local storage *)
(* ================================================================== *)

Section TripStorageFacts.
Local Open Scope Z_scope.

Lemma Array_findIndex_range (A : Type) (p : A -> bool) (array : list A) :
  -1 <= Array_findIndex p array < Z.of_nat (List.length array).
Proof.
  induction array as [| x array IH]; simpl; [ lia | ].
  destruct (p x); [ lia | ].
  destruct (Array_findIndex p array <? 0) eqn:H;
    [ apply Z.ltb_lt in H | apply Z.ltb_ge in H ]; lia.
Qed.

(** What [saveTrip] makes of the trips it read: the first trip that has
    the identifier is replaced, or the trip is added at the end. *)
Let upsert (trip : TripValue.t) (trips : list TripValue.t) : list TripValue.t :=
  let index :=
    Array_findIndex (fun t => String.eqb (TripValue.id t) (TripValue.id trip)) trips in
  if 0 <=? index then Array_set (Z.to_nat index) trip trips else trips ++ [trip].

Lemma upsert_cons (trip x : TripValue.t) (trips : list TripValue.t) :
  upsert trip (x :: trips)
  = if String.eqb (TripValue.id x) (TripValue.id trip) then trip :: trips
    else x :: upsert trip trips.
Proof.
  unfold upsert. cbv zeta. simpl.
  destruct (String.eqb (TripValue.id x) (TripValue.id trip)); [ reflexivity | ].
  pose proof (Array_findIndex_range
                (fun t => String.eqb (TripValue.id t) (TripValue.id trip)) trips)
    as Hrange.
  set (index := Array_findIndex _ trips) in *.
  destruct (index <? 0) eqn:Hneg;
    [ apply Z.ltb_lt in Hneg | apply Z.ltb_ge in Hneg ].
  - replace (0 <=? -1) with false by reflexivity.
    replace (0 <=? index) with false by (symmetry; apply Z.leb_gt; lia).
    reflexivity.
  - replace (0 <=? index + 1) with true by (symmetry; apply Z.leb_le; lia).
    replace (0 <=? index) with true by (symmetry; apply Z.leb_le; lia).
    replace (Z.to_nat (index + 1)) with (S (Z.to_nat index)) by lia.
    reflexivity.
Qed.

Lemma saveTrip_upsert (trip : TripValue.t) (s : TripStore.t) :
  tripStorage.getAllTrips (tripStorage.saveTrip trip s)
  = map Trip_revived (upsert trip (tripStorage.getAllTrips s)).
Proof. reflexivity. Qed.

Lemma find_revived (trips : list TripValue.t) (tripId : string) :
  find (fun t => String.eqb (TripValue.id t) tripId) (map Trip_revived trips)
  = option_map Trip_revived
      (find (fun t => String.eqb (TripValue.id t) tripId) trips).
Proof.
  induction trips as [| x trips IH]; simpl; [ reflexivity | ].
  destruct (String.eqb (TripValue.id x) tripId); [ reflexivity | exact IH ].
Qed.

Lemma find_upsert (trip : TripValue.t) (trips : list TripValue.t) (tripId : string) :
  find (fun t => String.eqb (TripValue.id t) tripId)
    (map Trip_revived (upsert trip trips))
  = if String.eqb (TripValue.id trip) tripId then Some (Trip_revived trip)
    else option_map Trip_revived
           (find (fun t => String.eqb (TripValue.id t) tripId) trips).
Proof.
  rewrite find_revived.
  induction trips as [| x trips IH].
  - unfold upsert. simpl.
    destruct (String.eqb (TripValue.id trip) tripId); reflexivity.
  - rewrite upsert_cons.
    destruct (String.eqb (TripValue.id x) (TripValue.id trip)) eqn:Hx.
    + apply String.eqb_eq in Hx. simpl. rewrite Hx.
      destruct (String.eqb (TripValue.id trip) tripId); reflexivity.
    + simpl. destruct (String.eqb (TripValue.id x) tripId) eqn:Hx'.
      * apply String.eqb_eq in Hx'. subst tripId.
        rewrite String.eqb_sym in Hx. now rewrite Hx.
      * exact IH.
Qed.

Lemma getTrip_saveTrip (trip : TripValue.t) (tripId : string) (s : TripStore.t) :
  tripStorage.getTrip tripId (tripStorage.saveTrip trip s)
  = if String.eqb (TripValue.id trip) tripId then Some (Trip_revived trip)
    else option_map Trip_revived (tripStorage.getTrip tripId s).
Proof. unfold tripStorage.getTrip. rewrite saveTrip_upsert. apply find_upsert. Qed.

Lemma upsert_ids (trip : TripValue.t) (trips : list TripValue.t) :
  map TripValue.id (upsert trip trips)
  = if existsb (fun t => String.eqb (TripValue.id t) (TripValue.id trip)) trips
    then map TripValue.id trips
    else map TripValue.id trips ++ [TripValue.id trip].
Proof.
  induction trips as [| x trips IH]; [ reflexivity | ].
  rewrite upsert_cons. simpl.
  destruct (String.eqb (TripValue.id x) (TripValue.id trip)) eqn:Hx; simpl.
  - apply String.eqb_eq in Hx. now rewrite Hx.
  - rewrite IH.
    now destruct (existsb (fun t => String.eqb (TripValue.id t) (TripValue.id trip)) trips).
Qed.

Lemma revived_ids (trips : list TripValue.t) :
  map TripValue.id (map Trip_revived trips) = map TripValue.id trips.
Proof. rewrite map_map. reflexivity. Qed.

Lemma Trip_revived_twice (trip : TripValue.t) :
  Trip_revived (Trip_revived trip) = Trip_revived trip.
Proof.
  destruct trip as [? ? ? sd ed ? ? ? ? ca ua]. unfold Trip_revived. simpl.
  destruct sd, ca, ua; destruct ed as [[] |]; reflexivity.
Qed.

(** X25. [saveTrip], then [getTrip]. The trip saved is found under its
    identifier, as JSON gives it back, with its dates as texts; the
    trips of other identifiers are found as before. Saving under an
    identifier that is stored replaces that trip, and the trips are as
    many as before; under a new identifier the trip is added. Stored
    identifiers that are all different stay so. The active trip is not
    written. *)
Theorem saveTrip_getTrip (trip : TripValue.t) (s : TripStore.t) :
  tripStorage.getTrip (TripValue.id trip) (tripStorage.saveTrip trip s)
    = Some (Trip_revived trip) /\
  (forall tripId, tripId <> TripValue.id trip ->
     tripStorage.getTrip tripId (tripStorage.saveTrip trip s)
     = option_map Trip_revived (tripStorage.getTrip tripId s)) /\
  List.length (tripStorage.getAllTrips (tripStorage.saveTrip trip s))
    = (match tripStorage.getTrip (TripValue.id trip) s with
       | Some _ => List.length (tripStorage.getAllTrips s)
       | None => S (List.length (tripStorage.getAllTrips s))
       end) /\
  (NoDup (map TripValue.id (tripStorage.getAllTrips s)) ->
   NoDup (map TripValue.id (tripStorage.getAllTrips (tripStorage.saveTrip trip s)))) /\
  Forall (fun t => Trip_revived t = t)
    (tripStorage.getAllTrips (tripStorage.saveTrip trip s)) /\
  tripStorage.getActiveTripId (tripStorage.saveTrip trip s)
    = tripStorage.getActiveTripId s.
Proof.
  unfold tripStorage.getTrip. rewrite saveTrip_upsert.
  set (trips := tripStorage.getAllTrips s).
  assert (existsb (fun t => String.eqb (TripValue.id t) (TripValue.id trip)) trips
          = match find (fun t => String.eqb (TripValue.id t) (TripValue.id trip)) trips with
            | Some _ => true
            | None => false
            end) as Hfound.
  { induction trips as [| x l IH]; simpl; [ reflexivity | ].
    destruct (String.eqb (TripValue.id x) (TripValue.id trip)); [ reflexivity | exact IH ]. }
  split; [ | split; [ | split; [ | split; [ | split ] ] ] ].
  - rewrite find_upsert. now rewrite String.eqb_refl.
  - intros tripId Hne. rewrite find_upsert.
    replace (String.eqb (TripValue.id trip) tripId) with false; [ reflexivity | ].
    symmetry. apply String.eqb_neq. congruence.
  - rewrite <- (length_map TripValue.id), revived_ids, upsert_ids, Hfound.
    destruct (find _ trips); rewrite ?length_app, length_map; simpl; lia.
  - intros Hnd. rewrite revived_ids, upsert_ids.
    destruct (existsb _ trips) eqn:Hex; [ exact Hnd | ].
    apply NoDup_app; [ exact Hnd | constructor; [ intros [] | constructor ] | ].
    intros x Hx [<- | []].
    apply in_map_iff in Hx as (t & Ht & Hin).
    assert (existsb (fun t => String.eqb (TripValue.id t) (TripValue.id trip)) trips
            = true) as Hyes
      by (apply existsb_exists; exists t; split; [ exact Hin | now apply String.eqb_eq ]).
    congruence.
  - apply Forall_forall. intros t Ht. apply in_map_iff in Ht as (t' & <- & _).
    apply Trip_revived_twice.
  - reflexivity.
Qed.

Lemma getTrip_deleteTrip (tripId tripId' : string) (s : TripStore.t) :
  tripStorage.getTrip tripId' (tripStorage.deleteTrip tripId s)
  = if String.eqb tripId tripId' then None
    else option_map Trip_revived (tripStorage.getTrip tripId' s).
Proof.
  unfold tripStorage.getTrip, tripStorage.deleteTrip. cbv zeta.
  cbn [tripStorage.getAllTrips TripStore.trips]. rewrite find_revived.
  set (trips := tripStorage.getAllTrips s).
  destruct (String.eqb tripId tripId') eqn:Hid.
  - apply String.eqb_eq in Hid. subst tripId'.
    replace (find (fun t => String.eqb (TripValue.id t) tripId)
               (filter (fun t => negb (String.eqb (TripValue.id t) tripId)) trips))
      with (@None TripValue.t); [ reflexivity | ].
    induction trips as [| x l IH]; simpl; [ reflexivity | ].
    destruct (String.eqb (TripValue.id x) tripId) eqn:Hx; simpl; [ exact IH | ].
    now rewrite Hx.
  - f_equal. induction trips as [| x l IH]; simpl; [ reflexivity | ].
    destruct (String.eqb (TripValue.id x) tripId) eqn:Hx; simpl.
    + apply String.eqb_eq in Hx. subst tripId. now rewrite Hid.
    + destruct (String.eqb (TripValue.id x) tripId'); [ reflexivity | exact IH ].
Qed.

(** A trip found under an identifier has that identifier. *)
Lemma getTrip_id (tripId : string) (s : TripStore.t) (trip : TripValue.t) :
  tripStorage.getTrip tripId s = Some trip -> TripValue.id trip = tripId.
Proof.
  unfold tripStorage.getTrip. intros H. apply find_some in H as [_ H].
  now apply String.eqb_eq.
Qed.

(** What [saveTrip] and [deleteTrip] leave in the storage is as JSON
    gives it back. *)
Lemma saveTrip_revived (trip : TripValue.t) (s : TripStore.t) :
  Forall (fun t => Trip_revived t = t)
    (tripStorage.getAllTrips (tripStorage.saveTrip trip s)).
Proof.
  rewrite saveTrip_upsert. apply Forall_forall. intros t Ht.
  apply in_map_iff in Ht as (t' & <- & _). apply Trip_revived_twice.
Qed.

(** [deleteTrip], then [getTrip]: no trip is found under the identifier,
    and the trips of other identifiers are found as before; stored
    identifiers that are all different stay so. Deleting an identifier
    that is not stored removes nothing. *)
Lemma deleteTrip_getTrip (tripId : string) (s : TripStore.t) :
  tripStorage.getTrip tripId (tripStorage.deleteTrip tripId s) = None /\
  (forall tripId', tripId' <> tripId ->
     tripStorage.getTrip tripId' (tripStorage.deleteTrip tripId s)
     = option_map Trip_revived (tripStorage.getTrip tripId' s)) /\
  (tripStorage.getTrip tripId s = None ->
   tripStorage.getAllTrips (tripStorage.deleteTrip tripId s)
   = map Trip_revived (tripStorage.getAllTrips s)) /\
  (NoDup (map TripValue.id (tripStorage.getAllTrips s)) ->
   NoDup (map TripValue.id (tripStorage.getAllTrips (tripStorage.deleteTrip tripId s)))) /\
  tripStorage.getActiveTripId (tripStorage.deleteTrip tripId s)
    = tripStorage.getActiveTripId s.
Proof.
  unfold tripStorage.getTrip, tripStorage.deleteTrip. cbv zeta.
  cbn [tripStorage.getAllTrips TripStore.trips].
  set (trips := tripStorage.getAllTrips s).
  split; [ | split; [ | split; [ | split ] ] ].
  - induction trips as [| x l IH]; simpl; [ reflexivity | ].
    destruct (String.eqb (TripValue.id x) tripId) eqn:Hx; simpl; [ exact IH | ].
    now rewrite Hx.
  - intros tripId' Hne. induction trips as [| x l IH]; simpl; [ reflexivity | ].
    destruct (String.eqb (TripValue.id x) tripId) eqn:Hx; simpl.
    + apply String.eqb_eq in Hx.
      replace (String.eqb (TripValue.id x) tripId') with false; [ exact IH | ].
      symmetry. apply String.eqb_neq. congruence.
    + destruct (String.eqb (TripValue.id x) tripId'); [ reflexivity | exact IH ].
  - intros Hnone. f_equal. induction trips as [| x l IH]; simpl in *; [ reflexivity | ].
    destruct (String.eqb (TripValue.id x) tripId); [ discriminate | ].
    simpl. now rewrite IH.
  - intros Hnd. rewrite revived_ids.
    induction trips as [| x l IH]; simpl; [ constructor | ].
    inversion Hnd as [| ? ? Hx Hl]; subst.
    destruct (String.eqb (TripValue.id x) tripId); simpl; [ now apply IH | ].
    constructor; [ | now apply IH ].
    intros Hin. apply Hx. apply in_map_iff in Hin as (t & Ht & Hin).
    apply filter_In in Hin as [Hin _]. apply in_map_iff. now exists t.
  - reflexivity.
Qed.
End TripStorageFacts.

Section LocationStorageFacts.

(** X26. [removeSyncedLocations] with the identifiers of a batch read
    earlier: the batch goes, and the locations saved since, whose
    identifiers are others, stay in their order. No location that has
    one of the identifiers given is left, and [clearPendingLocations]
    leaves none at all; the tracker is not written. *)
Theorem removeSyncedLocations_batch (batch later : list RawLocation.t) (w : World.t) :
  locationStorage.getPendingLocations w = batch ++ later ->
  Forall (fun loc => ~ In (RawLocation.id loc) (map RawLocation.id batch)) later ->
  locationStorage.getPendingLocations
    (locationStorage.removeSyncedLocations (map RawLocation.id batch) w) = later /\
  World.service (locationStorage.removeSyncedLocations (map RawLocation.id batch) w)
    = World.service w /\
  locationStorage.getPendingLocations (locationStorage.clearPendingLocations w) = [].
Proof.
  intros Hpending Hlater.
  unfold locationStorage.removeSyncedLocations. cbv zeta. simpl.
  unfold locationStorage.getPendingLocations in *. rewrite Hpending.
  split; [ | split; reflexivity ].
  rewrite filter_app.
  assert (forall l ids,
             Forall (fun loc => In (RawLocation.id loc) ids) l ->
             filter (fun loc => negb (existsb (String.eqb (RawLocation.id loc)) ids)) l
             = []) as Hgone.
  { intros l ids H. induction H as [| x l Hx _ IH]; simpl; [ reflexivity | ].
    replace (existsb (String.eqb (RawLocation.id x)) ids) with true; [ exact IH | ].
    symmetry. apply existsb_exists. exists (RawLocation.id x).
    split; [ exact Hx | apply String.eqb_refl ]. }
  rewrite Hgone by (apply Forall_forall; intros x Hx; now apply in_map).
  simpl. clear Hpending.
  induction Hlater as [| x l Hx _ IH]; simpl; [ reflexivity | ].
  replace (existsb (String.eqb (RawLocation.id x)) (map RawLocation.id batch))
    with false; [ simpl; now rewrite IH | ].
  symmetry. apply not_true_is_false. intros H.
  apply existsb_exists in H as (i & Hi & Heq). apply String.eqb_eq in Heq.
  subst i. contradiction.
Qed.
End LocationStorageFacts.

Lemma removeSyncedLocations_batch_witness :
  locationStorage.getPendingLocations
    (locationStorage.removeSyncedLocations (map RawLocation.id [Sample.raw0])
       Sample.walking_world) = [Sample.raw1] /\
  World.service
    (locationStorage.removeSyncedLocations (map RawLocation.id [Sample.raw0])
       Sample.walking_world)
    = World.service Sample.walking_world /\
  locationStorage.getPendingLocations
    (locationStorage.clearPendingLocations Sample.walking_world) = [].
Proof.
  apply (@removeSyncedLocations_batch [Sample.raw0] [Sample.raw1] Sample.walking_world).
  - apply walking_world_session.
  - constructor; [ | constructor ]. simpl. intros [H | []]. discriminate.
Defined.

(* ================================================================== *)
(** * Properties: the trip service *)
(* ================================================================== *)

Section TripServiceFacts.
Variable rng : Entropy.
Variable clock : Clock.

(** The two outcomes of [startTracking], for its callers. *)
Lemma startTracking_outcome (dev : Device.t) (tripId : string) (w : World.t) :
  (checkLocationPermission dev = false ->
     fst (startTracking rng dev tripId w) = Thrown "Location permission not granted" /\
     World.service (snd (startTracking rng dev tripId w)) = World.service w /\
     World.drawn (snd (startTracking rng dev tripId w)) = World.drawn w) /\
  (checkLocationPermission dev = true ->
     fst (startTracking rng dev tripId w) = Returned /\
     TrackerService.state (World.service (snd (startTracking rng dev tripId w)))
       = active /\
     TrackerService.currentTripId
       (World.service (snd (startTracking rng dev tripId w))) = Some tripId).
Proof.
  unfold startTracking. cbv zeta. split; intros H; rewrite H; simpl.
  - repeat split.
  - match goal with |- context [captureLocation rng dev ?w0] =>
      destruct (captureLocation_effect rng dev w0) as (Hstate & Htrip & _) end.
    rewrite Hstate, Htrip.
    destruct (TrackerService.config (World.service w)); repeat split.
Qed.

(** The fields of the tracker after [stopTracking]. *)
Lemma stopTracking_stopped (w : World.t) :
  TrackerService.state (World.service (stopTracking w)) = stopped /\
  TrackerService.currentTripId (World.service (stopTracking w)) = None.
Proof.
  unfold stopTracking, stopTracking_after_sync, syncPendingLocations. simpl.
  destruct (Z.of_nat (List.length (World.pendingLocations w)) =? 0); simpl;
    destruct (TrackerService.config (World.service w)); split; reflexivity.
Qed.

(** The two outcomes of [updateTrip]. *)
Lemma updateTrip_found (tripId : string) (updates : TripUpdates.t) (a : App.t)
    (trip : TripValue.t) :
  tripStorage.getTrip tripId (App.store a) = Some trip ->
  TripService.updateTrip clock tripId updates a
  = (inl (spread trip updates (DateObject (clock (App.ticks a)))),
     App.log "TripService: Trip updated"
       (App.mk (App.tracker a)
          (tripStorage.saveTrip
             (spread trip updates (DateObject (clock (App.ticks a))))
             (App.store a))
          (S (App.ticks a)))).
Proof. intros H. unfold TripService.updateTrip. now rewrite H. Qed.

Lemma updateTrip_missing (tripId : string) (updates : TripUpdates.t) (a : App.t) :
  tripStorage.getTrip tripId (App.store a) = None ->
  TripService.updateTrip clock tripId updates a
  = (inr ("Trip " ++ tripId ++ " not found")%string,
     App.logError ("Trip " ++ tripId ++ " not found")%string
       "TripService.updateTrip" a).
Proof. intros H. unfold TripService.updateTrip. now rewrite H. Qed.

(** X27. [createTrip] with [startNow]: the trip is saved, as active, and set
    as the active trip before the tracker is started. When the device
    denies the permission, [createTrip] throws, and the trip stays
    stored as active and as the active trip, with a tracker that did not
    start; when the device grants it, the trip is returned and the
    tracker is active on it. *)
Theorem createTrip_stores_before_start (dev : Device.t) (name : string) (a : App.t) :
  rng (World.drawn (App.tracker a)) <> ""%string ->
  let tripId := rng (World.drawn (App.tracker a)) in
  let a' := snd (TripService.createTrip rng dev clock name true a) in
  option_map TripValue.status (TripService.getTrip tripId a') = Some trip_active /\
  option_map TripValue.name (TripService.getTrip tripId a') = Some name /\
  tripStorage.getActiveTripId (App.store a') = Some tripId /\
  TripService.getActiveTrip a' = TripService.getTrip tripId a' /\
  (checkLocationPermission dev = false ->
     fst (TripService.createTrip rng dev clock name true a)
       = inr "Location permission not granted"%string /\
     World.service (App.tracker a') = World.service (App.tracker a)) /\
  (checkLocationPermission dev = true ->
     (exists trip,
        fst (TripService.createTrip rng dev clock name true a) = inl trip /\
        TripValue.id trip = tripId /\ TripValue.name trip = name /\
        TripValue.status trip = trip_active) /\
     TrackerService.state (World.service (App.tracker a')) = active /\
     TrackerService.currentTripId (World.service (App.tracker a')) = Some tripId).
Proof.
  intros Hid. cbv zeta.
  set (tripId := rng (World.drawn (App.tracker a))) in *.
  assert (truthy (Some tripId) = true) as Htruthy.
  { simpl. apply negb_true_iff. now apply String.eqb_neq. }
  unfold TripService.createTrip, generateUUID. cbv zeta.
  cbn [App.log App.with_tracker App.store App.tracker App.ticks World.drawn log].
  fold tripId.
  match goal with |- context [tripStorage.saveTrip ?t (App.store a)] =>
    set (trip := t) end.
  cbn [TripValue.id].
  unfold TripService.startTrip. cbv zeta.
  erewrite updateTrip_found;
    [ | cbn [App.log App.with_tracker App.store]; rewrite getTrip_saveTrip;
        cbn [TripValue.id trip]; rewrite String.eqb_refl; reflexivity ].
  cbn [App.log App.with_tracker App.with_store App.store App.tracker App.ticks].
  change (TripValue.id trip) with tripId.
  match goal with |- context [tripStorage.saveTrip ?t (tripStorage.saveTrip trip _)] =>
    set (updated := t) end.
  match goal with |- context [startTracking rng dev tripId ?w] =>
    set (w0 := w) end.
  assert (World.service w0 = World.service (App.tracker a)) as Hw0 by reflexivity.
  set (s' := tripStorage.setActiveTripId (Some tripId)
               (tripStorage.saveTrip updated (tripStorage.saveTrip trip (App.store a)))).
  assert (tripStorage.getTrip tripId s' = Some (Trip_revived updated)) as Hget.
  { unfold s', tripStorage.setActiveTripId. rewrite Htruthy.
    change (tripStorage.getTrip tripId
              (tripStorage.saveTrip updated (tripStorage.saveTrip trip (App.store a)))
            = Some (Trip_revived updated)).
    rewrite getTrip_saveTrip. cbn [TripValue.id updated spread TripUpdates.of_status
      TripUpdates.id Trip_revived trip].
    now rewrite String.eqb_refl. }
  assert (tripStorage.getActiveTripId s' = Some tripId) as Hactive
    by (unfold s', tripStorage.setActiveTripId; now rewrite Htruthy).
  destruct (startTracking_outcome dev tripId w0) as [Hdenied Hgranted].
  destruct (startTracking rng dev tripId w0) as [[| message] w1] eqn:Hstart;
    cbn [App.log App.with_tracker App.with_store App.store App.tracker App.ticks
         App.logError fst snd];
    unfold TripService.getTrip, TripService.getActiveTrip;
    cbn [App.log App.with_tracker App.with_store App.store App.tracker App.ticks
         App.logError fst snd];
    fold s'; rewrite Hactive, Htruthy; cbn [negb]; rewrite Hget;
    (split; [ reflexivity | ]); (split; [ reflexivity | ]);
    (split; [ reflexivity | ]); (split; [ reflexivity | ]).
  - split.
    + intros H. destruct (Hdenied H) as (Hf & _). simpl in Hf. discriminate.
    + intros H. destruct (Hgranted H) as (_ & Hs & Ht). simpl in Hs, Ht.
      split; [ exists trip; repeat split | ]. split; assumption.
  - split.
    + intros H. destruct (Hdenied H) as (Hf & Hs & _). simpl in Hf, Hs.
      injection Hf as ->. split; [ reflexivity | ]. simpl. now rewrite Hs.
    + intros H. destruct (Hgranted H) as (Hf & _). simpl in Hf. discriminate.
Qed.

(** X28. [completeTrip] stops the tracker first, whatever the identifier:
    afterwards the tracker is stopped and holds no trip. For a stored
    trip, the trip is then saved as completed, with the time of the call
    for end date, and the active trip is cleared. For an identifier that
    is not stored, [completeTrip] throws after it has stopped the
    tracker, and leaves the storage as it was, the active trip
    included. *)
Theorem completeTrip_stops_first (tripId : string) (a : App.t) :
  let a' := snd (TripService.completeTrip clock tripId a) in
  TrackerService.state (World.service (App.tracker a')) = stopped /\
  TrackerService.currentTripId (World.service (App.tracker a')) = None /\
  (forall trip, TripService.getTrip tripId a = Some trip ->
     exists completed,
       fst (TripService.completeTrip clock tripId a) = inl completed /\
       TripValue.id completed = tripId /\
       TripValue.status completed = trip_completed /\
       TripValue.endDate completed = Some (DateObject (clock (App.ticks a))) /\
       TripService.getTrip tripId a' = Some (Trip_revived completed) /\
       tripStorage.getActiveTripId (App.store a') = None) /\
  (TripService.getTrip tripId a = None ->
     fst (TripService.completeTrip clock tripId a)
       = inr ("Trip " ++ tripId ++ " not found")%string /\
     App.store a' = App.store a).
Proof.
  cbv zeta. unfold TripService.completeTrip, TripService.getTrip. cbv zeta.
  destruct (tripStorage.getTrip tripId (App.store a)) as [trip |] eqn:Hget.
  - erewrite updateTrip_found by exact Hget.
    cbn [App.log App.with_tracker App.with_store App.store App.tracker App.ticks
         App.logError fst snd].
    destruct (stopTracking_stopped
                (log "TripService: Completing trip" (App.tracker a))) as [Hs Ht].
    split; [ exact Hs | ]. split; [ exact Ht | ].
    split; [ | discriminate ].
    intros trip' [= <-]. eexists. split; [ reflexivity | ].
    pose proof (getTrip_id _ _ Hget) as Hid.
    cbn [spread TripUpdates.of_status_endDate TripUpdates.id TripUpdates.status
         TripUpdates.endDate TripValue.id TripValue.status TripValue.endDate].
    split; [ exact Hid | ]. split; [ reflexivity | ]. split; [ reflexivity | ].
    split; [ | reflexivity ].
    unfold tripStorage.setActiveTripId. cbn [truthy].
    match goal with |- tripStorage.getTrip tripId (TripStore.mk (TripStore.trips ?s) None) = _ =>
      change (tripStorage.getTrip tripId s = Some (Trip_revived
        (spread trip (TripUpdates.of_status_endDate trip_completed
                        (DateObject (clock (App.ticks a))))
           (DateObject (clock (S (App.ticks a))))))) end.
    rewrite getTrip_saveTrip.
    cbn [spread TripUpdates.of_status_endDate TripUpdates.id TripValue.id].
    now rewrite Hid, String.eqb_refl.
  - erewrite updateTrip_missing by exact Hget.
    cbn [App.log App.with_tracker App.with_store App.store App.tracker App.ticks
         App.logError fst snd].
    destruct (stopTracking_stopped
                (log "TripService: Completing trip" (App.tracker a))) as [Hs Ht].
    split; [ exact Hs | ]. split; [ exact Ht | ].
    split; [ intros trip H; discriminate | ]. intros _. split; reflexivity.
Qed.

(** X29. [deleteTrip] of the trip service: the trip is no longer found, and
    the other trips are found as before. If the trip was the active
    one, the tracker is stopped and the active trip is cleared;
    otherwise neither is written. *)
Theorem deleteTrip_active_trip (tripId : string) (a : App.t) :
  let a' := TripService.deleteTrip tripId a in
  TripService.getTrip tripId a' = None /\
  (forall other, other <> tripId ->
     TripService.getTrip other a'
     = option_map Trip_revived (TripService.getTrip other a)) /\
  (tripStorage.getActiveTripId (App.store a) = Some tripId ->
     tripStorage.getActiveTripId (App.store a') = None /\
     TrackerService.state (World.service (App.tracker a')) = stopped /\
     TrackerService.currentTripId (World.service (App.tracker a')) = None) /\
  (tripStorage.getActiveTripId (App.store a) <> Some tripId ->
     tripStorage.getActiveTripId (App.store a')
       = tripStorage.getActiveTripId (App.store a) /\
     World.service (App.tracker a') = World.service (App.tracker a)).
Proof.
  cbv zeta. unfold TripService.deleteTrip, TripService.getTrip. cbv zeta.
  cbn [App.log App.with_tracker App.store].
  unfold tripStorage.getActiveTripId.
  destruct (TripStore.activeTripId (App.store a)) as [current |] eqn:Hactive.
  - destruct (String.eqb current tripId) eqn:Hcurrent.
    + apply String.eqb_eq in Hcurrent. subst current.
      cbn [App.log App.with_tracker App.with_store App.store App.tracker].
      split; [ rewrite getTrip_deleteTrip; now rewrite String.eqb_refl | ].
      split.
      * intros other Hne. rewrite getTrip_deleteTrip.
        replace (String.eqb tripId other) with false
          by (symmetry; apply String.eqb_neq; congruence).
        reflexivity.
      * split; [ | congruence ]. intros _.
        destruct (stopTracking_stopped
                    (log "TripService: Deleting trip" (App.tracker a))) as [Hs Ht].
        split; [ reflexivity | ]. split; assumption.
    + apply String.eqb_neq in Hcurrent.
      cbn [App.log App.with_tracker App.with_store App.store App.tracker].
      split; [ rewrite getTrip_deleteTrip; now rewrite String.eqb_refl | ].
      split.
      * intros other Hne. rewrite getTrip_deleteTrip.
        replace (String.eqb tripId other) with false
          by (symmetry; apply String.eqb_neq; congruence).
        reflexivity.
      * split; [ congruence | ]. intros _. split; [ exact Hactive | reflexivity ].
  - cbn [App.log App.with_tracker App.with_store App.store App.tracker].
    split; [ rewrite getTrip_deleteTrip; now rewrite String.eqb_refl | ].
    split.
    + intros other Hne. rewrite getTrip_deleteTrip.
      replace (String.eqb tripId other) with false
        by (symmetry; apply String.eqb_neq; congruence).
      reflexivity.
    + split; [ discriminate | ]. intros _. split; [ exact Hactive | reflexivity ].
Qed.
End TripServiceFacts.

Section AllTrips.

Lemma sort_insert_try_length (A : Type) (compare : A -> A -> option Z)
    (x : A) (l sorted : list A) :
  sort_insert_try compare x l = Some sorted ->
  List.length sorted = S (List.length l).
Proof.
  revert sorted. induction l as [| y l IH]; intros sorted; simpl.
  - intros [= <-]. reflexivity.
  - destruct (compare x y) as [order |]; [ | discriminate ].
    destruct (order <=? 0); [ intros [= <-]; reflexivity | ].
    destruct (sort_insert_try compare x l) as [s |]; [ | discriminate ].
    intros [= <-]. simpl. now rewrite (IH s eq_refl).
Qed.

Lemma Array_sort_try_length (A : Type) (compare : A -> A -> option Z)
    (l sorted : list A) :
  Array_sort_try compare l = Some sorted -> List.length sorted = List.length l.
Proof.
  revert sorted. induction l as [| x l IH]; intros sorted; simpl.
  - intros [= <-]. reflexivity.
  - destruct (Array_sort_try compare l) as [s |]; [ | discriminate ].
    intros H. apply sort_insert_try_length in H. rewrite H.
    now rewrite (IH s eq_refl).
Qed.

(** A trip as JSON gives it back has no start date to compare. *)
Lemma byStartDate_revived (trip other : TripValue.t) :
  Trip_revived trip = trip -> TripService.byStartDate trip other = None.
Proof.
  intros H. unfold TripService.byStartDate. rewrite <- H.
  destruct trip as [? ? ? sd ? ? ? ? ? ? ?]. simpl.
  destruct (getTime (TripValue.startDate other)); destruct sd; reflexivity.
Qed.

Lemma Array_sort_try_revived (trips : list TripValue.t) :
  Forall (fun t => Trip_revived t = t) trips ->
  (2 <= List.length trips)%nat ->
  Array_sort_try TripService.byStartDate trips = None.
Proof.
  intros Hall Hlen. destruct trips as [| x trips]; [ simpl in Hlen; lia | ].
  simpl. inversion Hall as [| ? ? Hx _]; subst.
  destruct (Array_sort_try TripService.byStartDate trips) as [sorted |] eqn:Hs;
    [ | reflexivity ].
  apply Array_sort_try_length in Hs.
  destruct sorted as [| y sorted]; [ simpl in *; lia | ].
  simpl. now rewrite (byStartDate_revived _ Hx).
Qed.

(** X30. [getAllTrips] of the trip service, on trips that were saved: they
    come back from the storage with their dates as texts, which have no
    [getTime]; the sort compares as soon as there are two trips, the
    comparison throws, and [getAllTrips] answers with no trip at all, as
    does [getTripsByStatus]. Up to one stored trip nothing is compared,
    and the trips stored are returned. *)
Theorem getAllTrips_of_stored (trip : TripValue.t) (status : TripStatus) (a : App.t) :
  let a' := App.with_store (tripStorage.saveTrip trip) a in
  ((List.length (tripStorage.getAllTrips (App.store a')) <= 1)%nat ->
     fst (TripService.getAllTrips a') = tripStorage.getAllTrips (App.store a')) /\
  ((2 <= List.length (tripStorage.getAllTrips (App.store a')))%nat ->
     fst (TripService.getAllTrips a') = [] /\
     fst (TripService.getTripsByStatus status a') = []).
Proof.
  cbv zeta. unfold TripService.getTripsByStatus, TripService.getAllTrips.
  cbn [App.with_store App.store].
  pose proof (saveTrip_revived trip (App.store a)) as Hall.
  set (trips := tripStorage.getAllTrips (tripStorage.saveTrip trip (App.store a))) in *.
  split.
  - intros Hlen. destruct trips as [| x [| y l]]; [ reflexivity | reflexivity | ].
    simpl in Hlen. lia.
  - intros Hlen. rewrite (Array_sort_try_revived Hall Hlen). split; reflexivity.
Qed.
End AllTrips.

Lemma createTrip_stores_before_start_witness :
  let tripId := Sample.rng (World.drawn (App.tracker App.initial)) in
  let a' :=
    snd (TripService.createTrip Sample.rng Sample.denied (fun _ => 0) "Lisbon"
           true App.initial) in
  option_map TripValue.status (TripService.getTrip tripId a') = Some trip_active /\
  option_map TripValue.name (TripService.getTrip tripId a') = Some "Lisbon"%string /\
  tripStorage.getActiveTripId (App.store a') = Some tripId /\
  TripService.getActiveTrip a' = TripService.getTrip tripId a' /\
  (checkLocationPermission Sample.denied = false ->
     fst (TripService.createTrip Sample.rng Sample.denied (fun _ => 0) "Lisbon"
            true App.initial)
       = inr "Location permission not granted"%string /\
     World.service (App.tracker a') = World.service (App.tracker App.initial)) /\
  (checkLocationPermission Sample.denied = true ->
     (exists trip,
        fst (TripService.createTrip Sample.rng Sample.denied (fun _ => 0) "Lisbon"
               true App.initial) = inl trip /\
        TripValue.id trip = tripId /\ TripValue.name trip = "Lisbon"%string /\
        TripValue.status trip = trip_active) /\
     TrackerService.state (World.service (App.tracker a')) = active /\
     TrackerService.currentTripId (World.service (App.tracker a')) = Some tripId).
Proof.
  apply (@createTrip_stores_before_start Sample.rng (fun _ => 0) Sample.denied
           "Lisbon" App.initial).
  discriminate.
Defined.
